(** * Wallet policy parser of app-bitcoin-new ([src/common/wallet.c])

    A shallow embedding of the wallet-policy parser: the header decoder
    [read_policy_map_wallet], the key-information parser
    [parse_policy_map_key_info], the lexical helpers and the recursive
    descent parser [parse_script] with its miniscript type calculus.

    Conventions.
    - The target is a 32-bit device: [size_t], [unsigned int] and
      [uint32_t] are 32 bits wide and [int] is a 32-bit two's complement
      integer.  The source relies on this itself (it passes the address of
      a [uint32_t] where a [size_t *] is expected).  Unsigned arithmetic is
      written with its wrap-around ([size_t_of]).
    - A byte is a [Z] in [0, 255]; a [char] constant is its ASCII code.
    - The input cursor is represented by the bytes that are still unread.
    - The output arena is a bump allocator over a region of addresses; the
      nodes written into it live in a finite map from addresses to cells. *)

From Stdlib Require Import ZArith List String Ascii Bool Lia.
From stdpp Require Import base option gmap.

Import ListNotations.
Local Open Scope Z_scope.

(** ** Machine integers *)

Definition SIZE_BITS : Z := 32.
Definition SIZE_MODULUS : Z := 2 ^ SIZE_BITS.
Definition SIZE_MAX : Z := SIZE_MODULUS - 1.

(** Conversion of a mathematical integer to [size_t] (wrap-around). *)
Definition size_t_of (x : Z) : Z := x mod SIZE_MODULUS.

(** Conversion of a [size_t] to [int], as in [int key_index = parse_key_index(..)]. *)
Definition int_of_size_t (x : Z) : Z :=
  if x <? 2 ^ 31 then x else x - SIZE_MODULUS.

Definition uint16_of (x : Z) : Z := x mod 2 ^ 16.

(** ** Bytes and character constants *)

Definition byte_of_ascii (a : ascii) : Z := Z.of_N (N_of_ascii a).

Definition bytes_of_string (s : string) : list Z :=
  List.map byte_of_ascii (list_ascii_of_string s).

Definition chr (s : string) : Z :=
  match s with
  | String a _ => byte_of_ascii a
  | EmptyString => 0
  end.

(** ** The byte cursor *)

(** Modelled from the spec: the byte-buffer primitives of [buffer.h]
    ([buffer_peek], [buffer_peek_n], [buffer_seek_cur], [buffer_read_u8],
    [buffer_can_read], [buffer_read_bytes], [buffer_read_varint]) are not
    part of [wallet.c].  The spec (4.1) describes a forward-only read
    cursor over an input slice whose operations report exhaustion and never
    move on failure.  The cursor is the list of unread bytes. *)
Definition cursor : Type := list Z.

(** Modelled from the spec: [buffer_peek], the next byte without moving
    (spec 4.1, [peek]). *)
Definition buffer_peek (b : cursor) : option Z := List.hd_error b.

(** Modelled from the spec: [buffer_peek_n], the byte at an offset from the
    position, without moving (spec 4.1, [peek_at]). *)
Definition buffer_peek_n (b : cursor) (n : nat) : option Z := List.nth_error b n.

(** Modelled from the spec: [buffer_can_read], whether [n] bytes are left
    (spec 4.1, [can_read]). *)
Definition buffer_can_read (b : cursor) (n : nat) : bool := (n <=? List.length b)%nat.

(** Modelled from the spec: [buffer_seek_cur], the forward move by [n]
    bytes, which does nothing when fewer are left (spec 4.1,
    [seek_relative]). *)
Definition buffer_seek_cur (b : cursor) (n : nat) : cursor :=
  if buffer_can_read b n then List.skipn n b else b.

(** Modelled from the spec: [buffer_read_u8], the next byte, consumed
    (spec 4.1, [read_u8]). *)
Definition buffer_read_u8 (b : cursor) : option Z * cursor :=
  match b with
  | [] => (None, b)
  | c :: rest => (Some c, rest)
  end.

(** Modelled from the spec: [buffer_read_bytes], the next [n] bytes,
    consumed, or nothing when fewer are left (spec 4.1, [read_bytes]). *)
Definition buffer_read_bytes (b : cursor) (n : nat) : option (list Z) * cursor :=
  if buffer_can_read b n then (Some (List.firstn n b), List.skipn n b) else (None, b).

(** Little-endian value of a byte string. *)
Fixpoint read_le (bs : list Z) : Z :=
  match bs with
  | [] => 0
  | c :: rest => c + 256 * read_le rest
  end.

(** Modelled from the spec: [buffer_read_varint], the Bitcoin-style
    variable-length integer: one byte, or a prefix [0xFD], [0xFE], [0xFF]
    followed by 2, 4 or 8 little-endian bytes (spec 4.1, [read_varint]). *)
Definition buffer_read_varint (b : cursor) : option Z * cursor :=
  match b with
  | [] => (None, b)
  | c :: rest =>
      let wide (n : nat) :=
        if buffer_can_read rest n
        then (Some (read_le (List.firstn n rest)), List.skipn n rest)
        else (None, b) in
      if c =? 253 then wide 2%nat
      else if c =? 254 then wide 4%nat
      else if c =? 255 then wide 8%nat
      else (Some c, rest)
  end.

(** ** Lexical primitives *)

Definition is_digit (c : Z) : bool := (chr "0" <=? c) && (c <=? chr "9").

Definition is_alpha (c : Z) : bool :=
  ((chr "a" <=? c) && (c <=? chr "z")) || ((chr "A" <=? c) && (c <=? chr "Z")).

Definition is_alphanumeric (c : Z) : bool := is_alpha c || is_digit c.

Definition is_lowercase_hex (c : Z) : bool :=
  is_digit c || ((chr "a" <=? c) && (c <=? chr "f")).

Definition lowercase_hex_to_int (c : Z) : Z :=
  (if is_digit c then c - chr "0" else c - chr "a" + 10) mod 256.

Definition consume_character (b : cursor) (expected : Z) : bool * cursor :=
  match buffer_peek b with
  | Some c => if c =? expected then (true, buffer_seek_cur b 1) else (false, b)
  | None => (false, b)
  end.

(** [read_token]: the loop reads while fewer than [out_len] characters
    were read and the next one is in [[a-zA-Z0-9_]]. *)
Fixpoint read_token (b : cursor) (out_len : nat) : list Z * cursor :=
  match out_len with
  | O => ([], b)
  | S out_len' =>
      match b with
      | c :: rest =>
          if is_alphanumeric c || (c =? chr "_")
          then let '(word, b') := read_token rest out_len' in (c :: word, b')
          else ([], b)
      | [] => ([], b)
      end
  end.

(** [parse_unsigned_decimal].  [result] is a [size_t]: the products and
    sums of the source wrap around, and the overflow test of the source is
    the comparison [10 * result + next_digit < result] on the wrapped
    value.  [None] stands for the return value [-1]. *)
Fixpoint parse_unsigned_decimal_loop
    (b : cursor) (result : Z) (digits_read : Z) : option (Z * Z) * cursor :=
  match b with
  | c :: rest =>
      if is_digit c then
        let digits_read := digits_read + 1 in
        let next_digit := c - chr "0" in
        if (digits_read =? 2) && (result =? 0) then (None, b)
        else if size_t_of (10 * result + next_digit) <? result then (None, b)
        else parse_unsigned_decimal_loop rest (size_t_of (10 * result + next_digit)) digits_read
      else (Some (result, digits_read), b)
  | [] => (Some (result, digits_read), b)
  end.

Definition parse_unsigned_decimal (b : cursor) : option Z * cursor :=
  match parse_unsigned_decimal_loop b 0 0 with
  | (Some (result, digits_read), b') =>
      if digits_read =? 0 then (None, b') else (Some result, b')
  | (None, b') => (None, b')
  end.

(** [buffer_read_hex_hash]: exactly [2 * n] lowercase hexadecimal
    characters give [n] bytes.  The characters of a pair are consumed before
    they are checked. *)
Fixpoint read_hex_pairs (b : cursor) (n : nat) : option (list Z) * cursor :=
  match n with
  | O => (Some [], b)
  | S n' =>
      match b with
      | c1 :: c2 :: rest =>
          if negb (is_lowercase_hex c1) || negb (is_lowercase_hex c2) then (None, rest)
          else
            match read_hex_pairs rest n' with
            | (Some out, b') =>
                (Some ((16 * lowercase_hex_to_int c1 + lowercase_hex_to_int c2) mod 256 :: out), b')
            | (None, b') => (None, b')
            end
      | _ => (None, b)
      end
  end.

Definition buffer_read_hex_hash (b : cursor) (n : nat) : option (list Z) * cursor :=
  if negb (buffer_can_read b (2 * n)) then (None, b) else read_hex_pairs b n.

(** Modelled from the spec: [BIP32_FIRST_HARDENED_CHILD] of [bip32.h] is the
    hardened-bit mask [0x80000000] (spec, section 6). *)
Definition BIP32_FIRST_HARDENED_CHILD : Z := 2 ^ 31.

Definition buffer_read_derivation_step (b : cursor) : option Z * cursor :=
  match parse_unsigned_decimal b with
  | (None, b') => (None, b')
  | (Some der_step, b') =>
      if BIP32_FIRST_HARDENED_CHILD <=? der_step then (None, b')
      else
        match consume_character b' (chr "'") with
        | (true, b'') => (Some (Z.lor der_step BIP32_FIRST_HARDENED_CHILD), b'')
        | (false, b'') => (Some der_step, b'')
        end
  end.

(** ** Header decoder *)

(** Modelled from the spec: the constants of [wallet.h] used by the header
    decoder.  The policy-map discriminant is 2, a name has at most 64 bytes
    and a policy body at most 74 (spec, sections 3 and 6). *)
Definition WALLET_TYPE_POLICY_MAP : Z := 2.
Definition MAX_WALLET_NAME_LENGTH : Z := 64.
Definition MAX_POLICY_MAP_STR_LENGTH : Z := 74.

(** Modelled from the spec: the structure [policy_map_wallet_header_t] of
    [wallet.h], with the fields that [wallet.c] assigns (spec, section 3,
    Header). *)
Record policy_map_wallet_header_t := mk_header {
  hdr_type : Z;
  hdr_name_len : Z;
  hdr_name : list Z;
  hdr_policy_map_len : Z;
  hdr_policy_map : list Z;
  hdr_n_keys : Z;
  hdr_keys_info_merkle_root : list Z
}.

Definition set_hdr_type v h :=
  mk_header v (hdr_name_len h) (hdr_name h) (hdr_policy_map_len h) (hdr_policy_map h)
            (hdr_n_keys h) (hdr_keys_info_merkle_root h).
Definition set_hdr_name_len v h :=
  mk_header (hdr_type h) v (hdr_name h) (hdr_policy_map_len h) (hdr_policy_map h)
            (hdr_n_keys h) (hdr_keys_info_merkle_root h).
Definition set_hdr_name v h :=
  mk_header (hdr_type h) (hdr_name_len h) v (hdr_policy_map_len h) (hdr_policy_map h)
            (hdr_n_keys h) (hdr_keys_info_merkle_root h).
Definition set_hdr_policy_map_len v h :=
  mk_header (hdr_type h) (hdr_name_len h) (hdr_name h) v (hdr_policy_map h)
            (hdr_n_keys h) (hdr_keys_info_merkle_root h).
Definition set_hdr_policy_map v h :=
  mk_header (hdr_type h) (hdr_name_len h) (hdr_name h) (hdr_policy_map_len h) v
            (hdr_n_keys h) (hdr_keys_info_merkle_root h).
Definition set_hdr_n_keys v h :=
  mk_header (hdr_type h) (hdr_name_len h) (hdr_name h) (hdr_policy_map_len h) (hdr_policy_map h)
            v (hdr_keys_info_merkle_root h).
Definition set_hdr_keys_info_merkle_root v h :=
  mk_header (hdr_type h) (hdr_name_len h) (hdr_name h) (hdr_policy_map_len h) (hdr_policy_map h)
            (hdr_n_keys h) v.

(** [read_policy_map_wallet buffer header] returns the status code of the
    source ([0] on success, [-1] to [-10] for the failing stage), the header
    with the fields assigned so far, and the cursor. *)
Definition read_policy_map_wallet (buffer : cursor) (header : policy_map_wallet_header_t)
  : Z * policy_map_wallet_header_t * cursor :=
  match buffer_read_u8 buffer with
  | (None, buffer) => (-1, header, buffer)
  | (Some type, buffer) =>
  let header := set_hdr_type type header in
  if negb (hdr_type header =? WALLET_TYPE_POLICY_MAP) then (-2, header, buffer) else
  match buffer_read_u8 buffer with
  | (None, buffer) => (-3, header, buffer)
  | (Some name_len, buffer) =>
  let header := set_hdr_name_len name_len header in
  if MAX_WALLET_NAME_LENGTH <? hdr_name_len header then (-4, header, buffer) else
  match buffer_read_bytes buffer (Z.to_nat (hdr_name_len header)) with
  | (None, buffer) => (-5, header, buffer)
  | (Some name, buffer) =>
  let header := set_hdr_name name header in
  match buffer_read_varint buffer with
  | (None, buffer) => (-6, header, buffer)
  | (Some policy_map_len, buffer) =>
  let header := set_hdr_policy_map_len (uint16_of policy_map_len) header in
  if MAX_POLICY_MAP_STR_LENGTH <? hdr_policy_map_len header then (-7, header, buffer) else
  match buffer_read_bytes buffer (Z.to_nat (hdr_policy_map_len header)) with
  | (None, buffer) => (-8, header, buffer)
  | (Some policy_map, buffer) =>
  let header := set_hdr_policy_map policy_map header in
  match buffer_read_varint buffer with
  | (None, buffer) => (-9, header, buffer)
  | (Some n_keys, buffer) =>
  if 252 <? n_keys then (-9, header, buffer) else
  let header := set_hdr_n_keys (uint16_of n_keys) header in
  match buffer_read_bytes buffer 32 with
  | (None, buffer) => (-10, header, buffer)
  | (Some root, buffer) =>
  let header := set_hdr_keys_info_merkle_root root header in
  (0, header, buffer)
  end end end end end end end.

(** ** Key-information parser *)

(** Modelled from the spec: [MAX_BIP32_PATH_STEPS] of the missing headers
    is 8 (spec, section 4.5). *)
Definition MAX_BIP32_PATH_STEPS : Z := 8.

(** Modelled from the spec: the structure [policy_map_key_info_t] of
    [wallet.h], with the fields that [wallet.c] assigns (spec, section 3,
    Key-info entry). *)
Record policy_map_key_info_t := mk_key_info {
  master_key_derivation : list Z;
  master_key_fingerprint : list Z;
  master_key_derivation_len : Z;
  has_key_origin : Z;
  has_wildcard : Z;
  ext_pubkey : list Z
}.

(** The state of the structure after [memset(out, 0, ..)]: no derivation
    step and no key character has been stored yet. *)
Definition key_info_zero : policy_map_key_info_t :=
  mk_key_info [] [0; 0; 0; 0] 0 0 0 [].

(** The four fingerprint bytes: each pair of characters is read, then
    checked. *)
Fixpoint read_fingerprint (b : cursor) (n : nat) : option (list Z) * cursor :=
  match n with
  | O => (Some [], b)
  | S n' =>
      match buffer_read_bytes b 2 with
      | (Some [n0; n1], b') =>
          if negb (is_lowercase_hex n0) || negb (is_lowercase_hex n1) then (None, b')
          else
            match read_fingerprint b' n' with
            | (Some fp, b'') =>
                (Some ((16 * lowercase_hex_to_int n0 + lowercase_hex_to_int n1) mod 256 :: fp), b'')
            | (None, b'') => (None, b'')
            end
      | (_, b') => (None, b')
      end
  end.

(** The derivation-step loop.  [steps] holds the steps stored so far, so
    that its length is [master_key_derivation_len]; the store to
    [master_key_derivation[master_key_derivation_len]] appends to it.  The
    source does not compare the index with the size of the array before the
    store; the only bound is the test at the head of the loop body, which
    lets a ninth step through.  The array has [MAX_BIP32_PATH_STEPS]
    entries, so the ninth store is past its end, on storage that [wallet.c]
    does not determine: the list describes the array for at most
    [MAX_BIP32_PATH_STEPS] steps, and with a ninth it only records what was
    read, not the structure that the source leaves.  Every iteration
    consumes a ['/'], so a fuel of one more than the number of unread bytes
    is never exhausted. *)
Fixpoint read_derivation_steps (fuel : nat) (b : cursor) (steps : list Z)
  : option (list Z) * cursor :=
  match fuel with
  | O => (None, b)
  | S fuel' =>
      match consume_character b (chr "/") with
      | (false, b') => (Some steps, b')
      | (true, b') =>
          if MAX_BIP32_PATH_STEPS <? Z.of_nat (List.length steps) then (None, b')
          else
            match buffer_read_derivation_step b' with
            | (None, b'') => (None, b'')
            | (Some step, b'') => read_derivation_steps fuel' b'' (steps ++ [step])
            end
      end
  end.

Section KeyInfo.

(** [MAX_SERIALIZED_PUBKEY_LENGTH] comes from a header that is not part of
    [wallet.c], and its value is not given by the spec. *)
Variable MAX_SERIALIZED_PUBKEY_LENGTH : nat.

(** The loop that copies the extended public key. *)
Fixpoint read_ext_pubkey (b : cursor) (room : nat) : list Z * cursor :=
  match room with
  | O => ([], b)
  | S room' =>
      match b with
      | c :: rest =>
          if is_alphanumeric c
          then let '(key, b') := read_ext_pubkey rest room' in (c :: key, b')
          else ([], b)
      | [] => ([], b)
      end
  end.

(** [None] stands for the return value [-1], [Some out] for [0]. *)
Definition parse_policy_map_key_info (buffer : cursor)
  : option policy_map_key_info_t * cursor :=
  let out := key_info_zero in
  let origin : option policy_map_key_info_t * cursor :=
    match consume_character buffer (chr "[") with
    | (false, buffer) => (Some out, buffer)
    | (true, buffer) =>
        if negb (buffer_can_read buffer 9) then (None, buffer) else
        match read_fingerprint buffer 4 with
        | (None, buffer) => (None, buffer)
        | (Some fp, buffer) =>
            match read_derivation_steps (S (List.length buffer)) buffer [] with
            | (None, buffer) => (None, buffer)
            | (Some steps, buffer) =>
                match consume_character buffer (chr "]") with
                | (false, buffer) => (None, buffer)
                | (true, buffer) =>
                    (Some (mk_key_info steps fp (Z.of_nat (List.length steps)) 1 0 []), buffer)
                end
            end
        end
    end in
  match origin with
  | (None, buffer) => (None, buffer)
  | (Some out, buffer) =>
      let '(key, buffer) := read_ext_pubkey buffer MAX_SERIALIZED_PUBKEY_LENGTH in
      let out := mk_key_info (master_key_derivation out) (master_key_fingerprint out)
                   (master_key_derivation_len out) (has_key_origin out) 0 key in
      let ext_pubkey_len := List.length key in
      if (ext_pubkey_len <? 111)%nat || (112 <? ext_pubkey_len)%nat then (None, buffer)
      else if negb (buffer_can_read buffer 1) then (Some out, buffer)
      else
        let out := mk_key_info (master_key_derivation out) (master_key_fingerprint out)
                     (master_key_derivation_len out) (has_key_origin out) 1 key in
        match buffer_read_bytes buffer 3 with
        | (Some [w0; w1; w2], buffer) =>
            if buffer_can_read buffer 1
               || negb (w0 =? chr "/") || negb (w1 =? chr "*") || negb (w2 =? chr "*")
            then (None, buffer) else (Some out, buffer)
        | (_, buffer) => (None, buffer)
        end
  end.

End KeyInfo.

(** ** Policy nodes *)

(** Modelled from the spec: the enumeration [PolicyNodeType] of [wallet.h],
    with the constants that [wallet.c] names. *)
Inductive PolicyNodeType : Type :=
| TOKEN_SH | TOKEN_WSH | TOKEN_PKH | TOKEN_WPKH | TOKEN_MULTI | TOKEN_SORTEDMULTI | TOKEN_TR
| TOKEN_0 | TOKEN_1 | TOKEN_PK | TOKEN_PK_K | TOKEN_PK_H | TOKEN_OLDER | TOKEN_AFTER
| TOKEN_SHA256 | TOKEN_HASH256 | TOKEN_RIPEMD160 | TOKEN_HASH160
| TOKEN_ANDOR | TOKEN_AND_V | TOKEN_AND_B | TOKEN_AND_N
| TOKEN_OR_B | TOKEN_OR_C | TOKEN_OR_D | TOKEN_OR_I | TOKEN_THRESH
| TOKEN_A | TOKEN_S | TOKEN_C | TOKEN_T | TOKEN_D | TOKEN_V | TOKEN_J | TOKEN_N | TOKEN_L | TOKEN_U
| TOKEN_INVALID.

Definition PolicyNodeType_eqb (a b : PolicyNodeType) : bool :=
  match a, b with
  | TOKEN_SH, TOKEN_SH | TOKEN_WSH, TOKEN_WSH | TOKEN_PKH, TOKEN_PKH | TOKEN_WPKH, TOKEN_WPKH
  | TOKEN_MULTI, TOKEN_MULTI | TOKEN_SORTEDMULTI, TOKEN_SORTEDMULTI | TOKEN_TR, TOKEN_TR
  | TOKEN_0, TOKEN_0 | TOKEN_1, TOKEN_1 | TOKEN_PK, TOKEN_PK | TOKEN_PK_K, TOKEN_PK_K
  | TOKEN_PK_H, TOKEN_PK_H | TOKEN_OLDER, TOKEN_OLDER | TOKEN_AFTER, TOKEN_AFTER
  | TOKEN_SHA256, TOKEN_SHA256 | TOKEN_HASH256, TOKEN_HASH256
  | TOKEN_RIPEMD160, TOKEN_RIPEMD160 | TOKEN_HASH160, TOKEN_HASH160
  | TOKEN_ANDOR, TOKEN_ANDOR | TOKEN_AND_V, TOKEN_AND_V | TOKEN_AND_B, TOKEN_AND_B
  | TOKEN_AND_N, TOKEN_AND_N | TOKEN_OR_B, TOKEN_OR_B | TOKEN_OR_C, TOKEN_OR_C
  | TOKEN_OR_D, TOKEN_OR_D | TOKEN_OR_I, TOKEN_OR_I | TOKEN_THRESH, TOKEN_THRESH
  | TOKEN_A, TOKEN_A | TOKEN_S, TOKEN_S | TOKEN_C, TOKEN_C | TOKEN_T, TOKEN_T
  | TOKEN_D, TOKEN_D | TOKEN_V, TOKEN_V | TOKEN_J, TOKEN_J | TOKEN_N, TOKEN_N
  | TOKEN_L, TOKEN_L | TOKEN_U, TOKEN_U | TOKEN_INVALID, TOKEN_INVALID => true
  | _, _ => false
  end.

Definition KNOWN_TOKENS : list (PolicyNodeType * string) :=
  [ (TOKEN_SH, "sh"); (TOKEN_WSH, "wsh"); (TOKEN_PKH, "pkh"); (TOKEN_WPKH, "wpkh");
    (TOKEN_MULTI, "multi"); (TOKEN_SORTEDMULTI, "sortedmulti"); (TOKEN_TR, "tr");
    (TOKEN_0, "0"); (TOKEN_1, "1"); (TOKEN_PK, "pk"); (TOKEN_PK_K, "pk_k");
    (TOKEN_PK_H, "pk_h"); (TOKEN_OLDER, "older"); (TOKEN_AFTER, "after");
    (TOKEN_SHA256, "sha256"); (TOKEN_HASH256, "hash256");
    (TOKEN_RIPEMD160, "ripemd160"); (TOKEN_HASH160, "hash160");
    (TOKEN_ANDOR, "andor"); (TOKEN_AND_V, "and_v"); (TOKEN_AND_B, "and_b");
    (TOKEN_AND_N, "and_n"); (TOKEN_OR_B, "or_b"); (TOKEN_OR_C, "or_c");
    (TOKEN_OR_D, "or_d"); (TOKEN_OR_I, "or_i"); (TOKEN_THRESH, "thresh") ]%string.

(** The table of the characters that are miniscript wrappers, indexed by
    [c - 'a']. *)
Definition is_valid_miniscript_wrapper : list bool :=
  [ true;  (* a *) false; (* b *) true;  (* c *) true;  (* d *) false; (* e *)
    false; (* f *) false; (* g *) false; (* h *) false; (* i *) true;  (* j *)
    false; (* k *) true;  (* l *) false; (* m *) true;  (* n *) false; (* o *)
    false; (* p *) false; (* q *) false; (* r *) true;  (* s *) true;  (* t *)
    true;  (* u *) true;  (* v *) false; (* w *) false; (* x *) false; (* y *)
    false  (* z *) ].

Definition MAX_TOKEN_LENGTH : nat := 11.

(** [strncmp(s1, s2, n) == 0] on two strings without an inner NUL byte. *)
Fixpoint bytes_eqb (a b : list Z) : bool :=
  match a, b with
  | [], [] => true
  | x :: a', y :: b' => (x =? y) && bytes_eqb a' b'
  | _, _ => false
  end.

Definition strncmp_eq (s1 s2 : list Z) (n : nat) : bool :=
  bytes_eqb (List.firstn n (s1 ++ [0])) (List.firstn n (s2 ++ [0])).

Fixpoint lookup_token (table : list (PolicyNodeType * string)) (word : list Z)
  : PolicyNodeType :=
  match table with
  | [] => TOKEN_INVALID
  | (type, name) :: table' =>
      if strncmp_eq (bytes_of_string name) word MAX_TOKEN_LENGTH then type
      else lookup_token table' word
  end.

Definition parse_token (b : cursor) : PolicyNodeType * cursor :=
  let '(word, b') := read_token b MAX_TOKEN_LENGTH in
  (lookup_token KNOWN_TOKENS word, b').

(** [parse_key_index] returns a [size_t]; its [-1] is [SIZE_MAX]. *)
Definition parse_key_index (b : cursor) : Z * cursor :=
  match buffer_read_u8 b with
  | (None, b') => (SIZE_MAX, b')
  | (Some c, b') =>
      if negb (c =? chr "@") then (SIZE_MAX, b')
      else
        match parse_unsigned_decimal b' with
        | (None, b'') => (SIZE_MAX, b'')
        | (Some k, b'') => (k, b'')
        end
  end.

Definition CONTEXT_WITHIN_SH : Z := 1.
Definition CONTEXT_WITHIN_WSH : Z := 2.

(** Modelled from the spec: the miniscript types of [wallet.h], two bits
    with [B = 0], [V = 1], [K = 2], [W = 3] (spec, section 3). *)
Inductive miniscript_type_t : Type :=
| MINISCRIPT_TYPE_B | MINISCRIPT_TYPE_V | MINISCRIPT_TYPE_K | MINISCRIPT_TYPE_W.

Definition miniscript_type_eqb (a b : miniscript_type_t) : bool :=
  match a, b with
  | MINISCRIPT_TYPE_B, MINISCRIPT_TYPE_B | MINISCRIPT_TYPE_V, MINISCRIPT_TYPE_V
  | MINISCRIPT_TYPE_K, MINISCRIPT_TYPE_K | MINISCRIPT_TYPE_W, MINISCRIPT_TYPE_W => true
  | _, _ => false
  end.

(** Modelled from the spec: the bit-field [flags] of a node header
    (spec, section 3). *)
Record flags_t := mk_flags {
  is_miniscript : bool;
  miniscript_type : miniscript_type_t;
  miniscript_mod_z : bool;
  miniscript_mod_o : bool;
  miniscript_mod_n : bool;
  miniscript_mod_d : bool;
  miniscript_mod_u : bool
}.

(** Modelled from the spec: the common header [policy_node_t] of a node,
    its kind and its flags (spec, section 3, Policy tree). *)
Record policy_node_t := mk_node { type : PolicyNodeType; flags : flags_t }.

(** Modelled from the spec: the node structures of [wallet.h] (spec,
    section 3, table of node kinds).  A pointer is an address, [NULL] is 0.
    The two or three [scripts] of a node are the list of its pointers. *)
Inductive cell : Type :=
| policy_node_constant_t (base : policy_node_t)
| policy_node_with_script_t (base : policy_node_t) (script : Z)
| policy_node_with_scripts_t (base : policy_node_t) (scripts : list Z)
| policy_node_thresh_t (base : policy_node_t) (k n scriptlist : Z)
| policy_node_scriptlist_t (script next : Z)
| policy_node_with_key_t (base : policy_node_t) (key_index : Z)
| policy_node_multisig_t (base : policy_node_t) (k n key_indexes : Z)
| policy_node_with_hash_t (base : policy_node_t) (h : list Z)
| policy_node_with_uint32_t (base : policy_node_t) (n : Z)
| size_t_cell (value : Z).

Definition NULL : Z := 0.

(** The sizes of the structures are those of the target's layout, which
    [wallet.c] does not fix. *)
Record layout_t := mk_layout {
  sizeof_policy_node_constant_t : Z;
  sizeof_policy_node_with_script_t : Z;
  sizeof_policy_node_with_script2_t : Z;
  sizeof_policy_node_with_script3_t : Z;
  sizeof_policy_node_thresh_t : Z;
  sizeof_policy_node_scriptlist_t : Z;
  sizeof_policy_node_with_key_t : Z;
  sizeof_policy_node_multisig_t : Z;
  sizeof_policy_node_with_hash_256_t : Z;
  sizeof_policy_node_with_hash_160_t : Z;
  sizeof_policy_node_with_uint32_t : Z;
  sizeof_size_t : Z
}.

(** ** The output arena *)

(** Modelled from the spec: [buffer_create], [buffer_get_cur] and
    [buffer_alloc] of [buffer.h] are not part of [wallet.c].  The spec (4.2)
    describes a bump allocator over a caller-supplied region that pads to
    the alignment on each aligned allocation, is append-only and reports
    exhaustion by a null result without moving. *)
Record buffer_t := mk_buffer { ptr : Z; size : Z; offset : Z }.

(** Modelled from the spec: [buffer_create], an arena over the region of
    [out_len] bytes at [out], with nothing allocated (spec 4.2). *)
Definition buffer_create (out : Z) (out_len : Z) : buffer_t := mk_buffer out out_len 0.

(** Modelled from the spec: [buffer_get_cur], the address of the current
    position (spec 4.2). *)
Definition buffer_get_cur (b : buffer_t) : Z := ptr b + offset b.

(** The padding that brings the current position to a multiple of 4. *)
Definition alloc_padding (b : buffer_t) (aligned : bool) : Z :=
  if aligned then (4 - (ptr b + offset b) mod 4) mod 4 else 0.

(** Modelled from the spec: [buffer_alloc], the allocation of [sz] bytes
    after the padding; a null result when the region is exhausted, which
    leaves the arena as it is (spec 4.2, [allocate]). *)
Definition buffer_alloc (b : buffer_t) (sz : Z) (aligned : bool) : option Z * buffer_t :=
  let padding_size := alloc_padding b aligned in
  if offset b + padding_size + sz <=? size b
  then (Some (ptr b + offset b + padding_size),
        mk_buffer (ptr b) (size b) (offset b + padding_size + sz))
  else (None, b).

(** ** The state of a parse and its monad *)

Record pstate := mk_pstate {
  in_buf : cursor;
  out_buf : buffer_t;
  mem : gmap Z cell
}.

(** The outcome of a call: [Ok] is the return value 0 (with the value the
    function produces), [Error] the return value [-1] with the message
    given to [WITH_ERROR] (the empty string for a plain [return -1]).
    [OutOfFuel] is the exhaustion of the recursion bound of the model and
    [Undefined] a read through a pointer to storage that holds no node. *)
Inductive result (A : Type) : Type :=
| Ok (a : A)
| Error (msg : string)
| OutOfFuel
| Undefined.
Arguments Ok {A} a.
Arguments Error {A} msg.
Arguments OutOfFuel {A}.
Arguments Undefined {A}.

Definition M (A : Type) : Type := pstate -> result A * pstate.

Definition ret {A} (a : A) : M A := fun st => (Ok a, st).

Definition bind {A B} (m : M A) (f : A -> M B) : M B :=
  fun st =>
    match m st with
    | (Ok a, st') => f a st'
    | (Error msg, st') => (Error msg, st')
    | (OutOfFuel, st') => (OutOfFuel, st')
    | (Undefined, st') => (Undefined, st')
    end.

(** Modelled from the spec: the macro [WITH_ERROR] of the missing headers,
    which is always used as [return WITH_ERROR(-1, msg)]: the failure of the
    call with the value [-1], its message kept for the reader (spec,
    section 7, errors are surfaced immediately). *)
Definition WITH_ERROR {A} (msg : string) : M A := fun st => (Error msg, st).
Definition out_of_fuel {A} : M A := fun st => (OutOfFuel, st).
Definition undefined {A} : M A := fun st => (Undefined, st).

Declare Scope parse_scope.
Delimit Scope parse_scope with parse.
Notation "x <- m ;; k" := (bind m (fun x => k))
  (at level 100, m at next level, right associativity) : parse_scope.
Notation "m ;; k" := (bind m (fun _ => k))
  (at level 100, right associativity) : parse_scope.
Local Open Scope parse_scope.

(** A lexical function on the input cursor, run on [in_buf]. *)
Definition on_input {A} (f : cursor -> A * cursor) : M A :=
  fun st => let '(a, b) := f (in_buf st) in (Ok a, mk_pstate b (out_buf st) (mem st)).

Definition input_length : M nat := fun st => (Ok (List.length (in_buf st)), st).

Definition get_cur : M Z := fun st => (Ok (buffer_get_cur (out_buf st)), st).

Definition alloc (sz : Z) (aligned : bool) : M (option Z) :=
  fun st => let '(p, b) := buffer_alloc (out_buf st) sz aligned in
            (Ok p, mk_pstate (in_buf st) b (mem st)).

Definition load (p : Z) : M cell :=
  fun st => match mem st !! p with
            | Some c => (Ok c, st)
            | None => (Undefined, st)
            end.

Definition store (p : Z) (c : cell) : M unit :=
  fun st => (Ok tt, mk_pstate (in_buf st) (out_buf st) (<[p := c]> (mem st))).

(** An allocation of the source followed by its cast to a structure
    pointer.  The storage is not initialised by the source: a field holds
    whatever the arena held until it is assigned.  [blank] gives the fields
    of the fresh cell placeholders, which stand for these unknown values;
    nothing may be stated of a field that the source has not assigned.  The
    nodes of [sh], [wsh], [tr], [wpkh] and [sortedmulti] are only given
    [is_miniscript = 0], so their other flags stay unknown after an
    accepted parse.  [None] is the null result, which every caller turns
    into "Out of memory". *)
Definition alloc_node (blank : cell) (sz : Z) : M Z :=
  r <- alloc sz true ;;
  match r with
  | None => WITH_ERROR "Out of memory"
  | Some p => store p blank ;; ret p
  end.

(** *** Field access *)

Definition blank_flags : flags_t :=
  mk_flags false MINISCRIPT_TYPE_B false false false false false.
Definition blank_node : policy_node_t := mk_node TOKEN_INVALID blank_flags.

Definition cell_base (c : cell) : option policy_node_t :=
  match c with
  | policy_node_constant_t b | policy_node_with_script_t b _
  | policy_node_with_scripts_t b _ | policy_node_thresh_t b _ _ _
  | policy_node_with_key_t b _ | policy_node_multisig_t b _ _ _
  | policy_node_with_hash_t b _ | policy_node_with_uint32_t b _ => Some b
  | policy_node_scriptlist_t _ _ | size_t_cell _ => None
  end.

Definition map_base (f : policy_node_t -> policy_node_t) (c : cell) : cell :=
  match c with
  | policy_node_constant_t b => policy_node_constant_t (f b)
  | policy_node_with_script_t b s => policy_node_with_script_t (f b) s
  | policy_node_with_scripts_t b s => policy_node_with_scripts_t (f b) s
  | policy_node_thresh_t b k n s => policy_node_thresh_t (f b) k n s
  | policy_node_with_key_t b i => policy_node_with_key_t (f b) i
  | policy_node_multisig_t b k n s => policy_node_multisig_t (f b) k n s
  | policy_node_with_hash_t b h => policy_node_with_hash_t (f b) h
  | policy_node_with_uint32_t b n => policy_node_with_uint32_t (f b) n
  | policy_node_scriptlist_t _ _ | size_t_cell _ => c
  end.

Definition modify (p : Z) (f : cell -> cell) : M unit :=
  c <- load p ;; store p (f c).

Definition set_type (p : Z) (t : PolicyNodeType) : M unit :=
  modify p (map_base (fun b => mk_node t (flags b))).

Definition set_flags (p : Z) (fl : flags_t) : M unit :=
  modify p (map_base (fun b => mk_node (type b) fl)).

(** The assignment [flags.is_miniscript = 0] leaves the other bits as they
    are. *)
Definition set_not_miniscript (p : Z) : M unit :=
  modify p (map_base (fun b =>
    let f := flags b in
    mk_node (type b)
      (mk_flags false (miniscript_type f) (miniscript_mod_z f) (miniscript_mod_o f)
         (miniscript_mod_n f) (miniscript_mod_d f) (miniscript_mod_u f)))).

Definition get_base (p : Z) : M policy_node_t :=
  c <- load p ;;
  match cell_base c with
  | Some b => ret b
  | None => undefined
  end.

Definition get_flags (p : Z) : M flags_t := b <- get_base p ;; ret (flags b).
Definition get_type (p : Z) : M PolicyNodeType := b <- get_base p ;; ret (type b).

Definition set_script (p q : Z) : M unit :=
  modify p (fun c =>
    match c with
    | policy_node_with_script_t b _ => policy_node_with_script_t b q
    | policy_node_scriptlist_t _ nx => policy_node_scriptlist_t q nx
    | _ => c
    end).

Definition get_script (p : Z) : M Z :=
  c <- load p ;;
  match c with
  | policy_node_with_script_t _ q => ret q
  | policy_node_scriptlist_t q _ => ret q
  | _ => undefined
  end.

Definition set_scripts (p : Z) (i : nat) (q : Z) : M unit :=
  modify p (fun c =>
    match c with
    | policy_node_with_scripts_t b qs => policy_node_with_scripts_t b (<[i := q]> qs)
    | _ => c
    end).

Definition get_scripts (p : Z) (i : nat) : M Z :=
  c <- load p ;;
  match c with
  | policy_node_with_scripts_t _ qs =>
      match qs !! i with
      | Some q => ret q
      | None => undefined
      end
  | _ => undefined
  end.

Definition set_k (p : Z) (v : Z) : M unit :=
  modify p (fun c =>
    match c with
    | policy_node_thresh_t b _ n s => policy_node_thresh_t b v n s
    | policy_node_multisig_t b _ n s => policy_node_multisig_t b v n s
    | _ => c
    end).

Definition get_k (p : Z) : M Z :=
  c <- load p ;;
  match c with
  | policy_node_thresh_t _ k _ _ => ret k
  | policy_node_multisig_t _ k _ _ => ret k
  | _ => undefined
  end.

Definition set_n (p : Z) (v : Z) : M unit :=
  modify p (fun c =>
    match c with
    | policy_node_thresh_t b k _ s => policy_node_thresh_t b k v s
    | policy_node_multisig_t b k _ s => policy_node_multisig_t b k v s
    | policy_node_with_uint32_t b _ => policy_node_with_uint32_t b v
    | _ => c
    end).

Definition get_n (p : Z) : M Z :=
  c <- load p ;;
  match c with
  | policy_node_thresh_t _ _ n _ => ret n
  | policy_node_multisig_t _ _ n _ => ret n
  | policy_node_with_uint32_t _ n => ret n
  | _ => undefined
  end.

Definition set_scriptlist (p q : Z) : M unit :=
  modify p (fun c =>
    match c with
    | policy_node_thresh_t b k n _ => policy_node_thresh_t b k n q
    | _ => c
    end).

Definition set_next (p q : Z) : M unit :=
  modify p (fun c =>
    match c with
    | policy_node_scriptlist_t s _ => policy_node_scriptlist_t s q
    | _ => c
    end).

Definition set_key_index (p : Z) (v : Z) : M unit :=
  modify p (fun c =>
    match c with
    | policy_node_with_key_t b _ => policy_node_with_key_t b v
    | _ => c
    end).

Definition set_key_indexes (p q : Z) : M unit :=
  modify p (fun c =>
    match c with
    | policy_node_multisig_t b k n _ => policy_node_multisig_t b k n q
    | _ => c
    end).

Definition set_h (p : Z) (h : list Z) : M unit :=
  modify p (fun c =>
    match c with
    | policy_node_with_hash_t b _ => policy_node_with_hash_t b h
    | _ => c
    end).

(** ** The miniscript type calculus *)

(** Each rule gives the flags of a node from the flags of its children, or
    the message of the error the source returns. *)

Definition is_B (X : flags_t) : bool := miniscript_type_eqb (miniscript_type X) MINISCRIPT_TYPE_B.
Definition is_V (X : flags_t) : bool := miniscript_type_eqb (miniscript_type X) MINISCRIPT_TYPE_V.
Definition is_K (X : flags_t) : bool := miniscript_type_eqb (miniscript_type X) MINISCRIPT_TYPE_K.
Definition is_W (X : flags_t) : bool := miniscript_type_eqb (miniscript_type X) MINISCRIPT_TYPE_W.

Abbreviation z_ X := (miniscript_mod_z X).
Abbreviation o_ X := (miniscript_mod_o X).
Abbreviation n_ X := (miniscript_mod_n X).
Abbreviation d_ X := (miniscript_mod_d X).
Abbreviation u_ X := (miniscript_mod_u X).

Definition flags_0 : flags_t := mk_flags true MINISCRIPT_TYPE_B true false false true true.
Definition flags_1 : flags_t := mk_flags true MINISCRIPT_TYPE_B true false false false true.
Definition flags_hash : flags_t := mk_flags true MINISCRIPT_TYPE_B true true false true true.
Definition flags_pk : flags_t := mk_flags true MINISCRIPT_TYPE_B false true true true true.
Definition flags_pkh : flags_t := mk_flags true MINISCRIPT_TYPE_B false false true true true.
Definition flags_pk_k : flags_t := mk_flags true MINISCRIPT_TYPE_K false true true true true.
Definition flags_pk_h : flags_t := mk_flags true MINISCRIPT_TYPE_K false false true true true.
Definition flags_older : flags_t := mk_flags true MINISCRIPT_TYPE_B true false false false false.
Definition flags_multi : flags_t := mk_flags true MINISCRIPT_TYPE_B false false true true true.

Definition andor_flags (X Y Z : flags_t) : string + flags_t :=
  if negb (is_B X) || negb (d_ X) || negb (u_ X) then inl "invalid type"%string
  else if negb (miniscript_type_eqb (miniscript_type Y) (miniscript_type Z))
  then inl "invalid type"%string
  else if is_W Y then inl "invalid type"%string
  else inr (mk_flags true (miniscript_type Y)
              (z_ X && z_ Y && z_ Z)
              ((z_ X && o_ Y && o_ Z) || (o_ X && z_ Y && z_ Z))
              false
              (d_ Z)
              (u_ Y && u_ Z)).

Definition and_v_flags (X Y : flags_t) : string + flags_t :=
  if negb (is_V X) then inl "invalid type"%string
  else if is_W Y then inl "invalid type"%string
  else inr (mk_flags true (miniscript_type Y)
              (z_ X && z_ Y)
              ((z_ X && o_ Y) || (o_ X && z_ Y))
              (n_ X || (z_ X && n_ Y))
              false
              (u_ Y)).

Definition and_b_flags (X Y : flags_t) : string + flags_t :=
  if negb (is_B X) || negb (is_W Y) then inl "invalid type"%string
  else inr (mk_flags true MINISCRIPT_TYPE_B
              (z_ X && z_ Y)
              ((z_ X && o_ Y) || (o_ X && z_ Y))
              (n_ X || (z_ X && n_ Y))
              (d_ X && d_ Y)
              (u_ Y)).

Definition and_n_flags (X Y : flags_t) : string + flags_t :=
  if negb (is_B X) || negb (d_ X) || negb (u_ X) then inl "invalid type"%string
  else if negb (is_B Y) then inl "invalid type"%string
  else inr (mk_flags true MINISCRIPT_TYPE_B
              (z_ X && z_ Y)
              (o_ X && z_ Y)
              false
              true
              (u_ Y)).

Definition or_b_flags (X Z : flags_t) : string + flags_t :=
  if negb (is_B X) || negb (d_ X) then inl "invalid type"%string
  else if negb (is_W Z) || negb (d_ Z) then inl "invalid type"%string
  else inr (mk_flags true MINISCRIPT_TYPE_B
              (z_ X && z_ Z)
              ((z_ X && o_ Z) || (o_ X && z_ Z))
              false
              true
              true).

Definition or_c_flags (X Z : flags_t) : string + flags_t :=
  if negb (is_B X) || negb (d_ X) || negb (u_ X) then inl "invalid type"%string
  else if negb (is_V Z) then inl "invalid type"%string
  else inr (mk_flags true MINISCRIPT_TYPE_V
              (z_ X && z_ Z)
              (o_ X && o_ Z)
              false
              false
              false).

Definition or_d_flags (X Z : flags_t) : string + flags_t :=
  if negb (is_B X) || negb (d_ X) || negb (u_ X) then inl "invalid type"%string
  else if negb (is_B Z) then inl "invalid type"%string
  else inr (mk_flags true MINISCRIPT_TYPE_B
              (z_ X && z_ Z)
              (o_ X && o_ Z)
              false
              (d_ Z)
              (u_ Z)).

Definition or_i_flags (X Z : flags_t) : string + flags_t :=
  if is_W X then inl "invalid type"%string
  else if negb (miniscript_type_eqb (miniscript_type X) (miniscript_type Z))
  then inl "invalid type"%string
  else inr (mk_flags true (miniscript_type X)
              false
              (z_ X && z_ Z)
              false
              (d_ X || d_ Z)
              (u_ X && u_ Z)).

(** The flags of [thresh] from the counters of the loop. *)
Definition thresh_flags (count_z count_o n : Z) : flags_t :=
  mk_flags true MINISCRIPT_TYPE_B
    (count_z =? n)
    ((count_z =? size_t_of (n - 1)) && (count_o =? 1))
    false false false.

(** The rule of a wrapper node of kind [t] over the flags of its child. *)
Definition wrapper_flags (t : PolicyNodeType) (X : flags_t) : string + flags_t :=
  match t with
  | TOKEN_A =>
      if negb (is_B X) then inl "'a' wrapper requires a B type child"%string
      else inr (mk_flags true MINISCRIPT_TYPE_W false false false (d_ X) (u_ X))
  | TOKEN_S =>
      if negb (is_B X) || negb (o_ X) then inl "'s' wrapper requires a Bu type child"%string
      else inr (mk_flags true MINISCRIPT_TYPE_W false false false (d_ X) (u_ X))
  | TOKEN_C =>
      if negb (is_K X) then inl "'c' wrapper requires a K type child"%string
      else inr (mk_flags true MINISCRIPT_TYPE_B false (o_ X) (n_ X) (d_ X) true)
  | TOKEN_T =>
      if negb (is_V X) then inl "'t' wrapper requires a V type child"%string
      else inr (mk_flags true MINISCRIPT_TYPE_B (z_ X) (o_ X) (n_ X) false true)
  | TOKEN_D =>
      if negb (is_V X) || negb (z_ X) then inl "'d' wrapper requires a Vz type child"%string
      else inr (mk_flags true MINISCRIPT_TYPE_B false true true true false)
  | TOKEN_V =>
      if negb (is_B X) then inl "'v' wrapper requires a B type child"%string
      else inr (mk_flags true MINISCRIPT_TYPE_V (z_ X) (o_ X) (n_ X) false false)
  | TOKEN_J =>
      if negb (is_B X) || negb (n_ X) then inl "'j' wrapper requires a Bn type child"%string
      else inr (mk_flags true MINISCRIPT_TYPE_B false (o_ X) true true (u_ X))
  | TOKEN_N =>
      if negb (is_B X) then inl "'n' wrapper requires a B type child"%string
      else inr (mk_flags true MINISCRIPT_TYPE_B (z_ X) (o_ X) (n_ X) (d_ X) true)
  | TOKEN_L =>
      if negb (is_B X) then inl "'l' wrapper requires a B type child"%string
      else inr (mk_flags true MINISCRIPT_TYPE_B false (z_ X) false true (u_ X))
  | TOKEN_U =>
      if negb (is_B X) then inl "'u' wrapper requires a B type child"%string
      else inr (mk_flags true MINISCRIPT_TYPE_B false (z_ X) false true (u_ X))
  | _ => inl "unreachable code reached"%string
  end.

(** The [switch] of the wrapper prefix: the node kind of a wrapper letter. *)
Definition wrapper_token (c : Z) : option PolicyNodeType :=
  if c =? chr "a" then Some TOKEN_A
  else if c =? chr "s" then Some TOKEN_S
  else if c =? chr "c" then Some TOKEN_C
  else if c =? chr "t" then Some TOKEN_T
  else if c =? chr "d" then Some TOKEN_D
  else if c =? chr "v" then Some TOKEN_V
  else if c =? chr "j" then Some TOKEN_J
  else if c =? chr "n" then Some TOKEN_N
  else if c =? chr "l" then Some TOKEN_L
  else if c =? chr "u" then Some TOKEN_U
  else None.

(** The test of the look-ahead loop on one character. *)
Definition is_wrapper_char (c : Z) : bool :=
  (chr "a" <=? c) && (c <=? chr "z")
  && List.nth (Z.to_nat (c - chr "a")) is_valid_miniscript_wrapper false.

(** The look-ahead loop: the number of leading wrapper characters. *)
Fixpoint count_wrappers (b : cursor) : nat :=
  match b with
  | c :: rest => if is_wrapper_char c then S (count_wrappers rest) else O
  | [] => O
  end.

(** The test after the look-ahead loop: the character that stopped the
    loop can be read and is a colon. *)
Definition has_wrapper_prefix (b : cursor) : bool :=
  match buffer_peek_n b (count_wrappers b) with
  | Some c => c =? chr ":"
  | None => false
  end.

(** The context test of [sortedmulti]. *)
Definition sortedmulti_context_error (context_flags : Z) : bool :=
  negb (Z.land context_flags CONTEXT_WITHIN_SH =? 0)
  && negb (Z.land context_flags CONTEXT_WITHIN_WSH =? 0).

(** Modelled from the spec: [MAX_POLICY_MAP_COSIGNERS] of [wallet.h] is the
    cosigner limit 16 (spec, section 3). *)
Definition MAX_POLICY_MAP_COSIGNERS : Z := 16.

(** ** The script parser *)

Definition expect (c : Z) (msg : string) : M unit :=
  ok <- on_input (fun b => consume_character b c) ;;
  if ok : bool then ret tt else WITH_ERROR msg.

(** [buffer_alloc(out_buf, 0, true)] followed by [buffer_get_cur(out_buf)]:
    the place of the next node.  The result of the allocation is not
    looked at by the source. *)
Definition aligned_cur : M Z :=
  alloc 0 true ;; get_cur.

(** The flags of the node at [p], which must be miniscript. *)
Definition miniscript_flags (p : Z) (msg : string) : M flags_t :=
  f <- get_flags p ;;
  if is_miniscript f then ret f else WITH_ERROR msg.

(** [int key_index = parse_key_index(in_buf)] and the test against [-1];
    the result is the value stored by [(size_t) key_index]. *)
Definition read_key_index (msg : string) : M Z :=
  k <- on_input parse_key_index ;;
  let key_index := int_of_size_t k in
  if key_index =? -1 then WITH_ERROR msg else ret (size_t_of key_index).

Definition apply_rule (node : Z) (rule : string + flags_t) : M unit :=
  match rule with
  | inl msg => WITH_ERROR msg
  | inr fl => set_flags node fl
  end.

Section Parser.

Variable L : layout_t.

(** The recursive call of [parse_script], with its [depth] (a [size_t])
    and [context_flags]. *)
Variable parse_script_rec : Z -> Z -> M unit.

Fixpoint parse_child_scripts_from
    (depth : Z) (node : Z) (n_children : Z) (todo : nat) (child_index : Z) : M unit :=
  match todo with
  | O => ret tt
  | S todo' =>
      child <- aligned_cur ;;
      set_scripts node (Z.to_nat child_index) child ;;
      parse_script_rec (size_t_of (depth + 1)) 0 ;;
      (if child_index <=? n_children - 2 then expect (chr ",") "Expected ','" else ret tt) ;;
      parse_child_scripts_from depth node n_children todo' (child_index + 1)
  end.

(** [child_scripts] is the array [node->scripts] of the caller. *)
Definition parse_child_scripts (depth : Z) (node : Z) (n_children : Z) : M unit :=
  parse_child_scripts_from depth node n_children (Z.to_nat n_children) 0.

(** The wrapper prefix: [n] wrappers are still to be read, [inner_wrapper]
    is the last one allocated. *)
Fixpoint parse_wrappers (n : nat) (inner_wrapper : option Z) : M (option Z) :=
  match n with
  | O => ret inner_wrapper
  | S n' =>
      node <- alloc_node (policy_node_with_script_t blank_node NULL)
                (sizeof_policy_node_with_script_t L) ;;
      c <- on_input buffer_read_u8 ;;
      match c with
      | None => undefined
      | Some c =>
          match wrapper_token c with
          | None => WITH_ERROR ""
          | Some t =>
              set_type node t ;;
              match inner_wrapper with
              | Some w => set_script w node
              | None => ret tt
              end ;;
              parse_wrappers n' (Some node)
          end
      end
  end.

(** [node = outermost_node; for (j = 0; j < i; j++) node = node->script]. *)
Fixpoint walk_wrappers (node : Z) (i : nat) : M Z :=
  match i with
  | O => ret node
  | S i' => next <- get_script node ;; walk_wrappers next i'
  end.

(** The loop over the wrappers, from the innermost ([i = n - 1]) to the
    outermost ([i = 0]). *)
Fixpoint wrapper_flags_loop (n : nat) (outermost_node : Z) : M unit :=
  match n with
  | O => ret tt
  | S i =>
      node <- walk_wrappers outermost_node i ;;
      X <- get_script node ;;
      fX <- miniscript_flags X "wrappers can only be applied to miniscript" ;;
      t <- get_type node ;;
      apply_rule node (wrapper_flags t fX) ;;
      wrapper_flags_loop i outermost_node
  end.

(** A node with two children and the rule of its flags. *)
Definition parse_with_script2
    (token : PolicyNodeType) (depth : Z)
    (rule : flags_t -> flags_t -> string + flags_t) : M Z :=
  node <- alloc_node (policy_node_with_scripts_t blank_node [NULL; NULL])
            (sizeof_policy_node_with_script2_t L) ;;
  set_type node token ;;
  parse_child_scripts depth node 2 ;;
  s0 <- get_scripts node 0 ;;
  X <- miniscript_flags s0 "children of or_d must be miniscript" ;;
  s1 <- get_scripts node 1 ;;
  Y <- miniscript_flags s1 "children of or_d must be miniscript" ;;
  apply_rule node (rule X Y) ;;
  ret node.

Definition parse_andor (token : PolicyNodeType) (depth : Z) : M Z :=
  node <- alloc_node (policy_node_with_scripts_t blank_node [NULL; NULL; NULL])
            (sizeof_policy_node_with_script3_t L) ;;
  set_type node token ;;
  parse_child_scripts depth node 3 ;;
  s0 <- get_scripts node 0 ;;
  X <- miniscript_flags s0 "children of andor must be miniscript" ;;
  s1 <- get_scripts node 1 ;;
  Y <- miniscript_flags s1 "children of andor must be miniscript" ;;
  s2 <- get_scripts node 2 ;;
  Z <- miniscript_flags s2 "children of andor must be miniscript" ;;
  apply_rule node (andor_flags X Y Z) ;;
  ret node.

Definition parse_constant (token : PolicyNodeType) : M Z :=
  node <- alloc_node (policy_node_constant_t blank_node)
            (sizeof_policy_node_constant_t L) ;;
  set_type node token ;;
  set_flags node (if PolicyNodeType_eqb token TOKEN_0 then flags_0 else flags_1) ;;
  ret node.

Definition parse_sh_wsh (token : PolicyNodeType) (depth context_flags : Z) : M Z :=
  (if PolicyNodeType_eqb token TOKEN_SH then
     if negb (depth =? 0) then WITH_ERROR "sh can only be a top-level function"
     else ret tt
   else if PolicyNodeType_eqb token TOKEN_WSH then
     if negb (depth =? 0) && (Z.land context_flags CONTEXT_WITHIN_SH =? 0)
     then WITH_ERROR "wsh can only be top-level or inside sh"
     else ret tt
   else ret tt) ;;
  node <- alloc_node (policy_node_with_script_t blank_node NULL)
            (sizeof_policy_node_with_script_t L) ;;
  set_type node token ;;
  set_not_miniscript node ;;
  let inner_context_flags :=
    if PolicyNodeType_eqb token TOKEN_SH then CONTEXT_WITHIN_SH else CONTEXT_WITHIN_WSH in
  child <- aligned_cur ;;
  set_script node child ;;
  parse_script_rec (size_t_of (depth + 1)) inner_context_flags ;;
  ret node.

Definition parse_hash (token : PolicyNodeType) (n : nat) (sz : Z) (msg : string) : M Z :=
  node <- alloc_node (policy_node_with_hash_t blank_node []) sz ;;
  h <- on_input (fun b => buffer_read_hex_hash b n) ;;
  match h with
  | None => WITH_ERROR msg
  | Some h =>
      set_h node h ;;
      set_type node token ;;
      set_flags node flags_hash ;;
      ret node
  end.

(** The loop of [thresh]: [cur] is the current element of the list of
    children.  An iteration that succeeds consumes input, so a fuel of one
    more than the number of unread bytes is never exhausted. *)
Fixpoint thresh_loop
    (fuel : nat) (depth : Z) (node : Z) (cur : Z) (count_z count_o : Z) : M (Z * Z) :=
  match fuel with
  | O => out_of_fuel
  | S fuel' =>
      n <- get_n node ;;
      set_n node (size_t_of (n + 1)) ;;
      child <- aligned_cur ;;
      set_script cur child ;;
      parse_script_rec (size_t_of (depth + 1)) 0 ;;
      script <- get_script cur ;;
      X <- miniscript_flags script "children of thresh must be miniscript" ;;
      n <- get_n node ;;
      (if n =? 1 then
         if negb (is_B X)
         then WITH_ERROR "the first children of thresh must be of type B"
         else ret tt
       else
         if negb (is_W X)
         then WITH_ERROR "each child of thresh (except the first) must be of type W"
         else ret tt) ;;
      (if negb (d_ X) || negb (u_ X)
       then WITH_ERROR "each child of thresh must have properties d and u"
       else ret tt) ;;
      let count_z := if z_ X then size_t_of (count_z + 1) else count_z in
      let count_o := if o_ X then size_t_of (count_o + 1) else count_o in
      more <- on_input (fun b => consume_character b (chr ",")) ;;
      if more : bool then
        next <- alloc_node (policy_node_scriptlist_t NULL NULL)
                  (sizeof_policy_node_scriptlist_t L) ;;
        set_next cur next ;;
        set_next next NULL ;;
        thresh_loop fuel' depth node next count_z count_o
      else ret (count_z, count_o)
  end.

Definition parse_thresh (token : PolicyNodeType) (depth : Z) : M Z :=
  node <- alloc_node (policy_node_thresh_t blank_node 0 0 NULL)
            (sizeof_policy_node_thresh_t L) ;;
  set_type node token ;;
  k <- on_input parse_unsigned_decimal ;;
  match k with
  | None => WITH_ERROR "Error parsing threshold"
  | Some k =>
      set_k node k ;;
      expect (chr ",") "Expected a comma" ;;
      k <- get_k node ;;
      (if k <? 1 then WITH_ERROR "Threshold must be at least 1" else ret tt) ;;
      set_n node 0 ;;
      scriptlist <- alloc_node (policy_node_scriptlist_t NULL NULL)
                      (sizeof_policy_node_scriptlist_t L) ;;
      set_scriptlist node scriptlist ;;
      set_next scriptlist NULL ;;
      len <- input_length ;;
      counts <- thresh_loop (S len) depth node scriptlist 0 0 ;;
      n <- get_n node ;;
      set_flags node (thresh_flags (fst counts) (snd counts) n) ;;
      ret node
  end.

Definition parse_key (token : PolicyNodeType) (depth context_flags : Z) : M Z :=
  node <- alloc_node (policy_node_with_key_t blank_node 0)
            (sizeof_policy_node_with_key_t L) ;;
  (if PolicyNodeType_eqb token TOKEN_WPKH
      && (0 <? depth) && (Z.land context_flags CONTEXT_WITHIN_SH =? 0)
   then WITH_ERROR "wpkh can only be top-level or inside sh"
   else ret tt) ;;
  set_type node token ;;
  key_index <- read_key_index "Couldn't parse key index" ;;
  set_key_index node key_index ;;
  match token with
  | TOKEN_WPKH => set_not_miniscript node ;; ret node
  | TOKEN_PK => set_flags node flags_pk ;; ret node
  | TOKEN_PKH => set_flags node flags_pkh ;; ret node
  | TOKEN_PK_K => set_flags node flags_pk_k ;; ret node
  | TOKEN_PK_H => set_flags node flags_pk_h ;; ret node
  | _ => WITH_ERROR "unreachable code reached"
  end.

Definition parse_tr (token : PolicyNodeType) (depth : Z) : M Z :=
  node <- alloc_node (policy_node_with_key_t blank_node 0)
            (sizeof_policy_node_with_key_t L) ;;
  (if 1 <? depth then WITH_ERROR "tr can only be top-level" else ret tt) ;;
  set_type node token ;;
  key_index <- read_key_index "Couldn't parse key index" ;;
  set_key_index node key_index ;;
  set_not_miniscript node ;;
  ret node.

Definition parse_older_after (token : PolicyNodeType) : M Z :=
  node <- alloc_node (policy_node_with_uint32_t blank_node 0)
            (sizeof_policy_node_with_uint32_t L) ;;
  set_type node token ;;
  n <- on_input parse_unsigned_decimal ;;
  match n with
  | None => WITH_ERROR "Error parsing number"
  | Some n =>
      set_n node n ;;
      n <- get_n node ;;
      if (n <? 1) || (2 ^ 31 <=? n)
      then WITH_ERROR "n must satisfy 1 <= n < 2^31 in older/after"
      else set_flags node flags_older ;; ret node
  end.

(** The loop over the key indexes of [multi] and [sortedmulti].  Every
    iteration consumes a [','], so a fuel of one more than the number of
    unread bytes is never exhausted. *)
Fixpoint multisig_loop (fuel : nat) (node : Z) : M unit :=
  match fuel with
  | O => out_of_fuel
  | S fuel' =>
      c <- on_input (fun b => (buffer_peek b, b)) ;;
      if match c with Some c => c =? chr ")" | None => false end then ret tt
      else
        expect (chr ",") "Expected ','" ;;
        key_index <- read_key_index "Error parsing key index" ;;
        key_index_out <- alloc_node (size_t_cell key_index) (sizeof_size_t L) ;;
        n <- get_n node ;;
        set_n node (size_t_of (n + 1)) ;;
        multisig_loop fuel' node
  end.

Definition parse_multisig (token : PolicyNodeType) (context_flags : Z) : M Z :=
  node <- alloc_node (policy_node_multisig_t blank_node 0 0 NULL)
            (sizeof_policy_node_multisig_t L) ;;
  (if PolicyNodeType_eqb token TOKEN_SORTEDMULTI && sortedmulti_context_error context_flags
   then WITH_ERROR "sortedmulti can only be directly under sh or wsh"
   else ret tt) ;;
  set_type node token ;;
  k <- on_input parse_unsigned_decimal ;;
  match k with
  | None => WITH_ERROR "Error parsing threshold"
  | Some k =>
      set_k node k ;;
      key_indexes <- aligned_cur ;;
      set_key_indexes node key_indexes ;;
      set_n node 0 ;;
      len <- input_length ;;
      multisig_loop (S len) node ;;
      k <- get_k node ;;
      n <- get_n node ;;
      if negb ((1 <=? k) && (k <=? n) && (n <=? MAX_POLICY_MAP_COSIGNERS))
      then WITH_ERROR "Invalid k and/or n"
      else
        (if PolicyNodeType_eqb token TOKEN_SORTEDMULTI
         then set_not_miniscript node
         else set_flags node flags_multi) ;;
        ret node
  end.

(** The [switch] on the token: the address of the node parsed. *)
Definition parse_node (token : PolicyNodeType) (depth context_flags : Z) : M Z :=
  match token with
  | TOKEN_0 | TOKEN_1 => parse_constant token
  | TOKEN_SH | TOKEN_WSH => parse_sh_wsh token depth context_flags
  | TOKEN_SHA256 | TOKEN_HASH256 =>
      parse_hash token 32 (sizeof_policy_node_with_hash_256_t L)
        "Failed to parse 32-byte hash image"
  | TOKEN_RIPEMD160 | TOKEN_HASH160 =>
      parse_hash token 20 (sizeof_policy_node_with_hash_160_t L)
        "Failed to parse 20-byte hash image"
  | TOKEN_ANDOR => parse_andor token depth
  | TOKEN_AND_V => parse_with_script2 token depth and_v_flags
  | TOKEN_AND_B => parse_with_script2 token depth and_b_flags
  | TOKEN_AND_N => parse_with_script2 token depth and_n_flags
  | TOKEN_OR_B => parse_with_script2 token depth or_b_flags
  | TOKEN_OR_C => parse_with_script2 token depth or_c_flags
  | TOKEN_OR_D => parse_with_script2 token depth or_d_flags
  | TOKEN_OR_I => parse_with_script2 token depth or_i_flags
  | TOKEN_THRESH => parse_thresh token depth
  | TOKEN_PK | TOKEN_PKH | TOKEN_PK_K | TOKEN_PK_H | TOKEN_WPKH =>
      parse_key token depth context_flags
  | TOKEN_TR => parse_tr token depth
  | TOKEN_OLDER | TOKEN_AFTER => parse_older_after token
  | TOKEN_MULTI | TOKEN_SORTEDMULTI => parse_multisig token context_flags
  | _ => WITH_ERROR ""
  end.

(** The token, its parentheses and the node between them: the address of
    the node parsed. *)
Definition parse_fragment (depth context_flags : Z) : M Z :=
  token <- on_input parse_token ;;
  let has_parentheses :=
    negb (PolicyNodeType_eqb token TOKEN_0) && negb (PolicyNodeType_eqb token TOKEN_1) in
  (if has_parentheses then expect (chr "(") "Expected '('" else ret tt) ;;
  parsed_node <- parse_node token depth context_flags ;;
  (if has_parentheses then expect (chr ")") "Expected ')'" else ret tt) ;;
  ret parsed_node.

(** The body of [parse_script]. *)
Definition parse_script_body (depth context_flags : Z) : M unit :=
  b <- on_input (fun b => (b, b)) ;;
  outermost_node <- get_cur ;;
  wrappers <-
    (if has_wrapper_prefix b then
       inner_wrapper <- parse_wrappers (count_wrappers b) None ;;
       on_input (fun b => (tt, buffer_seek_cur b 1)) ;;
       ret (count_wrappers b, inner_wrapper)
     else ret (O, None)) ;;
  let n_wrappers := fst wrappers in
  let inner_wrapper := snd wrappers in
  parsed_node <- parse_fragment depth context_flags ;;
  rest <- on_input (fun b => (buffer_can_read b 1, b)) ;;
  (if (depth =? 0) && rest then WITH_ERROR "Input buffer too long" else ret tt) ;;
  match inner_wrapper with
  | Some w => set_script w parsed_node
  | None => ret tt
  end ;;
  wrapper_flags_loop n_wrappers outermost_node.

End Parser.

(** [parse_script]: the recursion is bounded by [fuel].  Every recursive
    call is made after an opening parenthesis was consumed, so a fuel of one
    more than the number of unread bytes is never exhausted. *)
Fixpoint parse_script_fuel (L : layout_t) (fuel : nat) (depth context_flags : Z) : M unit :=
  match fuel with
  | O => out_of_fuel
  | S fuel' => parse_script_body L (parse_script_fuel L fuel') depth context_flags
  end.

Definition parse_script (L : layout_t) (depth context_flags : Z) : M unit :=
  len <- input_length ;;
  parse_script_fuel L (S len) depth context_flags.

(** [parse_policy_map in_buf out out_len]: the state holds the input cursor
    and the memory before the call; the arena of the state is the local
    [out_buf], created by the call. *)
Definition parse_policy_map (L : layout_t) (out : Z) (out_len : Z) : M unit :=
  if negb (out mod 4 =? 0) then WITH_ERROR "Unaligned pointer"
  else
    (fun st => (Ok tt, mk_pstate (in_buf st) (buffer_create out out_len) (mem st))) ;;
    parse_script L 0 0.

(** ** Wallet identifier *)

(** The little-endian bytes of a value. *)
Fixpoint write_le (v : Z) (n : nat) : list Z :=
  match n with
  | O => []
  | S n' => v mod 256 :: write_le (v / 256) n'
  end.

(** Modelled from the spec: the streaming hash interface of [crypto.h]
    ([crypto_hash_update], [crypto_hash_update_u8],
    [crypto_hash_update_varint], [crypto_hash_digest]) is not part of
    [wallet.c].  The hash context is represented by the bytes absorbed so
    far (spec 4.8 and section 5, streaming SHA-256). *)
Definition hash_context : Type := list Z.

(** Modelled from the spec: [crypto_hash_update], which absorbs the first
    [len] bytes of [data] (spec, section 5, [update]). *)
Definition crypto_hash_update (ctx : hash_context) (data : list Z) (len : Z) : hash_context :=
  ctx ++ List.firstn (Z.to_nat len) data.

(** Modelled from the spec: [crypto_hash_update_u8], which absorbs one
    byte (spec, section 5, [update_u8]). *)
Definition crypto_hash_update_u8 (ctx : hash_context) (data : Z) : hash_context :=
  ctx ++ [data].

(** Modelled from the spec: [crypto_hash_update_varint], which absorbs the
    Bitcoin-style variable-length encoding of a value, the one that
    [buffer_read_varint] reads (spec 4.1 and 4.8, [update_varint]). *)
Definition crypto_hash_update_varint (ctx : hash_context) (v : Z) : hash_context :=
  ctx ++ (if v <? 253 then [v]
          else if v <? 2 ^ 16 then 253 :: write_le v 2
          else if v <? 2 ^ 32 then 254 :: write_le v 4
          else 255 :: write_le v 8).

(** The hash context of [get_policy_wallet_id] after its updates. *)
Definition wallet_hash_context (wallet_header : policy_map_wallet_header_t) : hash_context :=
  let ctx : hash_context := [] in
  let ctx := crypto_hash_update_u8 ctx (hdr_type wallet_header) in
  let ctx := crypto_hash_update_u8 ctx (hdr_name_len wallet_header) in
  let ctx := crypto_hash_update ctx (hdr_name wallet_header) (hdr_name_len wallet_header) in
  let ctx := crypto_hash_update_varint ctx (hdr_policy_map_len wallet_header) in
  let ctx := crypto_hash_update ctx (hdr_policy_map wallet_header)
               (hdr_policy_map_len wallet_header) in
  let ctx := crypto_hash_update_varint ctx (hdr_n_keys wallet_header) in
  let ctx := crypto_hash_update ctx (hdr_keys_info_merkle_root wallet_header) 32 in
  ctx.

Section WalletId.

(** Modelled from the spec: [crypto_hash_digest] on a SHA-256 context, the
    32-byte digest of the bytes absorbed; the hash function itself is
    external to [wallet.c] (spec, section 5). *)
Variable crypto_hash_digest : hash_context -> list Z.

Definition get_policy_wallet_id (wallet_header : policy_map_wallet_header_t) : list Z :=
  crypto_hash_digest (wallet_hash_context wallet_header).

End WalletId.

(** A layout of a 32-bit target, for the worked examples: a node header
    of 4 bytes, pointers and [size_t] of 4 bytes. *)
Definition layout32 : layout_t :=
  mk_layout 4 8 12 16 16 8 8 16 36 24 8 4.

Definition initial_state (body : string) : pstate :=
  mk_pstate (bytes_of_string body) (mk_buffer 0 0 0) ∅.

(** The examples parse a body into an arena of 512 bytes at address 4096. *)
Definition parse_body (body : string) : result unit * pstate :=
  parse_policy_map layout32 4096 512 (initial_state body).

Definition accepted (r : result unit * pstate) : bool :=
  match fst r with
  | Ok _ => true
  | _ => false
  end.

Definition rejected (r : result unit * pstate) : bool :=
  match fst r with
  | Error _ => true
  | _ => false
  end.

(** The node at address [p] after a parse. *)
Definition node_at (r : result unit * pstate) (p : Z) : option cell := mem (snd r) !! p.

(** ** Vocabulary of the properties *)

(** The address of the next allocation. *)
Definition cur (st : pstate) : Z := buffer_get_cur (out_buf st).

(** Every structure has a positive size. *)
Definition layout_ok (L : layout_t) : Prop :=
  0 < sizeof_policy_node_constant_t L
  /\ 0 < sizeof_policy_node_with_script_t L
  /\ 0 < sizeof_policy_node_with_script2_t L
  /\ 0 < sizeof_policy_node_with_script3_t L
  /\ 0 < sizeof_policy_node_thresh_t L
  /\ 0 < sizeof_policy_node_scriptlist_t L
  /\ 0 < sizeof_policy_node_with_key_t L
  /\ 0 < sizeof_policy_node_multisig_t L
  /\ 0 < sizeof_policy_node_with_hash_256_t L
  /\ 0 < sizeof_policy_node_with_hash_160_t L
  /\ 0 < sizeof_policy_node_with_uint32_t L
  /\ 0 < sizeof_size_t L.

(** The kind of the node stored at [p]. *)
Definition cell_type (c : cell) : option PolicyNodeType :=
  match cell_base c with
  | Some b => Some (type b)
  | None => None
  end.

Definition has_type (m : gmap Z cell) (p : Z) (t : PolicyNodeType) : Prop :=
  exists c, m !! p = Some c /\ cell_type c = Some t.

(** [wrapper_chain m a ws body]: in the memory [m], the node at [a] is the
    wrapper of the first letter of [ws], the [script] field of each wrapper
    points to the wrapper of the next letter, and the [script] field of the
    last one points to [body].  The nodes are in the order of their
    allocation. *)
Fixpoint wrapper_chain (m : gmap Z cell) (a : Z) (ws : list Z) (body : Z) : Prop :=
  match ws with
  | [] => a = body
  | w :: ws' =>
      exists t fl next,
        wrapper_token w = Some t
        /\ m !! a = Some (policy_node_with_script_t (mk_node t fl) next)
        /\ a < next
        /\ wrapper_chain m next ws' body
  end.

(** An aligned allocation, when it succeeds, starts at the current
    position: the position is aligned, or the padding does not fit. *)
Definition entry_ok (b : buffer_t) : Prop :=
  (ptr b + offset b) mod 4 = 0 \/ size b < offset b + alloc_padding b true.

(** What a called parser may do to the arena: allocate, and write above
    the position at which it was called. *)
Definition frame (st st' : pstate) : Prop :=
  cur st <= cur st' /\ forall x, x < cur st -> mem st' !! x = mem st !! x.

Definition rec_frame (rec : Z -> Z -> M unit) : Prop :=
  forall depth context_flags st st',
    entry_ok (out_buf st) ->
    rec depth context_flags st = (Ok tt, st') ->
    frame st st'.

(** The invariant of the steps of a parser called at the position [lo], in
    the memory [m0]: the arena has not moved back, the memory below [lo] is
    untouched, the node [keep], if any, keeps its kind, and [al] records
    that an aligned allocation would start at the current position. *)
Definition inv (lo : Z) (m0 : gmap Z cell) (keep : option (Z * PolicyNodeType))
    (al : bool) (st : pstate) : Prop :=
  lo <= cur st
  /\ (forall x, x < lo -> mem st !! x = m0 !! x)
  /\ match keep with
     | Some (p, t) => lo <= p /\ p < cur st /\ has_type (mem st) p t
     | None => True
     end
  /\ (al = true -> entry_ok (out_buf st)).

(** Steps that leave the arena and the memory as they are. *)
Definition pure_op {A} (m : M A) : Prop :=
  forall st a st', m st = (Ok a, st') -> out_buf st' = out_buf st /\ mem st' = mem st.

(** Field updates that keep the kind of a node. *)
Definition type_preserving (f : cell -> cell) : Prop :=
  forall c, cell_type (f c) = cell_type c.

(** A cell without its flags, and the memories that differ in flags only. *)
Definition erase (c : cell) : cell :=
  map_base (fun b => mk_node (type b) blank_flags) c.

Definition same_shape (m m' : gmap Z cell) : Prop :=
  forall x, erase <$> (m' !! x) = erase <$> (m !! x).

(** The value of a run of decimal digits read after the value [r]. *)
Definition decimal_value (ds : list Z) (r : Z) : Z :=
  List.fold_left (fun acc d => 10 * acc + (d - chr "0")) ds r.

(** A run of digits in the form that [parse_unsigned_decimal] admits: at
    least one digit, and no zero in front of another digit. *)
Definition well_formed_decimal (ds : list Z) : Prop :=
  Forall (fun d => is_digit d = true) ds
  /\ ds <> []
  /\ match ds with
     | d :: _ :: _ => d <> chr "0"
     | _ => True
     end.

(** The input after a run of digits: its end, or a character that is not a
    digit. *)
Definition no_digit_ahead (rest : cursor) : Prop :=
  match rest with
  | [] => True
  | c :: _ => is_digit c = false
  end.

(** The number of unread bytes. *)
Definition unread (st : pstate) : nat := List.length (in_buf st).

Definition is_ok {A} (r : result A) : Prop :=
  match r with
  | Ok _ => True
  | _ => False
  end.

(** [total N m]: from a state with at most [N] unread bytes, [m] does not
    exhaust the recursion bound, and does not go back in the input. *)
Definition total {A} (N : nat) (m : M A) : Prop :=
  forall st r st',
    (unread st <= N)%nat ->
    m st = (r, st') ->
    r <> OutOfFuel /\ (is_ok r -> (unread st' <= unread st)%nat).

(** [consuming N m]: moreover a success of [m] consumes input. *)
Definition consuming {A} (N : nat) (m : M A) : Prop :=
  forall st r st',
    (unread st <= N)%nat ->
    m st = (r, st') ->
    r <> OutOfFuel /\ (is_ok r -> (unread st' < unread st)%nat).

(** Steps that never exhaust the bound and leave the input as it is. *)
Definition quiet {A} (m : M A) : Prop :=
  forall st r st', m st = (r, st') -> r <> OutOfFuel /\ in_buf st' = in_buf st.

(** Lexical functions that do not go back in the input. *)
Definition forward {A} (f : cursor -> A * cursor) : Prop :=
  forall b, (List.length (snd (f b)) <= List.length b)%nat.

(** A byte, and a derivation step of 32 bits. *)
Definition is_byte (x : Z) : Prop := 0 <= x < 256.


(** The characters of a token, and the input after a token: its end, or a
    character that is not part of a token. *)
Definition is_token_char (c : Z) : bool := is_alphanumeric c || (c =? chr "_").

Definition no_token_char_ahead (rest : cursor) : Prop :=
  match rest with
  | [] => True
  | c :: _ => is_token_char c = false
  end.

(** The lowercase hexadecimal digit of a value below 16, and the
    hexadecimal text of a byte string. *)
Definition hex_char (v : Z) : Z :=
  if v <? 10 then chr "0" + v else chr "a" + (v - 10).

Fixpoint hex_of_bytes (bs : list Z) : list Z :=
  match bs with
  | [] => []
  | x :: bs' => hex_char (x / 16) :: hex_char (x mod 16) :: hex_of_bytes bs'
  end.

(** A derivation step in text is a run of digits and a hardened marker.
    Its text is the digits, with an apostrophe when the step is hardened;
    its value has the hardened bit set accordingly. *)
Definition step_text (s : list Z * bool) : list Z :=
  fst s ++ (if snd s then [chr "'"] else []).

Definition step_value (s : list Z * bool) : Z :=
  decimal_value (fst s) 0 + (if snd s then 2 ^ 31 else 0).

Definition step_ok (s : list Z * bool) : Prop :=
  well_formed_decimal (fst s) /\ decimal_value (fst s) 0 < 2 ^ 31.

(** The text of a derivation path: each step after a slash. *)
Fixpoint path_text (steps : list (list Z * bool)) : list Z :=
  match steps with
  | [] => []
  | s :: steps' => chr "/" :: step_text s ++ path_text steps'
  end.

(** The text of a key origin: the fingerprint in hexadecimal and the
    derivation path, between brackets. *)
Definition origin_text (fp : list Z) (steps : list (list Z * bool)) : list Z :=
  chr "[" :: hex_of_bytes fp ++ path_text steps ++ [chr "]"].

(** The text of the wildcard suffix. *)
Definition wildcard_suffix : list Z := [chr "/"; chr "*"; chr "*"].

(** A header within the bounds that [read_policy_map_wallet] enforces. *)
Definition valid_header (h : policy_map_wallet_header_t) : Prop :=
  hdr_type h = WALLET_TYPE_POLICY_MAP
  /\ 0 <= hdr_name_len h <= MAX_WALLET_NAME_LENGTH
  /\ List.length (hdr_name h) = Z.to_nat (hdr_name_len h)
  /\ 0 <= hdr_policy_map_len h <= MAX_POLICY_MAP_STR_LENGTH
  /\ List.length (hdr_policy_map h) = Z.to_nat (hdr_policy_map_len h)
  /\ 0 <= hdr_n_keys h <= 252
  /\ List.length (hdr_keys_info_merkle_root h) = 32%nat.

(** The combinations of type and properties that the rules of the type
    calculus maintain: a [V] has neither [d] nor [u], a [K] has [u], a [W]
    has none of [z], [o], [n], and [z] excludes [n]. *)
Definition flags_consistent (X : flags_t) : Prop :=
  is_miniscript X = true
  /\ (is_V X = true -> d_ X = false /\ u_ X = false)
  /\ (is_K X = true -> u_ X = true)
  /\ (is_W X = true -> z_ X = false /\ o_ X = false /\ n_ X = false)
  /\ (z_ X = true -> n_ X = false).

(** ** The vocabulary of the safety of the script parser *)

(** The arena [b'] is the arena [b] after some allocations: the same
    region, a position that has not moved back, and still within the region
    if it was. *)
Definition buffer_le (b b' : buffer_t) : Prop :=
  ptr b' = ptr b /\ size b' = size b /\ offset b <= offset b'
  /\ (offset b <= size b -> offset b' <= size b').

(** What a parser called in the state [st0] may have done when it is in the
    state [st]: allocate, and write between the position at which it was
    called and the current position. *)
Definition advance (st0 st : pstate) : Prop :=
  buffer_le (out_buf st0) (out_buf st)
  /\ forall x, x < cur st0 \/ cur st <= x -> mem st !! x = mem st0 !! x.

(** The node at [p] has a header of kind [t], and its flags, if it is
    miniscript, are consistent. *)
Definition node_ok (m : gmap Z cell) (p : Z) (t : PolicyNodeType) : Prop :=
  exists c fl,
    m !! p = Some c /\ cell_base c = Some (mk_node t fl)
    /\ (is_miniscript fl = true -> flags_consistent fl).

(** The outcome of a call that does not read through a pointer to storage
    that holds no node: [Q] on success, [E] on failure. *)
Definition outcome {A} (E : pstate -> Prop) (Q : A -> pstate -> Prop)
    (r : result A * pstate) : Prop :=
  match r with
  | (Ok a, s) => Q a s
  | (Undefined, _) => False
  | (_, s) => E s
  end.

(** The kind of the root of a script, from its first characters: the
    wrapper of the first letter of the prefix, or the token. *)
Definition root_type (b : cursor) : PolicyNodeType :=
  if has_wrapper_prefix b then
    match b with
    | c :: _ =>
        match wrapper_token c with
        | Some t => t
        | None => fst (parse_token (List.skipn 1 b))
        end
    | [] => TOKEN_INVALID
    end
  else fst (parse_token b).

(** What a pointer of a tree of nodes points to: a node, or an element of
    the list of the children of a [thresh]. *)
Inductive target : Type := to_node | to_item.

(** The flags of a node are consistent, if the node is miniscript. *)
Definition base_ok (b : policy_node_t) : Prop :=
  is_miniscript (flags b) = true -> flags_consistent (flags b).

(** [wf m hi t p]: in the memory [m], the pointer [p] points to a
    well-formed tree below [hi].  Every pointer of the tree ([script],
    [scripts], [scriptlist], [next]) points to a node, or to a list
    element, that is stored at a higher address than the structure that
    holds the pointer, and below [hi]; the list of a [thresh] ends with
    [NULL]; and the flags of every node are consistent. *)
Inductive wf (m : gmap Z cell) (hi : Z) : target -> Z -> Prop :=
| wf_constant p b :
    m !! p = Some (policy_node_constant_t b) -> base_ok b -> p < hi -> wf m hi to_node p
| wf_with_key p b i :
    m !! p = Some (policy_node_with_key_t b i) -> base_ok b -> p < hi -> wf m hi to_node p
| wf_with_hash p b h :
    m !! p = Some (policy_node_with_hash_t b h) -> base_ok b -> p < hi -> wf m hi to_node p
| wf_with_uint32 p b n :
    m !! p = Some (policy_node_with_uint32_t b n) -> base_ok b -> p < hi ->
    wf m hi to_node p
| wf_multisig p b k n ki :
    m !! p = Some (policy_node_multisig_t b k n ki) -> base_ok b -> p < hi ->
    wf m hi to_node p
| wf_with_script p b s :
    m !! p = Some (policy_node_with_script_t b s) -> base_ok b ->
    p < s -> wf m hi to_node s -> wf m hi to_node p
| wf_with_scripts p b qs :
    m !! p = Some (policy_node_with_scripts_t b qs) -> base_ok b ->
    p < hi ->
    (forall q, In q qs -> p < q) ->
    (forall q, In q qs -> wf m hi to_node q) ->
    wf m hi to_node p
| wf_thresh p b k n sl :
    m !! p = Some (policy_node_thresh_t b k n sl) -> base_ok b ->
    p < sl -> wf m hi to_item sl -> wf m hi to_node p
| wf_last e sc :
    m !! e = Some (policy_node_scriptlist_t sc NULL) ->
    e < sc -> wf m hi to_node sc -> wf m hi to_item e
| wf_next e sc nx :
    m !! e = Some (policy_node_scriptlist_t sc nx) ->
    e < sc -> wf m hi to_node sc ->
    sc < nx -> wf m hi to_item nx -> wf m hi to_item e.

(** The list of a [thresh] while it is built: [n] elements from [e] are
    complete, each with its child below the next element, and the
    element [last] comes next. *)
Fixpoint item_chain (m : gmap Z cell) (n : nat) (e last : Z) : Prop :=
  match n with
  | O => e = last
  | S n' =>
      exists sc nx,
        m !! e = Some (policy_node_scriptlist_t sc nx)
        /\ e < sc
        /\ wf m nx to_node sc
        /\ item_chain m n' nx last
  end.

(** The list of the children of a [thresh] from [e]: the addresses [es]
    of its elements, up to the [NULL] that ends it. *)
Fixpoint item_list (m : gmap Z cell) (es : list Z) (e : Z) : Prop :=
  match es with
  | [] => e = NULL
  | x :: es' =>
      e = x
      /\ exists sc nx,
           m !! x = Some (policy_node_scriptlist_t sc nx) /\ item_list m es' nx
  end.

(** A parser of scripts is safe: called at a position where an aligned
    allocation starts, it does not fail on a pointer, it stays within its
    part of the arena, and on success it has allocated the root of the
    script at the position at which it was called, with a well-formed tree
    below the position it leaves. *)
Definition script_safe (m : M unit) : Prop :=
  forall st,
    entry_ok (out_buf st) ->
    outcome (advance st)
      (fun _ s => advance st s /\ cur st < cur s
                  /\ node_ok (mem s) (cur st) (root_type (in_buf st))
                  /\ wf (mem s) (cur s) to_node (cur st))
      (m st).

(** The same for the parser of a node of kind [t], which returns the
    address of the node. *)
Definition node_safe (t : PolicyNodeType) (m : M Z) : Prop :=
  forall st,
    outcome (advance st)
      (fun p s => advance st s /\ cur st <= p < cur s
                  /\ (entry_ok (out_buf st) -> p = cur st)
                  /\ node_ok (mem s) p t
                  /\ wf (mem s) (cur s) to_node p)
      (m st).

(** The children parsed so far are nodes above [node], whose addresses are
    in the array of [node]. *)
Definition children_ok (m : gmap Z cell) (node hi : Z) (qs : list Z) (n : nat) : Prop :=
  forall j, (j < n)%nat ->
    exists q t, qs !! j = Some q /\ node < q < hi /\ node_ok m q t /\ wf m hi to_node q.

(** The effect of the loop over the wrappers: the flags of the wrappers of
    the chain, and nothing else. *)
Definition flags_only (a x : Z) (s s' : pstate) : Prop :=
  in_buf s' = in_buf s /\ out_buf s' = out_buf s
  /\ forall z, z < a \/ x <= z -> mem s' !! z = mem s !! z.

(** [m'] does what [m] does in every state in which [m] does not exhaust
    the recursion bound of the model. *)
Definition refines {A} (m m' : M A) : Prop :=
  forall st, fst (m st) = OutOfFuel \/ m' st = m st.

(** * Properties *)

(** ** Worked parses *)

(** C1 (code defect).  The claim: every accepted [thresh] node has
    [1 <= k <= n].  The source tests [k < 1] only: the body
    [thresh(2,pk(@0))] is accepted, and the node it leaves at the root of
    the arena has threshold 2 and a single child. *)
Theorem thresh_threshold_above_children_accepted :
  let r := parse_body "thresh(2,pk(@0))" in
  accepted r = true
  /\ node_at r 4096
     = Some (policy_node_thresh_t
               (mk_node TOKEN_THRESH (thresh_flags 0 1 1)) 2 1 4112)
  /\ node_at r 4112 = Some (policy_node_scriptlist_t 4120 NULL)
  /\ node_at r 4120 = Some (policy_node_with_key_t (mk_node TOKEN_PK flags_pk) 0).
Proof. vm_compute. repeat split; reflexivity. Qed.

(** C2 (code defect).  The claim: [tr] is accepted at the top level only,
    so that [sh(tr(@0))] fails.  The source tests [depth > 1]: [tr(@0)] is
    accepted at depth 0 as a node that is not miniscript, and [sh(tr(@0))],
    where [tr] is at depth 1, is accepted as well; [tr] is refused from
    depth 2 on. *)
Theorem tr_below_top_level_accepted :
  (let r := parse_body "tr(@0)" in
   accepted r = true
   /\ exists fl, node_at r 4096 = Some (policy_node_with_key_t (mk_node TOKEN_TR fl) 0)
                 /\ is_miniscript fl = false)
  /\ (let r := parse_body "sh(tr(@0))" in
      accepted r = true
      /\ (exists fl, node_at r 4096 = Some (policy_node_with_script_t (mk_node TOKEN_SH fl) 4104))
      /\ (exists fl, node_at r 4104 = Some (policy_node_with_key_t (mk_node TOKEN_TR fl) 0)))
  /\ fst (parse_body "sh(wsh(tr(@0)))") = Error "tr can only be top-level".
Proof.
  vm_compute. repeat split; try reflexivity; eexists; repeat split; reflexivity.
Qed.

(** C4 (code defect).  The claim: [older(n)] and [after(n)] are accepted
    exactly when the decimal argument is in [1, 2^31).  The range test of
    the source is on the value that [parse_unsigned_decimal] returns, and
    that value is wrong when the argument overflows undetected: the
    argument 19327352830 is read as 2147483646 and accepted.  The
    boundaries 0, 1 and 2^31 behave as the claim says, and the flags of the
    accepted node are those of the claim. *)
Theorem older_overflowing_argument_accepted :
  (let r := parse_body "older(19327352830)" in
   accepted r = true
   /\ node_at r 4096
      = Some (policy_node_with_uint32_t (mk_node TOKEN_OLDER flags_older) 2147483646))
  /\ (let r := parse_body "after(19327352830)" in
      accepted r = true
      /\ node_at r 4096
         = Some (policy_node_with_uint32_t (mk_node TOKEN_AFTER flags_older) 2147483646))
  /\ rejected (parse_body "older(0)") = true
  /\ rejected (parse_body "older(2147483648)") = true
  /\ (let r := parse_body "older(1)" in
      accepted r = true
      /\ node_at r 4096 = Some (policy_node_with_uint32_t (mk_node TOKEN_OLDER flags_older) 1))
  /\ flags_older = mk_flags true MINISCRIPT_TYPE_B true false false false false.
Proof. vm_compute. repeat split; reflexivity. Qed.

(** C6 (code defect).  The claim: [parse_unsigned_decimal] fails on every
    digit sequence whose value exceeds the largest [size_t].  The test
    [10 * result + next_digit < result] of the source misses the overflows
    whose wrapped value is not below [result]: 19327352830 is above
    [SIZE_MAX] = 4294967295 and is read as 2147483646.  The other parts of
    the claim hold on these inputs: a leading zero followed by a digit and
    an input without a digit fail, and ["0"] is read as 0. *)
Theorem parse_unsigned_decimal_overflow_undetected :
  SIZE_MAX = 4294967295
  /\ parse_unsigned_decimal (bytes_of_string "19327352830") = (Some 2147483646, [])
  /\ fst (parse_unsigned_decimal (bytes_of_string "4294967296")) = None
  /\ fst (parse_unsigned_decimal (bytes_of_string "01")) = None
  /\ fst (parse_unsigned_decimal (bytes_of_string "")) = None
  /\ fst (parse_unsigned_decimal (bytes_of_string "x1")) = None
  /\ parse_unsigned_decimal (bytes_of_string "0") = (Some 0, [])
  /\ parse_unsigned_decimal (bytes_of_string "4294967295,") = (Some 4294967295, [chr ","]).
Proof. vm_compute. repeat split; reflexivity. Qed.

(** C7 (code defect).  The claim: an origin with more than 8 derivation
    steps is rejected.  The loop of the source tests
    [master_key_derivation_len > MAX_BIP32_PATH_STEPS] before it reads a
    step, so a ninth step is read and stored, and an origin of 9 steps is
    accepted; the tenth is refused. *)
Theorem key_info_nine_derivation_steps_accepted :
  let xpub := List.repeat (chr "x") 111 in
  (exists out,
      parse_policy_map_key_info 113 (bytes_of_string "[deadbeef/0/1/2/3/4/5/6/7/8]" ++ xpub)
      = (Some out, [])
      /\ master_key_derivation_len out = 9
      /\ master_key_derivation out = [0; 1; 2; 3; 4; 5; 6; 7; 8]
      /\ has_key_origin out = 1)
  /\ fst (parse_policy_map_key_info 113
            (bytes_of_string "[deadbeef/0/1/2/3/4/5/6/7/8/9]" ++ xpub)) = None
  /\ (exists out,
         parse_policy_map_key_info 113 (bytes_of_string "[deadbeef/0/1/2/3/4/5/6/7]" ++ xpub)
         = (Some out, [])
         /\ master_key_derivation_len out = 8).
Proof.
  vm_compute. repeat split; try reflexivity; eexists; repeat split; reflexivity.
Qed.

(** ** The header decoder and trailing bytes *)

Lemma buffer_can_read_app (b extra : cursor) (n : nat) :
  buffer_can_read b n = true -> buffer_can_read (b ++ extra) n = true.
Proof.
  unfold buffer_can_read. rewrite !Nat.leb_le, List.length_app. lia.
Qed.

Lemma firstn_skipn_app (b extra : cursor) (n : nat) :
  buffer_can_read b n = true ->
  List.firstn n (b ++ extra) = List.firstn n b
  /\ List.skipn n (b ++ extra) = List.skipn n b ++ extra.
Proof.
  unfold buffer_can_read. rewrite Nat.leb_le. intros Hn.
  rewrite List.firstn_app, List.skipn_app.
  replace (n - List.length b)%nat with O by lia.
  simpl. rewrite List.app_nil_r. split; reflexivity.
Qed.

Lemma buffer_read_u8_app (b extra b' : cursor) (c : Z) :
  buffer_read_u8 b = (Some c, b') ->
  buffer_read_u8 (b ++ extra) = (Some c, b' ++ extra).
Proof.
  destruct b as [|x b0]; simpl; intros H; [discriminate|].
  injection H as -> ->. reflexivity.
Qed.

Lemma buffer_read_bytes_app (b extra b' : cursor) (n : nat) (bs : list Z) :
  buffer_read_bytes b n = (Some bs, b') ->
  buffer_read_bytes (b ++ extra) n = (Some bs, b' ++ extra).
Proof.
  unfold buffer_read_bytes.
  destruct (buffer_can_read b n) eqn:Hcan; intros H; [|discriminate].
  rewrite (buffer_can_read_app _ extra _ Hcan).
  destruct (firstn_skipn_app b extra n Hcan) as [-> ->].
  injection H as <- <-. reflexivity.
Qed.

Lemma buffer_read_varint_app (b extra b' : cursor) (v : Z) :
  buffer_read_varint b = (Some v, b') ->
  buffer_read_varint (b ++ extra) = (Some v, b' ++ extra).
Proof.
  destruct b as [|c rest]; simpl; intros H; [discriminate|].
  assert (Hwide : forall n,
             (if buffer_can_read rest n
              then (Some (read_le (List.firstn n rest)), List.skipn n rest)
              else (None, c :: rest)) = (Some v, b') ->
             (if buffer_can_read (rest ++ extra) n
              then (Some (read_le (List.firstn n (rest ++ extra))),
                    List.skipn n (rest ++ extra))
              else (None, c :: rest ++ extra)) = (Some v, b' ++ extra)).
  { intros n. destruct (buffer_can_read rest n) eqn:Hcan; intros H'; [|discriminate].
    rewrite (buffer_can_read_app _ extra _ Hcan).
    destruct (firstn_skipn_app rest extra n Hcan) as [-> ->].
    injection H' as <- <-. reflexivity. }
  destruct (c =? 253); [apply Hwide, H|].
  destruct (c =? 254); [apply Hwide, H|].
  destruct (c =? 255); [apply Hwide, H|].
  injection H as <- <-. reflexivity.
Qed.

(** C8 (code defect).  The claim: a header followed by extra bytes is
    refused.  [read_policy_map_wallet] returns 0 as soon as the 32 bytes of
    the Merkle root are read and never tests that the buffer is exhausted,
    a test that the two other parsers of the file make
    ([parse_policy_map_key_info] before it accepts a wildcard, and
    [parse_script] at depth 0): a header followed by one extra byte is
    decoded with the status 0, and the extra byte is left unread. *)
Theorem read_policy_map_wallet_trailing_byte_accepted :
  let buffer :=
    [2; 3] ++ bytes_of_string "wal" ++ [7] ++ bytes_of_string "pkh(@0)" ++ [1]
    ++ List.repeat 0 32 ++ [9] in
  let '(status, header, rest) :=
    read_policy_map_wallet buffer (mk_header 0 0 [] 0 [] 0 []) in
  status = 0 /\ rest = [9] /\ hdr_keys_info_merkle_root header = List.repeat 0 32.
Proof. vm_compute. repeat split; reflexivity. Qed.

(** The defect on every input: when [read_policy_map_wallet] decodes a
    header from a buffer, it decodes the same header from that buffer
    followed by any extra bytes, and leaves the extra bytes unread. *)
Lemma read_policy_map_wallet_ignores_trailing
    (buffer extra rest : cursor) (header header' : policy_map_wallet_header_t) :
  read_policy_map_wallet buffer header = (0, header', rest) ->
  read_policy_map_wallet (buffer ++ extra) header = (0, header', rest ++ extra).
Proof.
  unfold read_policy_map_wallet.
  destruct (buffer_read_u8 buffer) as [[type|] b1] eqn:E1; [|discriminate].
  rewrite (buffer_read_u8_app _ extra _ _ E1).
  destruct (negb _); [discriminate|].
  destruct (buffer_read_u8 b1) as [[name_len|] b2] eqn:E2; [|discriminate].
  rewrite (buffer_read_u8_app _ extra _ _ E2).
  destruct (MAX_WALLET_NAME_LENGTH <? _); [discriminate|].
  destruct (buffer_read_bytes b2 _) as [[name|] b3] eqn:E3; [|discriminate].
  rewrite (buffer_read_bytes_app _ extra _ _ _ E3).
  destruct (buffer_read_varint b3) as [[policy_map_len|] b4] eqn:E4; [|discriminate].
  rewrite (buffer_read_varint_app _ extra _ _ E4).
  destruct (MAX_POLICY_MAP_STR_LENGTH <? _); [discriminate|].
  destruct (buffer_read_bytes b4 _) as [[policy_map|] b5] eqn:E5; [|discriminate].
  rewrite (buffer_read_bytes_app _ extra _ _ _ E5).
  destruct (buffer_read_varint b5) as [[n_keys|] b6] eqn:E6; [|discriminate].
  rewrite (buffer_read_varint_app _ extra _ _ E6).
  destruct (252 <? n_keys); [discriminate|].
  destruct (buffer_read_bytes b6 32) as [[root|] b7] eqn:E7; [|discriminate].
  rewrite (buffer_read_bytes_app _ extra _ _ _ E7).
  intros H. injection H as <- <-. reflexivity.
Qed.

(** ** The alignment test of [parse_policy_map] *)

(** C9.  When the output pointer is not a multiple of 4, [parse_policy_map]
    returns the error "Unaligned pointer" and leaves the input cursor, the
    arena and the memory as they were; the parse of the script is run only
    when the pointer is aligned, on the arena created over the region. *)
Theorem parse_policy_map_alignment (L : layout_t) (out out_len : Z) (st : pstate) :
  (out mod 4 <> 0 ->
   parse_policy_map L out out_len st = (Error "Unaligned pointer", st))
  /\ (out mod 4 = 0 ->
      parse_policy_map L out out_len st
      = parse_script L 0 0 (mk_pstate (in_buf st) (buffer_create out out_len) (mem st)))
  /\ (forall st', parse_policy_map L out out_len st = (Ok tt, st') -> out mod 4 = 0).
Proof.
  unfold parse_policy_map.
  destruct (out mod 4 =? 0) eqn:E; simpl.
  - apply Z.eqb_eq in E. split; [|split].
    + intros Hne. contradiction.
    + intros _. reflexivity.
    + intros st' _. exact E.
  - apply Z.eqb_neq in E. split; [|split].
    + intros _. reflexivity.
    + intros Heq. contradiction.
    + unfold WITH_ERROR. intros st' H. discriminate.
Qed.

Lemma parse_policy_map_alignment_witness :
  parse_policy_map layout32 4098 512 (initial_state "pkh(@0)")
  = (Error "Unaligned pointer", initial_state "pkh(@0)").
Proof.
  apply (proj1 (parse_policy_map_alignment layout32 4098 512 (initial_state "pkh(@0)"))).
  vm_compute. discriminate.
Defined.

(** ** Reasoning about the parse monad *)

Lemma bind_Ok {A B} (m : M A) (f : A -> M B) (st st' : pstate) (b : B) :
  bind m f st = (Ok b, st') ->
  exists a st1, m st = (Ok a, st1) /\ f a st1 = (Ok b, st').
Proof.
  unfold bind. destruct (m st) as [[a|msg| |] st1]; intros H; try discriminate.
  exists a, st1. split; [reflexivity | exact H].
Qed.

Lemma bind_Error {A B} (m : M A) (f : A -> M B) (st st' : pstate) (msg : string) :
  bind m f st = (Error msg, st') ->
  m st = (Error msg, st')
  \/ exists a st1, m st = (Ok a, st1) /\ f a st1 = (Error msg, st').
Proof.
  unfold bind. destruct (m st) as [[a|msg'| |] st1]; intros H; try discriminate.
  - right. exists a, st1. split; [reflexivity | exact H].
  - left. injection H as -> ->. reflexivity.
Qed.

(** [errs P m]: every error message of [m] satisfies [P]. *)
Definition errs {A} (P : string -> Prop) (m : M A) : Prop :=
  forall st msg st', m st = (Error msg, st') -> P msg.

Create HintDb errs_db.

Lemma errs_ret {A} P (a : A) : errs P (ret a).
Proof. intros st msg st' H. discriminate. Qed.

Lemma errs_bind {A B} P (m : M A) (f : A -> M B) :
  errs P m -> (forall a, errs P (f a)) -> errs P (bind m f).
Proof.
  intros Hm Hf st msg st' H. apply bind_Error in H as [H | (a & st1 & _ & H)].
  - exact (Hm _ _ _ H).
  - exact (Hf _ _ _ _ H).
Qed.

Lemma errs_WITH_ERROR {A} (P : string -> Prop) msg : P msg -> errs P (@WITH_ERROR A msg).
Proof. intros HP st msg' st' H. injection H as <- _. exact HP. Qed.

Lemma errs_on_input {A} P (f : cursor -> A * cursor) : errs P (on_input f).
Proof. intros st msg st' H. unfold on_input in H. destruct (f _). discriminate. Qed.

Lemma errs_input_length P : errs P input_length.
Proof. intros st msg st' H. discriminate. Qed.

Lemma errs_get_cur P : errs P get_cur.
Proof. intros st msg st' H. discriminate. Qed.

Lemma errs_alloc P sz al : errs P (alloc sz al).
Proof. intros st msg st' H. unfold alloc in H. destruct (buffer_alloc _ _ _). discriminate. Qed.

Lemma errs_load P p : errs P (load p).
Proof. intros st msg st' H. unfold load in H. destruct (_ !! _); discriminate. Qed.

Lemma errs_store P p c : errs P (store p c).
Proof. intros st msg st' H. discriminate. Qed.

Lemma errs_undefined {A} P : errs P (@undefined A).
Proof. intros st msg st' H. discriminate. Qed.

Lemma errs_out_of_fuel {A} P : errs P (@out_of_fuel A).
Proof. intros st msg st' H. discriminate. Qed.

Lemma errs_modify P p f : errs P (modify p f).
Proof. apply errs_bind; [apply errs_load | intros; apply errs_store]. Qed.

#[local] Hint Resolve errs_ret errs_on_input errs_input_length errs_get_cur errs_alloc
  errs_load errs_store errs_undefined errs_out_of_fuel errs_modify : errs_db.

Ltac errs_step :=
  repeat first
    [ progress cbv zeta
    | apply errs_bind; [| intros ? ]
    | apply errs_WITH_ERROR
    | solve [ auto with errs_db ]
    | match goal with
      | |- errs _ (match ?x with _ => _ end) => destruct x
      end ].

Definition sortedmulti_context_message : string :=
  "sortedmulti can only be directly under sh or wsh".

Definition not_context_message (msg : string) : Prop :=
  msg <> sortedmulti_context_message.

Lemma errs_multisig_loop L fuel node : errs not_context_message (multisig_loop L fuel node).
Proof.
  induction fuel as [|fuel IH]; simpl; [apply errs_out_of_fuel|].
  unfold expect, read_key_index, alloc_node, get_n, set_n.
  errs_step; try exact IH; try (unfold not_context_message; discriminate).
Qed.

(** Evaluation of the first step of a sequence. *)

Lemma run_on_input {A B} (f : cursor -> A * cursor) (k : A -> M B) (st : pstate) a b :
  f (in_buf st) = (a, b) ->
  bind (on_input f) k st = k a (mk_pstate b (out_buf st) (mem st)).
Proof. intros H. unfold bind, on_input. rewrite H. reflexivity. Qed.

Lemma run_get_cur {B} (k : Z -> M B) (st : pstate) :
  bind get_cur k st = k (buffer_get_cur (out_buf st)) st.
Proof. reflexivity. Qed.

Lemma run_ret {A B} (a : A) (k : A -> M B) (st : pstate) : bind (ret a) k st = k a st.
Proof. reflexivity. Qed.

Lemma run_Error {A B} (m : M A) (k : A -> M B) (st st' : pstate) msg :
  m st = (Error msg, st') -> bind m k st = (Error msg, st').
Proof. intros H. unfold bind. rewrite H. reflexivity. Qed.

Lemma run_expect {B} (c : Z) msg (k : unit -> M B) (st : pstate) rest :
  in_buf st = c :: rest ->
  bind (expect c msg) k st = k tt (mk_pstate rest (out_buf st) (mem st)).
Proof.
  intros H. unfold expect, bind, on_input, consume_character, buffer_peek.
  rewrite H. simpl. rewrite Z.eqb_refl. reflexivity.
Qed.

(** ** The context test of [sortedmulti] *)

Lemma sortedmulti_context_error_iff (context_flags : Z) :
  sortedmulti_context_error context_flags = true
  <-> Z.land context_flags CONTEXT_WITHIN_SH <> 0
      /\ Z.land context_flags CONTEXT_WITHIN_WSH <> 0.
Proof.
  unfold sortedmulti_context_error.
  rewrite andb_true_iff, !negb_true_iff, !Z.eqb_neq. reflexivity.
Qed.

Lemma errs_parse_multisig L token context_flags :
  PolicyNodeType_eqb token TOKEN_SORTEDMULTI && sortedmulti_context_error context_flags = false ->
  errs not_context_message (parse_multisig L token context_flags).
Proof.
  intros Hc. unfold parse_multisig. rewrite Hc.
  unfold alloc_node, set_type, set_k, aligned_cur, set_key_indexes, set_n, get_k, get_n,
    set_not_miniscript, set_flags.
  errs_step; try apply errs_multisig_loop; try (unfold not_context_message; discriminate).
Qed.

(** The [sortedmulti] case when its node is allocated: the context error is
    returned exactly when both context flags are set. *)
Lemma parse_multisig_context (L : layout_t) (context_flags : Z) (st : pstate) p b' :
  buffer_alloc (out_buf st) (sizeof_policy_node_multisig_t L) true = (Some p, b') ->
  fst (parse_multisig L TOKEN_SORTEDMULTI context_flags st) = Error sortedmulti_context_message
  <-> Z.land context_flags CONTEXT_WITHIN_SH <> 0
      /\ Z.land context_flags CONTEXT_WITHIN_WSH <> 0.
Proof.
  intros Halloc. rewrite <- sortedmulti_context_error_iff.
  destruct (sortedmulti_context_error context_flags) eqn:Hc.
  - split; [reflexivity|]. intros _.
    unfold parse_multisig, alloc_node, alloc, bind, store. rewrite Halloc. simpl.
    rewrite Hc. reflexivity.
  - split; [|discriminate]. intros H.
    destruct (parse_multisig L TOKEN_SORTEDMULTI context_flags st) as [r st'] eqn:E.
    simpl in H. subst r.
    apply errs_parse_multisig in E; [|simpl; exact Hc].
    exfalso. apply E. reflexivity.
Qed.

(** When both flags are set, the [sortedmulti] case fails: with the context
    error if its node is allocated, with "Out of memory" otherwise. *)
Lemma parse_multisig_both_flags (L : layout_t) (context_flags : Z) (st : pstate) :
  sortedmulti_context_error context_flags = true ->
  exists msg st',
    parse_multisig L TOKEN_SORTEDMULTI context_flags st = (Error msg, st')
    /\ (msg = sortedmulti_context_message \/ msg = "Out of memory"%string).
Proof.
  intros Hc. unfold parse_multisig, alloc_node, alloc, bind, store.
  destruct (buffer_alloc _ _ _) as [[p|] b']; simpl.
  - rewrite Hc. eexists _, _. split; [reflexivity | left; reflexivity].
  - eexists _, _. split; [reflexivity | right; reflexivity].
Qed.

(** A script that starts with the token [sortedmulti], parsed with both
    context flags set. *)
Lemma sortedmulti_both_flags_rejected
    (L : layout_t) (fuel : nat) (depth context_flags : Z) (st : pstate) (rest : cursor) :
  in_buf st = bytes_of_string "sortedmulti(" ++ rest ->
  Z.land context_flags CONTEXT_WITHIN_SH <> 0 ->
  Z.land context_flags CONTEXT_WITHIN_WSH <> 0 ->
  exists msg st',
    parse_script_fuel L (S fuel) depth context_flags st = (Error msg, st')
    /\ (msg = sortedmulti_context_message \/ msg = "Out of memory"%string).
Proof.
  intros Hin Hsh Hwsh.
  assert (Hc : sortedmulti_context_error context_flags = true)
    by (apply sortedmulti_context_error_iff; split; assumption).
  destruct st as [ib ob m]. simpl in Hin. subst ib.
  simpl parse_script_fuel. unfold parse_script_body.
  erewrite run_on_input by reflexivity. cbv beta.
  rewrite run_get_cur. cbv beta.
  match goal with
  | |- context [has_wrapper_prefix ?b] =>
      let v := eval vm_compute in (has_wrapper_prefix b) in
      change (has_wrapper_prefix b) with v
  end.
  cbv iota. rewrite run_ret. cbv beta zeta.
  destruct (parse_multisig_both_flags L context_flags
              (mk_pstate rest ob m) Hc) as (msg & st' & Hrun & Hmsg).
  exists msg, st'. split; [|exact Hmsg].
  apply run_Error. unfold parse_fragment.
  erewrite run_on_input by (simpl in_buf; vm_compute; reflexivity). cbv beta zeta.
  simpl PolicyNodeType_eqb. simpl negb. simpl andb. cbv iota.
  erewrite run_expect by reflexivity. cbv beta.
  unfold parse_node.
  apply run_Error. exact Hrun.
Qed.

(** C5 (counterexample).  The body [sh(wsh(sortedmulti(1,@0)))] is not
    rejected: the parse returns 0. *)
Lemma sh_wsh_sortedmulti_not_rejected :
  rejected (parse_body "sh(wsh(sortedmulti(1,@0)))") = false
  /\ fst (parse_body "sh(wsh(sortedmulti(1,@0)))") = Ok tt.
Proof. vm_compute. split; reflexivity. Qed.

(** What [sh] and [wsh] hand to the script they enclose, once their tests
    are passed and their node is allocated: the depth plus one, and one
    context flag, [CONTEXT_WITHIN_SH] for [sh] and [CONTEXT_WITHIN_WSH] for
    [wsh], whatever the flags they were called with. *)
Lemma parse_sh_wsh_hands_one_flag
    (L : layout_t) (rec : Z -> Z -> M unit) (token : PolicyNodeType)
    (depth context_flags : Z) (st : pstate) (p : Z) (b' : buffer_t) :
  token = TOKEN_SH /\ depth = 0
  \/ token = TOKEN_WSH /\ (depth = 0 \/ Z.land context_flags CONTEXT_WITHIN_SH <> 0) ->
  buffer_alloc (out_buf st) (sizeof_policy_node_with_script_t L) true = (Some p, b') ->
  exists st1,
    in_buf st1 = in_buf st
    /\ parse_sh_wsh L rec token depth context_flags st
       = (rec (size_t_of (depth + 1))
              (if PolicyNodeType_eqb token TOKEN_SH
               then CONTEXT_WITHIN_SH else CONTEXT_WITHIN_WSH) ;;
          ret p) st1.
Proof.
  intros Htok Halloc. unfold parse_sh_wsh.
  assert (Hpre :
      (if PolicyNodeType_eqb token TOKEN_SH then
         if negb (depth =? 0) then WITH_ERROR "sh can only be a top-level function"
         else ret tt
       else if PolicyNodeType_eqb token TOKEN_WSH then
         if negb (depth =? 0) && (Z.land context_flags CONTEXT_WITHIN_SH =? 0)
         then WITH_ERROR "wsh can only be top-level or inside sh"
         else ret tt
       else ret tt) = ret tt).
  { destruct Htok as [[-> ->] | [-> [-> | Hsh]]]; cbn [PolicyNodeType_eqb].
    - reflexivity.
    - reflexivity.
    - apply Z.eqb_neq in Hsh. rewrite Hsh, andb_false_r. reflexivity. }
  rewrite Hpre. clear Hpre. rewrite run_ret.
  unfold alloc_node, alloc. unfold bind at 1. unfold bind at 1. rewrite Halloc.
  cbv beta iota. unfold bind at 1. unfold store at 1, ret at 1. cbv beta iota.
  unfold set_type, set_not_miniscript, modify.
  unfold bind at 1. unfold bind at 1. unfold load at 1. cbn [mem in_buf out_buf].
  rewrite lookup_insert_eq. unfold store at 1. cbv beta iota. cbn [mem in_buf out_buf].
  unfold bind at 1. unfold bind at 1. unfold load at 1. cbn [mem in_buf out_buf].
  rewrite lookup_insert_eq. unfold store at 1. cbv beta iota. cbn [mem in_buf out_buf].
  cbv zeta. unfold aligned_cur, alloc, get_cur. unfold bind at 1. unfold bind at 1.
  cbn [mem in_buf out_buf].
  destruct (buffer_alloc b' 0 true) as [r b''] eqn:Ea. cbv beta iota.
  cbn [mem in_buf out_buf].
  unfold set_script, modify. unfold bind at 1. unfold bind at 1. unfold load at 1.
  cbn [mem in_buf out_buf]. rewrite lookup_insert_eq. unfold store at 1. cbv beta iota.
  cbn [mem in_buf out_buf].
  eexists. split; [| reflexivity]. reflexivity.
Qed.

(** C5 (amended).  The body [sh(wsh(sortedmulti(1,@0)))] is accepted, with
    the tree [SH] over [WSH] over [SORTEDMULTI], none of which is
    miniscript: [sh] hands the single flag [CONTEXT_WITHIN_SH] to its child
    and [wsh] the single flag [CONTEXT_WITHIN_WSH], whatever the flags they
    were called with, and neither flag contains the other.  A script that
    starts with the token [sortedmulti] and is parsed with both
    [CONTEXT_WITHIN_SH] and [CONTEXT_WITHIN_WSH] in its context flags is
    rejected, with the context error (or with "Out of memory" when its node
    cannot be allocated). *)
Theorem sortedmulti_under_sh_wsh :
  (let r := parse_body "sh(wsh(sortedmulti(1,@0)))" in
   accepted r = true
   /\ exists f_sh f_wsh f_sortedmulti,
        node_at r 4096 = Some (policy_node_with_script_t (mk_node TOKEN_SH f_sh) 4104)
        /\ node_at r 4104 = Some (policy_node_with_script_t (mk_node TOKEN_WSH f_wsh) 4112)
        /\ node_at r 4112
           = Some (policy_node_multisig_t (mk_node TOKEN_SORTEDMULTI f_sortedmulti) 1 1 4128)
        /\ node_at r 4128 = Some (size_t_cell 0)
        /\ is_miniscript f_sh = false
        /\ is_miniscript f_wsh = false
        /\ is_miniscript f_sortedmulti = false)
  /\ (forall (L : layout_t) (rec : Z -> Z -> M unit) (context_flags : Z)
             (st : pstate) (p : Z) (b' : buffer_t),
         buffer_alloc (out_buf st) (sizeof_policy_node_with_script_t L) true = (Some p, b') ->
         exists st1,
           in_buf st1 = in_buf st
           /\ parse_sh_wsh L rec TOKEN_SH 0 context_flags st
              = (rec 1 CONTEXT_WITHIN_SH ;; ret p) st1)
  /\ (forall (L : layout_t) (rec : Z -> Z -> M unit) (depth context_flags : Z)
             (st : pstate) (p : Z) (b' : buffer_t),
         depth = 0 \/ Z.land context_flags CONTEXT_WITHIN_SH <> 0 ->
         buffer_alloc (out_buf st) (sizeof_policy_node_with_script_t L) true = (Some p, b') ->
         exists st1,
           in_buf st1 = in_buf st
           /\ parse_sh_wsh L rec TOKEN_WSH depth context_flags st
              = (rec (size_t_of (depth + 1)) CONTEXT_WITHIN_WSH ;; ret p) st1)
  /\ Z.land CONTEXT_WITHIN_SH CONTEXT_WITHIN_WSH = 0
  /\ (forall (L : layout_t) (fuel : nat) (depth context_flags : Z)
             (st : pstate) (rest : cursor),
         in_buf st = bytes_of_string "sortedmulti(" ++ rest ->
         Z.land context_flags CONTEXT_WITHIN_SH <> 0 ->
         Z.land context_flags CONTEXT_WITHIN_WSH <> 0 ->
         exists msg st',
           parse_script_fuel L (S fuel) depth context_flags st = (Error msg, st')
           /\ (msg = sortedmulti_context_message \/ msg = "Out of memory"%string)).
Proof.
  split; [| split; [| split; [| split]]].
  - vm_compute. split; [reflexivity|].
    eexists _, _, _. repeat split; reflexivity.
  - intros L rec context_flags st p b' Halloc.
    exact (parse_sh_wsh_hands_one_flag L rec TOKEN_SH 0 context_flags st p b'
             (or_introl (conj eq_refl eq_refl)) Halloc).
  - intros L rec depth context_flags st p b' Hd Halloc.
    exact (parse_sh_wsh_hands_one_flag L rec TOKEN_WSH depth context_flags st p b'
             (or_intror (conj eq_refl Hd)) Halloc).
  - reflexivity.
  - exact sortedmulti_both_flags_rejected.
Qed.

Lemma sortedmulti_under_sh_wsh_witness :
  exists msg st',
    parse_script_fuel layout32 (S 20) 2 3
      (mk_pstate (bytes_of_string "sortedmulti(" ++ bytes_of_string "1,@0)")
                 (buffer_create 4096 512) ∅)
    = (Error msg, st')
    /\ (msg = sortedmulti_context_message \/ msg = "Out of memory"%string).
Proof.
  apply (proj2 (proj2 (proj2 (proj2 sortedmulti_under_sh_wsh))) layout32 20%nat 2 3
           (mk_pstate (bytes_of_string "sortedmulti(" ++ bytes_of_string "1,@0)")
                      (buffer_create 4096 512) ∅)
           (bytes_of_string "1,@0)")).
  - reflexivity.
  - vm_compute. discriminate.
  - vm_compute. discriminate.
Defined.

(** C10.  In the [sortedmulti] case, once the node is allocated, the
    context error is returned if and only if both [CONTEXT_WITHIN_SH] and
    [CONTEXT_WITHIN_WSH] are set in the context flags.  The bodies
    [sortedmulti(1,@0)], [sh(sortedmulti(..))] and [wsh(sortedmulti(..))]
    are accepted. *)
Theorem sortedmulti_context_check :
  (forall (L : layout_t) (context_flags : Z) (st : pstate) (p : Z) (b' : buffer_t),
      buffer_alloc (out_buf st) (sizeof_policy_node_multisig_t L) true = (Some p, b') ->
      fst (parse_multisig L TOKEN_SORTEDMULTI context_flags st)
      = Error "sortedmulti can only be directly under sh or wsh"
      <-> Z.land context_flags CONTEXT_WITHIN_SH <> 0
          /\ Z.land context_flags CONTEXT_WITHIN_WSH <> 0)
  /\ accepted (parse_body "sortedmulti(1,@0)") = true
  /\ accepted (parse_body "sh(sortedmulti(1,@0))") = true
  /\ accepted (parse_body "wsh(sortedmulti(1,@0))") = true
  /\ accepted (parse_body "sortedmulti(2,@0,@1,@2)") = true
  /\ accepted (parse_body "sh(sortedmulti(2,@0,@1,@2))") = true
  /\ accepted (parse_body "wsh(sortedmulti(2,@0,@1,@2))") = true.
Proof.
  split.
  - exact parse_multisig_context.
  - vm_compute. repeat split; reflexivity.
Qed.

Lemma sortedmulti_context_check_witness :
  fst (parse_multisig layout32 TOKEN_SORTEDMULTI 3
         (mk_pstate (bytes_of_string "1,@0)") (buffer_create 4096 512) ∅))
  = Error "sortedmulti can only be directly under sh or wsh".
Proof.
  apply (proj1 sortedmulti_context_check layout32 3
           (mk_pstate (bytes_of_string "1,@0)") (buffer_create 4096 512) ∅)
           4096 (mk_buffer 4096 512 16)).
  - reflexivity.
  - split; vm_compute; discriminate.
Defined.

(** ** Frame reasoning *)

Lemma pure_ret {A} (a : A) : pure_op (ret a).
Proof. intros st a' st' H. injection H as _ <-. split; reflexivity. Qed.

Lemma pure_bind {A B} (m : M A) (f : A -> M B) :
  pure_op m -> (forall a, pure_op (f a)) -> pure_op (bind m f).
Proof.
  intros Hm Hf st b st' H. apply bind_Ok in H as (a & st1 & H1 & H2).
  destruct (Hm _ _ _ H1) as [E1 E2]. destruct (Hf _ _ _ _ H2) as [E3 E4].
  split; congruence.
Qed.

Lemma pure_WITH_ERROR {A} msg : pure_op (@WITH_ERROR A msg).
Proof. intros st a st' H. discriminate. Qed.

Lemma pure_undefined {A} : pure_op (@undefined A).
Proof. intros st a st' H. discriminate. Qed.

Lemma pure_on_input {A} (f : cursor -> A * cursor) : pure_op (on_input f).
Proof.
  intros st a st' H. unfold on_input in H. destruct (f _).
  injection H as _ <-. split; reflexivity.
Qed.

Lemma pure_input_length : pure_op input_length.
Proof. intros st a st' H. injection H as _ <-. split; reflexivity. Qed.

Lemma pure_get_cur : pure_op get_cur.
Proof. intros st a st' H. injection H as _ <-. split; reflexivity. Qed.

Lemma pure_load p : pure_op (load p).
Proof.
  intros st a st' H. unfold load in H. destruct (_ !! _); [|discriminate].
  injection H as _ <-. split; reflexivity.
Qed.

Ltac pure_tac :=
  repeat first
    [ progress cbv zeta
    | apply pure_bind; [| intros ? ]
    | apply pure_ret
    | apply pure_WITH_ERROR
    | apply pure_undefined
    | apply pure_on_input
    | apply pure_input_length
    | apply pure_get_cur
    | apply pure_load
    | match goal with
      | |- pure_op (match ?x with _ => _ end) => destruct x
      end
    | progress unfold expect, miniscript_flags, read_key_index, get_flags, get_type,
        get_base, get_script, get_scripts, get_k, get_n ].

Lemma inv_pure lo m0 keep al (st st' : pstate) :
  out_buf st' = out_buf st -> mem st' = mem st ->
  inv lo m0 keep al st -> inv lo m0 keep al st'.
Proof.
  unfold inv, cur. intros -> ->. auto.
Qed.

Lemma inv_weaken lo m0 keep al st : inv lo m0 keep al st -> inv lo m0 keep false st.
Proof.
  unfold inv. intros (H1 & H2 & H3 & _). repeat split; auto. discriminate.
Qed.

Lemma alloc_padding_range b aligned : 0 <= alloc_padding b aligned < 4.
Proof.
  unfold alloc_padding. destruct aligned; [|lia].
  apply Z.mod_pos_bound. lia.
Qed.

Lemma buffer_alloc_spec b sz aligned p b' :
  buffer_alloc b sz aligned = (Some p, b') ->
  buffer_get_cur b <= p
  /\ buffer_get_cur b' = p + sz
  /\ (aligned = true -> 0 <= sz -> entry_ok b -> p = buffer_get_cur b).
Proof.
  unfold buffer_alloc, buffer_get_cur, entry_ok.
  pose proof (alloc_padding_range b aligned) as Hpad.
  destruct (_ <=? _) eqn:E; [|discriminate].
  apply Z.leb_le in E. intros H. injection H as <- <-. cbn [ptr offset size].
  split; [lia|]. split; [lia|].
  intros -> Hsz [Hal | Hfull].
  - unfold alloc_padding in *. rewrite Hal. change ((4 - 0) mod 4) with 0. lia.
  - lia.
Qed.

Lemma buffer_alloc_none b sz aligned b' :
  buffer_alloc b sz aligned = (None, b') -> b' = b.
Proof.
  unfold buffer_alloc. destruct (_ <=? _); [discriminate|].
  intros H. injection H as <-. reflexivity.
Qed.

Lemma entry_ok_after_align b r b' :
  buffer_alloc b 0 true = (r, b') -> entry_ok b'.
Proof.
  unfold buffer_alloc, entry_ok.
  destruct (_ <=? _) eqn:E; intros H; injection H as <- <-; cbn [ptr offset size].
  - left. unfold alloc_padding.
    replace (ptr b + (offset b + (4 - (ptr b + offset b) mod 4) mod 4 + 0))
      with ((ptr b + offset b) + (4 - (ptr b + offset b) mod 4) mod 4) by lia.
    generalize (ptr b + offset b). intros x.
    pose proof (Z.mod_pos_bound x 4 ltac:(lia)) as Hx.
    rewrite Z.add_mod_idemp_r by lia.
    replace (x + (4 - x mod 4)) with (x - x mod 4 + 1 * 4) by lia.
    rewrite Z.mod_add by lia.
    rewrite Zminus_mod_idemp_r. rewrite Z.sub_diag. reflexivity.
  - right. apply Z.leb_gt in E. lia.
Qed.

Lemma alloc_inv lo m0 keep al sz aligned (st st' : pstate) r :
  alloc sz aligned st = (Ok r, st') ->
  0 <= sz ->
  inv lo m0 keep al st ->
  inv lo m0 keep false st'.
Proof.
  unfold alloc. destruct (buffer_alloc _ _ _) as [[p|] b'] eqn:E; intros H Hsz Hinv;
    injection H as _ <-.
  - apply buffer_alloc_spec in E as (Hp & Hcur & _).
    destruct Hinv as (H1 & H2 & H3 & _). unfold inv, cur in *. simpl.
    repeat split; auto; try lia; try discriminate.
    destruct keep as [[q t]|]; auto. destruct H3 as (? & ? & ?).
    repeat split; auto; lia.
  - apply buffer_alloc_none in E. subst b'.
    apply inv_weaken in Hinv. destruct st; exact Hinv.
Qed.

Lemma aligned_cur_inv lo m0 keep al (st st' : pstate) c :
  aligned_cur st = (Ok c, st') ->
  inv lo m0 keep al st ->
  inv lo m0 keep true st'.
Proof.
  unfold aligned_cur. intros H Hinv.
  apply bind_Ok in H as (r & st1 & H1 & H2).
  injection H2 as _ <-.
  pose proof (alloc_inv _ _ _ _ _ _ _ _ _ H1 ltac:(lia) Hinv) as (I1 & I2 & I3 & _).
  repeat split; auto. intros _.
  unfold alloc in H1. destruct (buffer_alloc _ _ _) as [r' b'] eqn:E.
  injection H1 as _ <-. simpl. exact (entry_ok_after_align _ _ _ E).
Qed.

Lemma has_type_insert_ne m p q c t :
  p <> q -> has_type m q t -> has_type (<[p := c]> m) q t.
Proof.
  intros Hne (c' & Hc & Ht). exists c'. split; [|exact Ht].
  rewrite lookup_insert_ne by exact Hne. exact Hc.
Qed.

Lemma alloc_node_inv lo m0 keep al blank sz (st st' : pstate) p :
  alloc_node blank sz st = (Ok p, st') ->
  0 < sz ->
  inv lo m0 keep al st ->
  inv lo m0 keep false st'
  /\ lo <= p /\ p < cur st' /\ cur st <= p
  /\ mem st' !! p = Some blank
  /\ (entry_ok (out_buf st) -> p = cur st).
Proof.
  unfold alloc_node. intros H Hsz Hinv.
  apply bind_Ok in H as (r & st1 & H1 & H2).
  unfold alloc in H1. destruct (buffer_alloc _ _ _) as [[q|] b'] eqn:E;
    injection H1 as <- <-; [|discriminate].
  apply bind_Ok in H2 as ([] & st2 & H2 & H3).
  injection H3 as <- <-. injection H2 as <-.
  apply buffer_alloc_spec in E as (Hq & Hcur & Hal).
  destruct Hinv as (I1 & I2 & I3 & _). unfold inv, cur in *. simpl.
  split; [|repeat split; try lia].
  - repeat split; try lia; try discriminate.
    + intros x Hx. rewrite lookup_insert_ne by lia. auto.
    + destruct keep as [[k t]|]; auto. destruct I3 as (? & ? & ?).
      repeat split; try lia. apply has_type_insert_ne; [lia | assumption].
  - apply lookup_insert_eq.
  - intros Hok. apply Hal; auto. lia.
Qed.

Lemma inv_keep lo m0 al (st : pstate) p t :
  inv lo m0 None al st ->
  lo <= p -> p < cur st -> has_type (mem st) p t ->
  inv lo m0 (Some (p, t)) al st.
Proof.
  intros (I1 & I2 & _ & I4) Hp Hc Ht. repeat split; auto.
Qed.

Lemma modify_Ok p f (st st' : pstate) :
  modify p f st = (Ok tt, st') ->
  exists c, mem st !! p = Some c
            /\ st' = mk_pstate (in_buf st) (out_buf st) (<[p := f c]> (mem st)).
Proof.
  unfold modify. intros H. apply bind_Ok in H as (c & st1 & H1 & H2).
  unfold load in H1. destruct (mem st !! p) as [c'|] eqn:E; [|discriminate].
  injection H1 as <- <-. injection H2 as <-. exists c'. split; reflexivity.
Qed.

Lemma modify_inv lo m0 keep al p f (st st' : pstate) :
  modify p f st = (Ok tt, st') ->
  lo <= p ->
  type_preserving f ->
  inv lo m0 keep al st ->
  inv lo m0 keep al st'.
Proof.
  intros H Hp Hf (I1 & I2 & I3 & I4).
  apply modify_Ok in H as (c & Hc & ->). unfold inv, cur in *. simpl.
  repeat split; auto.
  - intros x Hx. rewrite lookup_insert_ne by lia. auto.
  - destruct keep as [[k t]|]; auto. destruct I3 as (? & ? & (c' & Hc' & Ht)).
    repeat split; auto.
    destruct (decide (p = k)) as [->|Hne].
    + exists (f c). rewrite lookup_insert_eq. split; [reflexivity|].
      rewrite Hf. congruence.
    + exists c'. rewrite lookup_insert_ne by exact Hne. auto.
Qed.

Lemma set_type_inv lo m0 al p t0 t (st st' : pstate) :
  set_type p t st = (Ok tt, st') ->
  inv lo m0 (Some (p, t0)) al st ->
  inv lo m0 (Some (p, t)) al st'.
Proof.
  intros H (I1 & I2 & (I3 & I3' & (c' & Hc' & Ht)) & I4).
  unfold set_type in H. apply modify_Ok in H as (c & Hc & ->).
  unfold inv, cur in *. simpl. repeat split; auto.
  - intros x Hx. rewrite lookup_insert_ne by lia. auto.
  - eexists. rewrite lookup_insert_eq. split; [reflexivity|].
    assert (c = c') by congruence. subst c'.
    unfold cell_type in *. destruct c; simpl in *; try discriminate; reflexivity.
Qed.

Lemma rec_inv lo m0 keep (rec : Z -> Z -> M unit) depth ctx (st st' : pstate) :
  rec_frame rec ->
  rec depth ctx st = (Ok tt, st') ->
  inv lo m0 keep true st ->
  inv lo m0 keep false st'.
Proof.
  intros Hrec H (I1 & I2 & I3 & I4).
  destruct (Hrec _ _ _ _ (I4 eq_refl) H) as (F1 & F2).
  unfold inv in *. repeat split; try lia; try discriminate.
  - intros x Hx. rewrite F2 by lia. auto.
  - destruct keep as [[k t]|]; auto. destruct I3 as (? & ? & (c & Hc & Ht)).
    repeat split; try lia. exists c. rewrite F2 by lia. auto.
Qed.

Lemma pure_inv {A} lo m0 keep al (m : M A) (st st' : pstate) a :
  pure_op m ->
  m st = (Ok a, st') ->
  inv lo m0 keep al st ->
  inv lo m0 keep al st'.
Proof.
  intros Hm H Hinv. destruct (Hm _ _ _ H) as [E1 E2].
  exact (inv_pure _ _ _ _ _ _ E1 E2 Hinv).
Qed.

Lemma alloc_node_keep lo m0 al blank sz (st st' : pstate) p t0 :
  alloc_node blank sz st = (Ok p, st') ->
  0 < sz ->
  cell_type blank = Some t0 ->
  inv lo m0 None al st ->
  inv lo m0 (Some (p, t0)) false st' /\ lo <= p.
Proof.
  intros H Hsz Ht Hinv.
  destruct (alloc_node_inv _ _ _ _ _ _ _ _ _ H Hsz Hinv) as (I & Hlo & Hcur & _ & Hmem & _).
  split; [|exact Hlo]. apply inv_keep; auto. exists blank. auto.
Qed.

Ltac layout_pos :=
  match goal with
  | HL : layout_ok _ |- _ => unfold layout_ok in HL; lia
  end.

Ltac tp_tac := let c := fresh "c" in intros c; destruct c; reflexivity.

Ltac inv_hook lo m0 keep al st st1 a H1 Hinv I := fail.

(** One step of a sequence: [H] states that the sequence returned [Ok]; the
    invariant of the current state is moved to the state after the first
    step. *)
Ltac inv_fwd H1 :=
  lazymatch type of H1 with
  | _ ?st = (Ok ?a, ?st1) =>
      lazymatch goal with
      | Hinv : inv ?lo ?m0 ?keep ?al st |- _ =>
          let I := fresh "Hinv" in
          first
            [ first
                [ lazymatch keep with None => idtac end;
                  let F := fresh "F" in
                  pose proof (alloc_node_keep lo m0 al _ _ st st1 a _ H1
                                ltac:(layout_pos) eq_refl Hinv) as F;
                  destruct F as (I & ?)
                | let F := fresh "F" in
                  pose proof (alloc_node_inv lo m0 keep al _ _ st st1 a H1
                                ltac:(layout_pos) Hinv) as F;
                  destruct F as (I & ? & ? & ? & _ & _)
                | pose proof (aligned_cur_inv lo m0 keep al st st1 a H1 Hinv) as I
                | pose proof (alloc_inv lo m0 keep al _ _ st st1 a H1 ltac:(lia) Hinv) as I
                | destruct a;
                  first
                    [ pose proof (set_type_inv lo m0 al _ _ _ st st1 H1 Hinv) as I
                    | pose proof (modify_inv lo m0 keep al _ _ st st1 H1
                                    ltac:(lia) ltac:(tp_tac) Hinv) as I
                    | match goal with
                      | Hrec : rec_frame _ |- _ =>
                          pose proof (rec_inv lo m0 keep _ _ _ st st1 Hrec H1 Hinv) as I
                      end ]
                | inv_hook lo m0 keep al st st1 a H1 Hinv I
                | lazymatch type of H1 with
                  | ?m _ = _ =>
                      let Hp := fresh "Hp" in
                      assert (Hp : pure_op m) by pure_tac;
                      pose proof (pure_inv lo m0 keep al m st st1 a Hp H1 Hinv) as I;
                      clear Hp
                  end ];
              clear Hinv
            | lazymatch type of H1 with
              | (match ?b with _ => _ end) _ = _ =>
                  destruct b; cbv beta iota in H1; try discriminate H1; inv_fwd H1
              end ]
      end
  end.

Ltac inv_done :=
  match goal with
  | Hinv : inv ?lo ?m0 ?keep _ ?st |- inv ?lo ?m0 ?keep false ?st =>
      exact (inv_weaken _ _ _ _ _ Hinv)
  end.

Ltac inv_ret H := solve [ inversion H; subst; inv_done ].

Ltac inv_branch H :=
  cbv zeta in H;
  lazymatch type of H with
  | (match ?b with _ => _ end) _ = _ => destruct b; cbv beta iota in H; try discriminate H
  end.

Ltac inv_step H :=
  let a := fresh "a" in
  let st1 := fresh "st" in
  let H1 := fresh "Hs" in
  apply bind_Ok in H as (a & st1 & H1 & H); cbv beta in H;
  inv_fwd H1.

Ltac inv_auto H := repeat (first [ inv_step H | inv_branch H ]); try inv_ret H.

Lemma apply_rule_inv lo m0 keep al node rule (st st' : pstate) :
  apply_rule node rule st = (Ok tt, st') ->
  lo <= node ->
  inv lo m0 keep al st ->
  inv lo m0 keep al st'.
Proof.
  unfold apply_rule. destruct rule as [msg|fl]; [discriminate|].
  intros H Hn Hinv. eapply modify_inv; eauto. tp_tac.
Qed.

Section Frames.

Variable L : layout_t.
Hypothesis HL : layout_ok L.
Variable rec : Z -> Z -> M unit.
Hypothesis Hrec : rec_frame rec.
Variables (lo : Z) (m0 : gmap Z cell).

Lemma parse_child_scripts_from_inv keep depth node n_children todo :
  forall child_index al st st',
    parse_child_scripts_from rec depth node n_children todo child_index st = (Ok tt, st') ->
    lo <= node ->
    inv lo m0 keep al st ->
    inv lo m0 keep false st'.
Proof.
  induction todo as [|todo IH]; intros child_index al st st' H Hnode Hinv; simpl in H.
  - inv_ret H.
  - repeat inv_step H.
    eapply IH; eauto.
Qed.

Lemma thresh_loop_inv keep depth node fuel :
  forall cur_elem count_z count_o al st st' r,
    thresh_loop L rec fuel depth node cur_elem count_z count_o st = (Ok r, st') ->
    lo <= node -> lo <= cur_elem ->
    inv lo m0 keep al st ->
    inv lo m0 keep false st'.
Proof.
  induction fuel as [|fuel IH];
    intros cur_elem count_z count_o al st st' r H Hnode Hcur Hinv; simpl in H;
    [discriminate|].
  repeat inv_step H.
  inv_branch H.
  - repeat inv_step H. eapply IH; eauto.
  - inv_ret H.
Qed.

Lemma multisig_loop_inv keep node fuel :
  forall al st st',
    multisig_loop L fuel node st = (Ok tt, st') ->
    lo <= node ->
    inv lo m0 keep al st ->
    inv lo m0 keep false st'.
Proof.
  induction fuel as [|fuel IH]; intros al st st' H Hnode Hinv; simpl in H;
    [discriminate|].
  inv_step H.
  inv_branch H.
  - inv_ret H.
  - repeat inv_step H. eapply IH; eauto.
Qed.

Ltac inv_hook lo m0 keep al st st1 a H1 Hinv I ::=
  first
    [ destruct a;
      first
        [ pose proof (apply_rule_inv lo m0 keep al _ _ st st1 H1 ltac:(lia) Hinv) as I
        | pose proof (parse_child_scripts_from_inv keep _ _ _ _ _ al st st1 H1
                        ltac:(lia) Hinv) as I
        | pose proof (multisig_loop_inv keep _ _ al st st1 H1 ltac:(lia) Hinv) as I ]
    | pose proof (thresh_loop_inv keep _ _ _ _ _ _ al st st1 a H1
                    ltac:(lia) ltac:(lia) Hinv) as I ].

Lemma parse_constant_inv token al st st' p :
  parse_constant L token st = (Ok p, st') ->
  inv lo m0 None al st ->
  inv lo m0 (Some (p, token)) false st'.
Proof. intros H Hinv. unfold parse_constant in H. inv_auto H. Qed.

Lemma parse_sh_wsh_inv token depth ctx al st st' p :
  parse_sh_wsh L rec token depth ctx st = (Ok p, st') ->
  inv lo m0 None al st ->
  inv lo m0 (Some (p, token)) false st'.
Proof. intros H Hinv. unfold parse_sh_wsh in H. inv_auto H. Qed.

Lemma parse_hash_inv token n sz msg al st st' p :
  0 < sz ->
  parse_hash token n sz msg st = (Ok p, st') ->
  inv lo m0 None al st ->
  inv lo m0 (Some (p, token)) false st'.
Proof. intros Hsz H Hinv. unfold parse_hash in H. inv_auto H. Qed.

Lemma parse_with_script2_inv token depth rule al st st' p :
  parse_with_script2 L rec token depth rule st = (Ok p, st') ->
  inv lo m0 None al st ->
  inv lo m0 (Some (p, token)) false st'.
Proof.
  intros H Hinv. unfold parse_with_script2, parse_child_scripts in H. inv_auto H.
Qed.

Lemma parse_andor_inv token depth al st st' p :
  parse_andor L rec token depth st = (Ok p, st') ->
  inv lo m0 None al st ->
  inv lo m0 (Some (p, token)) false st'.
Proof.
  intros H Hinv. unfold parse_andor, parse_child_scripts in H. inv_auto H.
Qed.

Lemma parse_thresh_inv token depth al st st' p :
  parse_thresh L rec token depth st = (Ok p, st') ->
  inv lo m0 None al st ->
  inv lo m0 (Some (p, token)) false st'.
Proof. intros H Hinv. unfold parse_thresh in H. inv_auto H. Qed.

Lemma parse_key_inv token depth ctx al st st' p :
  parse_key L token depth ctx st = (Ok p, st') ->
  inv lo m0 None al st ->
  inv lo m0 (Some (p, token)) false st'.
Proof. intros H Hinv. unfold parse_key in H. inv_auto H. Qed.

Lemma parse_tr_inv token depth al st st' p :
  parse_tr L token depth st = (Ok p, st') ->
  inv lo m0 None al st ->
  inv lo m0 (Some (p, token)) false st'.
Proof. intros H Hinv. unfold parse_tr in H. inv_auto H. Qed.

Lemma parse_older_after_inv token al st st' p :
  parse_older_after L token st = (Ok p, st') ->
  inv lo m0 None al st ->
  inv lo m0 (Some (p, token)) false st'.
Proof. intros H Hinv. unfold parse_older_after in H. inv_auto H. Qed.

Lemma parse_multisig_inv token ctx al st st' p :
  parse_multisig L token ctx st = (Ok p, st') ->
  inv lo m0 None al st ->
  inv lo m0 (Some (p, token)) false st'.
Proof. intros H Hinv. unfold parse_multisig in H. inv_auto H. Qed.

Lemma parse_node_inv token depth ctx al st st' p :
  parse_node L rec token depth ctx st = (Ok p, st') ->
  inv lo m0 None al st ->
  inv lo m0 (Some (p, token)) false st'.
Proof.
  intros H Hinv. unfold parse_node in H.
  destruct token; try discriminate H;
    eauto using parse_constant_inv, parse_sh_wsh_inv, parse_with_script2_inv,
      parse_andor_inv, parse_thresh_inv, parse_key_inv, parse_tr_inv,
      parse_older_after_inv, parse_multisig_inv.
  all: eapply parse_hash_inv; [| exact H | exact Hinv]; layout_pos.
Qed.

End Frames.

(** ** The wrapper prefix *)

Lemma wrapper_char_token (c : Z) :
  is_wrapper_char c = true -> exists t, wrapper_token c = Some t.
Proof.
  unfold is_wrapper_char. rewrite !andb_true_iff, !Z.leb_le.
  change (chr "a") with 97. change (chr "z") with 122.
  intros [[Hlo Hhi] Htab].
  assert (Hc : exists k : nat, (k < 26)%nat /\ c = 97 + Z.of_nat k).
  { exists (Z.to_nat (c - 97)). lia. }
  destruct Hc as (k & Hk & ->).
  replace (97 + Z.of_nat k - 97) with (Z.of_nat k) in Htab by lia.
  rewrite Nat2Z.id in Htab.
  do 26 (destruct k as [|k]; [first [discriminate Htab | eexists; reflexivity]|]).
  lia.
Qed.

Lemma count_wrappers_prefix (ws : list Z) (c : Z) (rest : cursor) :
  Forall (fun w => is_wrapper_char w = true) ws ->
  is_wrapper_char c = false ->
  count_wrappers (ws ++ c :: rest) = List.length ws
  /\ buffer_peek_n (ws ++ c :: rest) (List.length ws) = Some c.
Proof.
  intros Hws Hc. induction Hws as [|w ws Hw Hws IH]; simpl.
  - rewrite Hc. split; reflexivity.
  - rewrite Hw. destruct IH as [-> IH2]. split; [reflexivity | exact IH2].
Qed.

Lemma has_wrapper_prefix_colon (ws : list Z) (rest : cursor) :
  Forall (fun w => is_wrapper_char w = true) ws ->
  has_wrapper_prefix (ws ++ chr ":" :: rest) = true
  /\ count_wrappers (ws ++ chr ":" :: rest) = List.length ws.
Proof.
  intros Hws.
  destruct (count_wrappers_prefix ws (chr ":") rest Hws eq_refl) as [Hn Hp].
  unfold has_wrapper_prefix. rewrite Hn, Hp. split; reflexivity.
Qed.

Section Wrappers.

Variable L : layout_t.
Hypothesis HL : layout_ok L.

(** The wrappers after the first: [w] is the wrapper allocated last and
    [wc] its letter.  On success every letter of [ws] was read, and the
    chain from [w] closes as soon as the last wrapper is given its
    child. *)
Lemma parse_wrappers_chain (ws : list Z) :
  forall (rest : cursor) (w wc : Z) t fl s (st st' : pstate) r,
    Forall (fun c => is_wrapper_char c = true) ws ->
    in_buf st = ws ++ rest ->
    wrapper_token wc = Some t ->
    mem st !! w = Some (policy_node_with_script_t (mk_node t fl) s) ->
    w < cur st ->
    parse_wrappers L (List.length ws) (Some w) st = (Ok r, st') ->
    exists last t' fl' s',
      r = Some last
      /\ in_buf st' = rest
      /\ cur st <= cur st'
      /\ w <= last < cur st'
      /\ mem st' !! last = Some (policy_node_with_script_t (mk_node t' fl') s')
      /\ (forall x, x < w -> mem st' !! x = mem st !! x)
      /\ (forall (m' : gmap Z cell) body fl'',
             (forall x, w <= x < last -> m' !! x = mem st' !! x) ->
             m' !! last = Some (policy_node_with_script_t (mk_node t' fl'') body) ->
             last < body ->
             wrapper_chain m' w (wc :: ws) body).
Proof.
  induction ws as [|c ws IH]; intros rest w wc t fl s st st' r Hws Hin Hwc Hw Hcur H.
  - simpl in H. injection H as <- <-. simpl in Hin.
    exists w, t, fl, s. repeat split; auto; try lia.
    intros m' body fl'' _ Hlast Hlt. simpl.
    exists t, fl'', body. auto.
  - simpl in H. inversion Hws as [|? ? Hc Hws']; subst.
    apply bind_Ok in H as (p & st1 & H1 & H).
    assert (Hinv0 : inv (cur st) (mem st) None false st).
    { repeat split; auto; try lia; discriminate. }
    destruct (alloc_node_inv _ _ _ _ _ _ _ _ _ H1 ltac:(layout_pos) Hinv0)
      as (Hinv1 & Hp1 & Hp2 & _ & Hmem1 & _).
    destruct Hinv1 as (_ & Hfr1 & _ & _).
    assert (Hin1 : in_buf st1 = in_buf st).
    { unfold alloc_node in H1. apply bind_Ok in H1 as (q & sta & Ha & Hb).
      unfold alloc in Ha. destruct (buffer_alloc _ _ _) as [[q'|] b'];
        injection Ha as <- <-; [|discriminate].
      apply bind_Ok in Hb as ([] & stb & Hb & Hc'). injection Hc' as _ <-.
      injection Hb as <-. reflexivity. }
    apply bind_Ok in H as (oc & st2 & H2 & H).
    unfold on_input in H2. rewrite Hin1, Hin in H2. simpl in H2.
    injection H2 as <- <-.
    destruct (wrapper_char_token c Hc) as (tc & Htc). rewrite Htc in H.
    apply bind_Ok in H as ([] & st3 & H3 & H).
    unfold set_type in H3. apply modify_Ok in H3 as (c3 & Hc3 & ->).
    simpl in Hc3. rewrite Hmem1 in Hc3. injection Hc3 as <-.
    apply bind_Ok in H as ([] & st4 & H4 & H).
    unfold set_script in H4. apply modify_Ok in H4 as (c4 & Hc4 & ->).
    simpl in Hc4. rewrite lookup_insert_ne in Hc4 by lia.
    rewrite Hfr1 in Hc4 by lia. rewrite Hw in Hc4. injection Hc4 as <-.
    simpl in H.
    eapply IH in H; [| exact Hws' | reflexivity | exact Htc | | ].
    + destruct H as (last & t' & fl' & s' & -> & Hin' & Hc' & Hlast & Hml & Hfr & Hclose).
      exists last, t', fl', s'. unfold cur in *. simpl in *.
      repeat split; auto; try lia.
      * intros x Hx. rewrite Hfr by lia.
        rewrite !lookup_insert_ne by lia. apply Hfr1. lia.
      * intros m' body fl'' Hagree Hl Hlt.
        exists t, fl, p. repeat split; auto; try lia.
        -- rewrite Hagree by lia. rewrite Hfr by lia.
           apply lookup_insert_eq.
        -- eapply Hclose; eauto. intros x Hx. apply Hagree. lia.
    + simpl. rewrite lookup_insert_ne by lia. apply lookup_insert_eq.
    + unfold cur in *. simpl. lia.
Qed.

End Wrappers.

(** ** The flags of the wrappers *)

Lemma same_shape_refl m : same_shape m m.
Proof. intros x. reflexivity. Qed.

Lemma same_shape_trans m1 m2 m3 :
  same_shape m1 m2 -> same_shape m2 m3 -> same_shape m1 m3.
Proof. intros H12 H23 x. rewrite H23. apply H12. Qed.

Lemma erase_with_script c t fl next :
  erase c = erase (policy_node_with_script_t (mk_node t fl) next) ->
  exists fl', c = policy_node_with_script_t (mk_node t fl') next.
Proof.
  destruct c as [b|b s|b s|b k n s|s nx|b i|b k n s|b h|b n|v]; simpl; try discriminate.
  destruct b as [t' fl']. simpl. intros H. injection H as -> ->. exists fl'. reflexivity.
Qed.

Lemma erase_cell_type c c' : erase c = erase c' -> cell_type c = cell_type c'.
Proof.
  unfold cell_type.
  destruct c as [[]|[]|[]|[]| |[]|[]|[]|[]|], c' as [[]|[]|[]|[]| |[]|[]|[]|[]|];
    simpl; intros H; try discriminate; try reflexivity; injection H; intros; subst; reflexivity.
Qed.

Lemma wrapper_chain_shape m m' ws :
  same_shape m m' ->
  forall a body, wrapper_chain m a ws body -> wrapper_chain m' a ws body.
Proof.
  intros Hs. induction ws as [|w ws IH]; intros a body; simpl; [auto|].
  intros (t & fl & next & Ht & Hm & Hlt & Hc).
  specialize (Hs a). rewrite Hm in Hs. simpl in Hs.
  destruct (m' !! a) as [c'|] eqn:E; [|discriminate]. simpl in Hs.
  injection Hs as Hs. apply (erase_with_script c' t fl next) in Hs as (fl' & ->).
  exists t, fl', next. repeat split; auto.
Qed.

Lemma has_type_shape m m' p t : same_shape m m' -> has_type m p t -> has_type m' p t.
Proof.
  intros Hs (c & Hc & Ht). specialize (Hs p). rewrite Hc in Hs.
  destruct (m' !! p) as [c'|] eqn:E; [|discriminate]. simpl in Hs. injection Hs as Hs.
  exists c'. split; [exact E|]. rewrite (erase_cell_type _ _ Hs). exact Ht.
Qed.

Lemma erase_set_flags c fl :
  erase (map_base (fun b => mk_node (type b) fl) c) = erase c.
Proof. destruct c; reflexivity. Qed.

Lemma apply_rule_shape node rule (st st' : pstate) :
  apply_rule node rule st = (Ok tt, st') ->
  out_buf st' = out_buf st
  /\ same_shape (mem st) (mem st')
  /\ forall x, x <> node -> mem st' !! x = mem st !! x.
Proof.
  unfold apply_rule. destruct rule as [msg|fl]; [discriminate|].
  unfold set_flags. intros H. apply modify_Ok in H as (c & Hc & ->). simpl.
  split; [reflexivity|]. split.
  - intros x. destruct (decide (node = x)) as [<-|Hne].
    + rewrite lookup_insert_eq, Hc. simpl. rewrite erase_set_flags. reflexivity.
    + rewrite lookup_insert_ne by exact Hne. reflexivity.
  - intros x Hx. apply lookup_insert_ne. congruence.
Qed.

Lemma pure_walk_wrappers i : forall node, pure_op (walk_wrappers node i).
Proof.
  induction i as [|i IH]; intros node; simpl; [apply pure_ret|].
  apply pure_bind; [pure_tac | intros next; apply IH].
Qed.

Lemma walk_wrappers_chain i :
  forall ws a body (st st' : pstate) x,
    wrapper_chain (mem st) a ws body ->
    (i < List.length ws)%nat ->
    walk_wrappers a i st = (Ok x, st') ->
    a <= x.
Proof.
  induction i as [|i IH]; intros ws a body st st' x Hc Hi H; simpl in H.
  - injection H as <- _. lia.
  - destruct ws as [|w ws]; [simpl in Hi; lia|].
    simpl in Hc. destruct Hc as (t & fl & next & Ht & Hm & Hlt & Hc).
    apply bind_Ok in H as (nx & st1 & H1 & H).
    assert (Hp : pure_op (get_script a)) by pure_tac.
    destruct (Hp _ _ _ H1) as [E1 E2].
    unfold get_script in H1. apply bind_Ok in H1 as (c & st2 & Hl & Hr).
    unfold load in Hl. rewrite Hm in Hl. injection Hl as <- <-.
    injection Hr as <- _.
    assert (next <= x); [|lia].
    eapply (IH ws next body st1); [rewrite E2; exact Hc | simpl in Hi; lia | exact H].
Qed.

Lemma wrapper_flags_loop_spec k :
  forall ws a body (st st' : pstate),
    wrapper_chain (mem st) a ws body ->
    (k <= List.length ws)%nat ->
    wrapper_flags_loop k a st = (Ok tt, st') ->
    out_buf st' = out_buf st
    /\ same_shape (mem st) (mem st')
    /\ forall x, x < a -> mem st' !! x = mem st !! x.
Proof.
  induction k as [|i IH]; intros ws a body st st' Hc Hk H; simpl in H.
  - injection H as <-. split; [reflexivity|]. split; [apply same_shape_refl | auto].
  - apply bind_Ok in H as (node & st1 & H1 & H).
    assert (Hi : (i < List.length ws)%nat) by lia.
    pose proof (walk_wrappers_chain i ws a body st st1 node Hc Hi H1) as Hnode.
    destruct (pure_walk_wrappers _ _ _ _ _ H1) as [Eo1 Em1].
    apply bind_Ok in H as (X & st2 & H2 & H).
    assert (Hp2 : pure_op (get_script node)) by pure_tac.
    destruct (Hp2 _ _ _ H2) as [Eo2 Em2].
    apply bind_Ok in H as (fX & st3 & H3 & H).
    assert (Hp3 : pure_op (miniscript_flags X "wrappers can only be applied to miniscript"))
      by pure_tac.
    destruct (Hp3 _ _ _ H3) as [Eo3 Em3].
    apply bind_Ok in H as (t & st4 & H4 & H).
    assert (Hp4 : pure_op (get_type node)) by pure_tac.
    destruct (Hp4 _ _ _ H4) as [Eo4 Em4].
    apply bind_Ok in H as ([] & st5 & H5 & H).
    apply apply_rule_shape in H5 as (Eo5 & Es5 & Ef5).
    assert (Hm4 : mem st4 = mem st) by congruence.
    rewrite Hm4 in Es5.
    eapply IH in H; [| eapply wrapper_chain_shape; [exact Es5 | exact Hc] | lia].
    destruct H as (Eo & Es & Ef).
    split; [congruence|]. split.
    + eapply same_shape_trans; eauto.
    + intros x Hx. rewrite Ef by exact Hx. rewrite Ef5 by lia. congruence.
Qed.

(** ** The body of [parse_script] *)

Lemma wrapper_prefix_decompose (b : cursor) :
  has_wrapper_prefix b = true ->
  exists ws rest,
    b = ws ++ chr ":" :: rest
    /\ Forall (fun w => is_wrapper_char w = true) ws
    /\ List.length ws = count_wrappers b.
Proof.
  unfold has_wrapper_prefix, buffer_peek_n.
  induction b as [|c b IH]; cbn [count_wrappers]; [discriminate|].
  destruct (is_wrapper_char c) eqn:Hc; cbn [List.nth_error].
  - intros H. destruct (IH H) as (ws & rest & -> & Hws & Hlen).
    exists (c :: ws), rest. cbn [List.length app].
    split; [reflexivity|]. split; [constructor; assumption | congruence].
  - intros H. destruct (c =? chr ":") eqn:E; [|discriminate].
    apply Z.eqb_eq in E. rewrite E. exists [], b.
    split; [reflexivity|]. split; [constructor | reflexivity].
Qed.

Section Body.

Variable L : layout_t.
Hypothesis HL : layout_ok L.
Variable rec : Z -> Z -> M unit.
Hypothesis Hrec : rec_frame rec.

Lemma parse_fragment_inv lo m0 depth ctx al (st st' : pstate) p :
  parse_fragment L rec depth ctx st = (Ok p, st') ->
  inv lo m0 None al st ->
  inv lo m0 (Some (p, fst (parse_token (in_buf st)))) false st'.
Proof.
  intros H Hinv. unfold parse_fragment in H.
  apply bind_Ok in H as (token & st1 & H1 & H).
  assert (Htok : token = fst (parse_token (in_buf st))).
  { unfold on_input in H1. destruct (parse_token (in_buf st)). injection H1 as <- _.
    reflexivity. }
  inv_fwd H1. cbv zeta in H. inv_step H.
  apply bind_Ok in H as (q & st3 & H3 & H).
  pose proof (parse_node_inv L HL rec Hrec lo m0 _ _ _ _ _ _ _ H3 Hinv) as Hinv'.
  clear Hinv. inv_step H. inversion H; subst. inv_done.
Qed.

(** The steps after the wrapper prefix when there is no wrapper. *)
Lemma parse_script_tail_plain depth ctx outermost (st st' : pstate) :
  (parsed_node <- parse_fragment L rec depth ctx ;;
   rest <- on_input (fun b => (buffer_can_read b 1, b)) ;;
   (if (depth =? 0) && rest then WITH_ERROR "Input buffer too long" else ret tt) ;;
   ret tt ;;
   wrapper_flags_loop O outermost) st = (Ok tt, st') ->
  frame st st'.
Proof.
  intros H.
  assert (Hinv : inv (cur st) (mem st) None false st).
  { repeat split; auto; try lia; discriminate. }
  apply bind_Ok in H as (p & st1 & H1 & H).
  pose proof (parse_fragment_inv _ _ _ _ _ _ _ _ H1 Hinv) as Hinv1. clear Hinv.
  repeat inv_step H. simpl in H. inversion H; subst.
  lazymatch goal with
  | Hi : inv _ _ _ _ _ |- _ => destruct Hi as (I1 & I2 & _)
  end.
  split; auto.
Qed.

Lemma parse_script_body_spec depth ctx (st st' : pstate) :
  entry_ok (out_buf st) ->
  parse_script_body L rec depth ctx st = (Ok tt, st') ->
  frame st st'
  /\ forall ws rest,
      ws <> [] ->
      Forall (fun w => is_wrapper_char w = true) ws ->
      in_buf st = ws ++ chr ":" :: rest ->
      exists body,
        wrapper_chain (mem st') (cur st) ws body
        /\ has_type (mem st') body (fst (parse_token rest)).
Proof.
  intros Hentry H. unfold parse_script_body in H.
  apply bind_Ok in H as (b & st1 & H1 & H).
  unfold on_input in H1. injection H1 as <- <-.
  apply bind_Ok in H as (outermost & st2 & H2 & H).
  injection H2 as <- <-.
  apply bind_Ok in H as (wrappers & st3 & H3 & H). cbv zeta in H.
  change (buffer_get_cur (out_buf (mk_pstate (in_buf st) (out_buf st) (mem st))))
    with (cur st) in H.
  set (st0 := mk_pstate (in_buf st) (out_buf st) (mem st)) in *.
  assert (Hfr0 : forall b s, frame (mk_pstate b (out_buf st) (mem st)) s -> frame st s)
    by (intros b s Hs; exact Hs).
  destruct (has_wrapper_prefix (in_buf st)) eqn:Hpre.
  - (* a wrapper prefix *)
    destruct (wrapper_prefix_decompose _ Hpre) as (ws0 & rest0 & Hin & Hws0 & Hlen).
    apply bind_Ok in H3 as (inner & st4 & H4 & H3).
    apply bind_Ok in H3 as ([] & st5 & H5 & H3).
    injection H3 as <- <-. simpl fst in H. simpl snd in H.
    rewrite <- Hlen in H4, H.
    destruct ws0 as [|c0 ws1].
    + (* the prefix is a lone colon *)
      simpl in H4. injection H4 as <- <-.
      unfold on_input in H5. injection H5 as <-.
      split.
      * eapply Hfr0. eapply (parse_script_tail_plain depth ctx (cur st)).
        exact H.
      * intros ws rest Hne Hws Hin'.
        destruct (has_wrapper_prefix_colon ws rest Hws) as [_ Hcnt].
        rewrite <- Hin', <- Hlen in Hcnt. destruct ws; [congruence | discriminate].
    + (* at least one wrapper *)
      inversion Hws0 as [|? ? Hc0 Hws1]; subst.
      simpl in H4.
      apply bind_Ok in H4 as (p0 & sa & Ha & H4).
      assert (Hinv0 : inv (cur st) (mem st) None false st0).
      { repeat split; auto; try (unfold cur; simpl; lia); discriminate. }
      destruct (alloc_node_inv _ _ _ _ _ _ _ _ _ Ha ltac:(layout_pos) Hinv0)
        as (Hinva & _ & Hp0 & _ & Hmema & Hal).
      specialize (Hal Hentry). change (cur st0) with (cur st) in Hal. subst p0.
      destruct Hinva as (_ & Hfra & _ & _).
      assert (Hina : in_buf sa = in_buf st).
      { unfold alloc_node in Ha. apply bind_Ok in Ha as (q & sx & Hx & Hy).
        unfold alloc in Hx. destruct (buffer_alloc _ _ _) as [[q'|] b'];
          injection Hx as <- <-; [|discriminate].
        apply bind_Ok in Hy as ([] & sy & Hy & Hz). injection Hz as _ <-.
        injection Hy as <-. reflexivity. }
      apply bind_Ok in H4 as (oc & sb & Hb & H4).
      unfold on_input in Hb. rewrite Hina, Hin in Hb. simpl in Hb.
      injection Hb as <- <-.
      destruct (wrapper_char_token c0 Hc0) as (t0 & Ht0). rewrite Ht0 in H4.
      apply bind_Ok in H4 as ([] & sc & Hc & H4).
      unfold set_type in Hc. apply modify_Ok in Hc as (c3 & Hc3 & ->).
      simpl in Hc3. rewrite Hmema in Hc3. injection Hc3 as <-.
      apply bind_Ok in H4 as ([] & sd & Hd & H4).
      injection Hd as <-. simpl in H4.
      eapply (parse_wrappers_chain L HL ws1 (chr ":" :: rest0) (cur st) c0) in H4;
        [| exact Hws1 | reflexivity | exact Ht0 | simpl; apply lookup_insert_eq
         | unfold cur in *; simpl; lia ].
      destruct H4 as (last & t' & fl' & s' & -> & Hin4 & Hcur4 & Hlast & Hml & Hfr4 & Hclose).
      unfold on_input in H5. rewrite Hin4 in H5. simpl in H5. injection H5 as <-.
      (* the fragment *)
      set (st5 := mk_pstate rest0 (out_buf st4) (mem st4)) in *.
      assert (Hinv5 : inv (cur st4) (mem st4) None false st5).
      { repeat split; auto; try (unfold cur; simpl; lia); discriminate. }
      apply bind_Ok in H as (parsed & st6 & H6 & H).
      pose proof (parse_fragment_inv _ _ _ _ _ _ _ _ H6 Hinv5) as Hinv6. clear Hinv5.
      change (in_buf st5) with rest0 in Hinv6.
      repeat inv_step H.
      lazymatch goal with
      | Hi : inv _ _ _ _ ?s |- _ =>
          destruct Hi as (I1 & I2 & (I3 & I4 & I5) & _); rename s into st8
      end.
      apply bind_Ok in H as ([] & st9 & H9 & H).
      unfold set_script in H9. apply modify_Ok in H9 as (c9 & Hc9 & ->).
      rewrite I2 in Hc9 by lia. rewrite Hml in Hc9. injection Hc9 as <-.
      set (m9 := <[last := policy_node_with_script_t (mk_node t' fl') parsed]> (mem st8)) in *.
      assert (Hchain : wrapper_chain m9 (cur st) (c0 :: ws1) parsed).
      { eapply Hclose.
        - intros x Hx. unfold m9. rewrite lookup_insert_ne by lia. apply I2. lia.
        - unfold m9. apply lookup_insert_eq.
        - lia. }
      assert (Htype : has_type m9 parsed (fst (parse_token rest0))).
      { unfold m9. apply has_type_insert_ne; [lia | exact I5]. }
      eapply wrapper_flags_loop_spec in H; [| exact Hchain | simpl; lia].
      destruct H as (Eo & Es & Ef). simpl in Eo, Es, Ef.
      split.
      * split.
        -- unfold cur in *. rewrite Eo. simpl in *. lia.
        -- intros x Hx. rewrite Ef by exact Hx. unfold m9.
           rewrite lookup_insert_ne by lia. rewrite I2 by lia.
           rewrite Hfr4 by lia. simpl. rewrite lookup_insert_ne by lia.
           apply Hfra. unfold cur in *. simpl in *. lia.
      * intros ws rest Hne Hws Hin'.
        destruct (has_wrapper_prefix_colon ws rest Hws) as [_ Hcnt].
        destruct (has_wrapper_prefix_colon (c0 :: ws1) rest0 Hws0) as [_ Hcnt0].
        assert (Hl : List.length ws = List.length (c0 :: ws1)) by congruence.
        rewrite Hin in Hin'.
        assert (Heq : c0 :: ws1 = ws /\ chr ":" :: rest0 = chr ":" :: rest).
        { apply app_inj_1; [congruence | exact Hin']. }
        destruct Heq as [<- Heq]. injection Heq as <-.
        exists parsed. split.
        -- eapply wrapper_chain_shape; eauto.
        -- eapply has_type_shape; eauto.
  - (* no wrapper prefix *)
    injection H3 as <- <-. simpl fst in H. simpl snd in H.
    split.
    + eapply Hfr0. eapply (parse_script_tail_plain depth ctx (cur st)). exact H.
    + intros ws rest Hne Hws Hin'.
      destruct (has_wrapper_prefix_colon ws rest Hws) as [Hp _].
      rewrite <- Hin' in Hp. congruence.
Qed.

End Body.

(** ** [parse_script] *)

Lemma parse_script_fuel_frame (L : layout_t) (fuel : nat) :
  layout_ok L -> rec_frame (parse_script_fuel L fuel).
Proof.
  intros HL. induction fuel as [|fuel IH]; intros depth ctx st st' Hentry H; simpl in H.
  - discriminate.
  - exact (proj1 (parse_script_body_spec L HL _ IH depth ctx st st' Hentry H)).
Qed.

Lemma aligned_entry_ok (b : buffer_t) : buffer_get_cur b mod 4 = 0 -> entry_ok b.
Proof. intros H. left. exact H. Qed.

(** C3.  When [parse_script] accepts an input that starts with the wrapper
    letters [ws] (at least one) followed by a colon, the node at the start
    of the arena, which is the root of the script, is the wrapper of the
    first letter, the [script] field of each wrapper points to the wrapper
    of the next letter, and the [script] field of the last one points to
    the node of the token that follows the colon.  In particular the body
    [c:pk_k(@0)] is accepted: its root is a [C] node with the flags
    [B], [z = 0], [o = 1], [n = 1], [d = 1], [u = 1], and the child of the
    root is the [PK_K] node. *)
Theorem wrapper_prefix_chain :
  (forall (L : layout_t) (fuel : nat) (depth context_flags : Z) (st st' : pstate)
          (ws : list Z) (rest : cursor),
      layout_ok L ->
      ws <> [] ->
      Forall (fun w => is_wrapper_char w = true) ws ->
      in_buf st = ws ++ chr ":" :: rest ->
      buffer_get_cur (out_buf st) mod 4 = 0 ->
      parse_script_fuel L fuel depth context_flags st = (Ok tt, st') ->
      exists body,
        wrapper_chain (mem st') (buffer_get_cur (out_buf st)) ws body
        /\ has_type (mem st') body (fst (parse_token rest)))
  /\ (let r := parse_body "c:pk_k(@0)" in
      accepted r = true
      /\ node_at r 4096
         = Some (policy_node_with_script_t
                   (mk_node TOKEN_C
                      (mk_flags true MINISCRIPT_TYPE_B false true true true true))
                   4104)
      /\ node_at r 4104 = Some (policy_node_with_key_t (mk_node TOKEN_PK_K flags_pk_k) 0)).
Proof.
  split.
  - intros L fuel depth ctx st st' ws rest HL Hne Hws Hin Hal H.
    destruct fuel as [|fuel]; [discriminate|]. simpl in H.
    exact (proj2 (parse_script_body_spec L HL _ (parse_script_fuel_frame L fuel HL)
                    depth ctx st st' (aligned_entry_ok _ Hal) H)
             ws rest Hne Hws Hin).
  - vm_compute. repeat split; reflexivity.
Qed.

(** The same at the entry point: the root of the chain is the start of the
    output region. *)
Lemma parse_policy_map_wrapper_chain
    (L : layout_t) (out out_len : Z) (st st' : pstate) (ws : list Z) (rest : cursor) :
  layout_ok L ->
  ws <> [] ->
  Forall (fun w => is_wrapper_char w = true) ws ->
  in_buf st = ws ++ chr ":" :: rest ->
  parse_policy_map L out out_len st = (Ok tt, st') ->
  exists body,
    wrapper_chain (mem st') out ws body
    /\ has_type (mem st') body (fst (parse_token rest)).
Proof.
  intros HL Hne Hws Hin H. unfold parse_policy_map in H.
  destruct (out mod 4 =? 0) eqn:Hal; [|discriminate]. apply Z.eqb_eq in Hal.
  cbn [negb] in H. unfold bind at 1 in H. unfold parse_script, bind, input_length in H.
  cbn [in_buf] in H.
  set (st0 := mk_pstate (in_buf st) (buffer_create out out_len) (mem st)) in *.
  assert (Hcur : buffer_get_cur (out_buf st0) = out).
  { unfold st0, buffer_get_cur, buffer_create. simpl. lia. }
  cbn [parse_script_fuel] in H.
  assert (Hentry : entry_ok (out_buf st0)).
  { apply aligned_entry_ok. rewrite Hcur. exact Hal. }
  destruct (proj2 (parse_script_body_spec L HL _
                     (parse_script_fuel_frame L (List.length (in_buf st)) HL)
                     0 0 st0 st' Hentry H) ws rest Hne Hws Hin) as (body & Hc & Ht).
  exists body. unfold cur in Hc. rewrite Hcur in Hc. split; assumption.
Qed.

Lemma layout32_ok : layout_ok layout32.
Proof. unfold layout_ok, layout32. simpl. lia. Qed.

Lemma wrapper_prefix_chain_witness :
  let st := mk_pstate (bytes_of_string "vc:pk_k(@0)") (buffer_create 4096 512) ∅ in
  exists body,
    wrapper_chain (mem (snd (parse_script_fuel layout32 12 0 0 st)))
      (buffer_get_cur (out_buf st)) [chr "v"; chr "c"] body
    /\ has_type (mem (snd (parse_script_fuel layout32 12 0 0 st))) body
         (fst (parse_token (bytes_of_string "pk_k(@0)"))).
Proof.
  intros st.
  apply (proj1 wrapper_prefix_chain layout32 12%nat 0 0 st
           (snd (parse_script_fuel layout32 12 0 0 st))
           [chr "v"; chr "c"] (bytes_of_string "pk_k(@0)")).
  - exact layout32_ok.
  - discriminate.
  - repeat constructor.
  - reflexivity.
  - reflexivity.
  - vm_compute. reflexivity.
Defined.

(** ** Decimal numbers *)

Lemma is_digit_range (d : Z) : is_digit d = true -> 0 <= d - chr "0" <= 9.
Proof.
  unfold is_digit. rewrite andb_true_iff, !Z.leb_le.
  change (chr "0") with 48. change (chr "9") with 57. lia.
Qed.

Lemma decimal_value_ge (ds : list Z) :
  forall r, Forall (fun d => is_digit d = true) ds -> 0 <= r -> r <= decimal_value ds r.
Proof.
  induction ds as [|d ds IH]; intros r Hds Hr.
  - unfold decimal_value. simpl. lia.
  - inversion Hds as [|? ? Hd Hds']; subst.
    pose proof (is_digit_range d Hd) as Hrange.
    specialize (IH (10 * r + (d - chr "0")) Hds' ltac:(lia)).
    change (decimal_value (d :: ds) r) with (decimal_value ds (10 * r + (d - chr "0"))).
    lia.
Qed.

Lemma parse_unsigned_decimal_loop_exact (ds : list Z) (rest : cursor) :
  forall r k,
    Forall (fun d => is_digit d = true) ds ->
    no_digit_ahead rest ->
    0 <= r -> 0 <= k ->
    decimal_value ds r <= SIZE_MAX ->
    (k = 0 -> match ds with d :: _ :: _ => d <> chr "0" | _ => True end) ->
    (k = 1 -> r <> 0 \/ ds = []) ->
    parse_unsigned_decimal_loop (ds ++ rest) r k
    = (Some (decimal_value ds r, k + Z.of_nat (List.length ds)), rest).
Proof.
  induction ds as [|d ds IH]; intros r k Hds Hrest Hr Hk Hmax H0 H1.
  - cbn [app List.length decimal_value List.fold_left]. change (Z.of_nat 0) with 0.
    rewrite Z.add_0_r.
    destruct rest as [|c rest]; cbn [parse_unsigned_decimal_loop]; [reflexivity|].
    simpl in Hrest. rewrite Hrest. reflexivity.
  - inversion Hds as [|? ? Hd Hds']; subst.
    pose proof (is_digit_range d Hd) as Hrange.
    pose proof (decimal_value_ge ds (10 * r + (d - chr "0")) Hds' ltac:(lia)) as Hge.
    change (decimal_value (d :: ds) r) with (decimal_value ds (10 * r + (d - chr "0"))) in *.
    cbn [app parse_unsigned_decimal_loop]. rewrite Hd. cbv zeta.
    assert (E1 : (k + 1 =? 2) && (r =? 0) = false).
    { destruct (k + 1 =? 2) eqn:Ek; [|reflexivity]. apply Z.eqb_eq in Ek.
      destruct (H1 ltac:(lia)) as [Hr0 | Hnil]; [|discriminate].
      apply Z.eqb_neq in Hr0. rewrite Hr0. reflexivity. }
    rewrite E1.
    assert (E2 : size_t_of (10 * r + (d - chr "0")) = 10 * r + (d - chr "0")).
    { unfold size_t_of. apply Z.mod_small. unfold SIZE_MAX in Hmax. lia. }
    rewrite E2.
    assert (E3 : (10 * r + (d - chr "0") <? r) = false) by (apply Z.ltb_ge; lia).
    rewrite E3.
    rewrite IH; try assumption; try lia.
    + f_equal. f_equal. f_equal. cbn [List.length]. lia.
    + intros Hk1. assert (k = 0) by lia.
      destruct ds as [|d' ds']; [right; reflexivity|].
      left. specialize (H0 ltac:(assumption)). cbv iota in H0.
      change (chr "0") with 48 in *. lia.
Qed.

(** A well-formed run of digits whose value fits in a [size_t] is read in
    full, with its exact value. *)
Lemma parse_unsigned_decimal_exact (ds : list Z) (rest : cursor) :
  well_formed_decimal ds ->
  no_digit_ahead rest ->
  decimal_value ds 0 <= SIZE_MAX ->
  parse_unsigned_decimal (ds ++ rest) = (Some (decimal_value ds 0), rest).
Proof.
  intros (Hds & Hne & Hlead) Hrest Hmax. unfold parse_unsigned_decimal.
  rewrite (parse_unsigned_decimal_loop_exact ds rest 0 0); try assumption; try lia.
  - destruct (0 + Z.of_nat (List.length ds) =? 0) eqn:E; [|reflexivity].
    apply Z.eqb_eq in E. destruct ds; [congruence | simpl in E; lia].
  - intros _. exact Hlead.
Qed.

(** Without a digit at the position, the parse fails. *)
Lemma parse_unsigned_decimal_no_digit (b : cursor) :
  no_digit_ahead b -> parse_unsigned_decimal b = (None, b).
Proof.
  intros H. unfold parse_unsigned_decimal.
  destruct b as [|c b]; simpl; [reflexivity|]. simpl in H. rewrite H. reflexivity.
Qed.

(** A zero followed by a digit fails, at the second digit. *)
Lemma parse_unsigned_decimal_leading_zero (d : Z) (rest : cursor) :
  is_digit d = true ->
  parse_unsigned_decimal (chr "0" :: d :: rest) = (None, d :: rest).
Proof.
  intros Hd. unfold parse_unsigned_decimal. cbn [parse_unsigned_decimal_loop].
  change (is_digit (chr "0")) with true. cbv iota zeta.
  change ((0 + 1 =? 2) && (0 =? 0)) with false. cbv iota.
  change (size_t_of (10 * 0 + (chr "0" - chr "0"))) with 0.
  change (0 <? 0) with false. cbv iota.
  rewrite Hd. reflexivity.
Qed.

(** ** The range test of [older] and [after] *)

Lemma run_alloc_node {B} blank sz (k : Z -> M B) (st : pstate) p b' :
  buffer_alloc (out_buf st) sz true = (Some p, b') ->
  bind (alloc_node blank sz) k st
  = k p (mk_pstate (in_buf st) b' (<[p := blank]> (mem st))).
Proof.
  intros H. unfold alloc_node, alloc, bind, store. rewrite H. reflexivity.
Qed.

Lemma run_modify {B} p f c (k : unit -> M B) (st : pstate) :
  mem st !! p = Some c ->
  bind (modify p f) k st
  = k tt (mk_pstate (in_buf st) (out_buf st) (<[p := f c]> (mem st))).
Proof.
  intros H. unfold modify, load, store, bind. rewrite H. reflexivity.
Qed.

(** Once the node is allocated and the number is read as [n], the node is
    accepted if and only if [1 <= n < 2^31]; it then holds [n] and the flags
    [B], [z = 1], [o = 0], [n = 0], [d = 0], [u = 0]. *)
Lemma parse_older_after_range (L : layout_t) (token : PolicyNodeType) (st : pstate)
    (p : Z) (b' : buffer_t) (n : Z) (rest : cursor) :
  buffer_alloc (out_buf st) (sizeof_policy_node_with_uint32_t L) true = (Some p, b') ->
  parse_unsigned_decimal (in_buf st) = (Some n, rest) ->
  (1 <= n < 2 ^ 31 ->
   parse_older_after L token st
   = (Ok p, mk_pstate rest b'
              (<[p := policy_node_with_uint32_t (mk_node token flags_older) n]> (mem st))))
  /\ (~ (1 <= n < 2 ^ 31) ->
      exists st',
        parse_older_after L token st
        = (Error "n must satisfy 1 <= n < 2^31 in older/after", st')).
Proof.
  intros Halloc Hdec.
  assert (Hrun :
      parse_older_after L token st
      = (if (n <? 1) || (2 ^ 31 <=? n)
         then WITH_ERROR "n must satisfy 1 <= n < 2^31 in older/after"
         else set_flags p flags_older ;; ret p)
          (mk_pstate rest b'
             (<[p := policy_node_with_uint32_t (mk_node token (flags blank_node)) n]>
                (mem st)))).
  { unfold parse_older_after.
    rewrite (run_alloc_node _ _ _ _ _ _ Halloc).
    unfold set_type. erewrite run_modify by (simpl; apply lookup_insert_eq).
    erewrite run_on_input by (simpl; exact Hdec). cbv beta iota.
    unfold set_n. erewrite run_modify by (simpl; apply lookup_insert_eq).
    unfold get_n, bind at 1, bind at 1, load at 1. simpl mem.
    rewrite lookup_insert_eq. cbv beta iota. unfold ret at 1. cbv beta iota.
    simpl. rewrite !insert_insert_eq. reflexivity. }
  rewrite Hrun. clear Hrun. split.
  - intros Hn.
    assert (E : (n <? 1) || (2 ^ 31 <=? n) = false).
    { apply orb_false_iff. rewrite Z.ltb_ge, Z.leb_gt. lia. }
    rewrite E. unfold set_flags. erewrite run_modify by (simpl; apply lookup_insert_eq).
    unfold ret. simpl. rewrite insert_insert_eq. reflexivity.
  - intros Hn.
    assert (E : (n <? 1) || (2 ^ 31 <=? n) = true).
    { apply orb_true_iff. rewrite Z.ltb_lt, Z.leb_le. lia. }
    rewrite E. eexists. reflexivity.
Qed.

(** X14.  For [older] and [after], once the node is allocated: a canonical
    decimal argument that fits in a [size_t] is accepted exactly when it is
    in [1, 2^31). *)
Theorem parse_older_after_in_range (L : layout_t) (token : PolicyNodeType) (st : pstate)
    (p : Z) (b' : buffer_t) (ds : list Z) (rest : cursor) :
  buffer_alloc (out_buf st) (sizeof_policy_node_with_uint32_t L) true = (Some p, b') ->
  in_buf st = ds ++ rest ->
  well_formed_decimal ds ->
  no_digit_ahead rest ->
  decimal_value ds 0 <= SIZE_MAX ->
  (exists st', parse_older_after L token st = (Ok p, st'))
  <-> 1 <= decimal_value ds 0 < 2 ^ 31.
Proof.
  intros Halloc Hin Hwf Hrest Hmax.
  pose proof (parse_unsigned_decimal_exact ds rest Hwf Hrest Hmax) as Hdec.
  rewrite <- Hin in Hdec.
  destruct (parse_older_after_range L token st p b' _ rest Halloc Hdec) as [Hyes Hno].
  split.
  - intros (st' & Hok).
    destruct (Z_le_dec 1 (decimal_value ds 0)) as [H1|H1];
      [destruct (Z_lt_dec (decimal_value ds 0) (2 ^ 31)) as [H2|H2]|]; [lia | |].
    + destruct (Hno ltac:(lia)) as (st'' & Herr). congruence.
    + destruct (Hno ltac:(lia)) as (st'' & Herr). congruence.
  - intros Hn. eexists. apply Hyes. exact Hn.
Qed.

Lemma parse_older_after_in_range_witness :
  let st := mk_pstate (bytes_of_string "144)") (buffer_create 4096 512) ∅ in
  (exists st', parse_older_after layout32 TOKEN_OLDER st = (Ok 4096, st'))
  <-> 1 <= decimal_value (bytes_of_string "144") 0 < 2 ^ 31.
Proof.
  intros st.
  apply (parse_older_after_in_range layout32 TOKEN_OLDER st 4096 (mk_buffer 4096 512 8)
           (bytes_of_string "144") [chr ")"]).
  - reflexivity.
  - reflexivity.
  - repeat split; [repeat constructor | discriminate | discriminate].
  - reflexivity.
  - vm_compute. discriminate.
Defined.

(** ** The recursion bound is never exhausted *)

Lemma quiet_ret {A} (a : A) : quiet (ret a).
Proof. intros st r st' H. injection H as <- <-. split; [discriminate | reflexivity]. Qed.

Lemma quiet_WITH_ERROR {A} msg : quiet (@WITH_ERROR A msg).
Proof. intros st r st' H. injection H as <- <-. split; [discriminate | reflexivity]. Qed.

Lemma quiet_undefined {A} : quiet (@undefined A).
Proof. intros st r st' H. injection H as <- <-. split; [discriminate | reflexivity]. Qed.

Lemma quiet_bind {A B} (m : M A) (f : A -> M B) :
  quiet m -> (forall a, quiet (f a)) -> quiet (bind m f).
Proof.
  intros Hm Hf st r st' H. unfold bind in H.
  destruct (m st) as [[a|msg| |] st1] eqn:E; destruct (Hm _ _ _ E) as [Hne Hin].
  - destruct (Hf _ _ _ _ H) as [Hne' Hin']. split; [exact Hne' | congruence].
  - injection H as <- <-. split; [discriminate | exact Hin].
  - congruence.
  - injection H as <- <-. split; [discriminate | exact Hin].
Qed.

Lemma quiet_get_cur : quiet get_cur.
Proof. intros st r st' H. injection H as <- <-. split; [discriminate | reflexivity]. Qed.

Lemma quiet_input_length : quiet input_length.
Proof. intros st r st' H. injection H as <- <-. split; [discriminate | reflexivity]. Qed.

Lemma quiet_alloc sz al : quiet (alloc sz al).
Proof.
  intros st r st' H. unfold alloc in H. destruct (buffer_alloc _ _ _).
  injection H as <- <-. split; [discriminate | reflexivity].
Qed.

Lemma quiet_load p : quiet (load p).
Proof.
  intros st r st' H. unfold load in H.
  destruct (_ !! _); injection H as <- <-; split; try discriminate; reflexivity.
Qed.

Lemma quiet_store p c : quiet (store p c).
Proof. intros st r st' H. injection H as <- <-. split; [discriminate | reflexivity]. Qed.

Ltac quiet_tac :=
  repeat first
    [ progress cbv zeta
    | apply quiet_bind; [| intros ? ]
    | apply quiet_ret
    | apply quiet_WITH_ERROR
    | apply quiet_undefined
    | apply quiet_get_cur
    | apply quiet_input_length
    | apply quiet_alloc
    | apply quiet_load
    | apply quiet_store
    | match goal with
      | |- quiet (match ?x with _ => _ end) => destruct x
      end
    | progress unfold alloc_node, aligned_cur, modify, set_type, set_flags,
        set_not_miniscript, get_base, get_flags, get_type, set_script, get_script,
        set_scripts, get_scripts, set_k, get_k, set_n, get_n, set_scriptlist, set_next,
        set_key_index, set_key_indexes, set_h, miniscript_flags, apply_rule ].

Lemma total_quiet {A} N (m : M A) : quiet m -> total N m.
Proof.
  intros Hq st r st' _ H. destruct (Hq _ _ _ H) as [Hne Hin].
  split; [exact Hne|]. intros _. unfold unread. rewrite Hin. lia.
Qed.

Lemma total_mono {A} N N' (m : M A) : total N m -> (N' <= N)%nat -> total N' m.
Proof. intros H Hle st r st' Hst. apply H. lia. Qed.

Lemma consuming_mono {A} N N' (m : M A) : consuming N m -> (N' <= N)%nat -> consuming N' m.
Proof. intros H Hle st r st' Hst. apply H. lia. Qed.

Lemma consuming_total {A} N (m : M A) : consuming N m -> total N m.
Proof.
  intros H st r st' Hst E. destruct (H _ _ _ Hst E) as [Hne Hlt].
  split; [exact Hne|]. intros Hok. specialize (Hlt Hok). lia.
Qed.

Lemma total_bind {A B} N (m : M A) (f : A -> M B) :
  total N m -> (forall a, total N (f a)) -> total N (bind m f).
Proof.
  intros Hm Hf st r st' Hst H. unfold bind in H.
  destruct (m st) as [[a|msg| |] st1] eqn:E; destruct (Hm _ _ _ Hst E) as [Hne Hle].
  - specialize (Hle I).
    destruct (Hf a st1 r st' ltac:(lia) H) as [Hne' Hle'].
    split; [exact Hne'|]. intros Hok. specialize (Hle' Hok). lia.
  - injection H as <- <-. split; [discriminate | intros []].
  - congruence.
  - injection H as <- <-. split; [discriminate | intros []].
Qed.

(** After a step that consumes input, the rest runs under a smaller
    bound. *)
Lemma consuming_bind {A B} N (m : M A) (f : A -> M B) :
  consuming N m ->
  (forall a N', (N' < N)%nat -> total N' (f a)) ->
  consuming N (bind m f).
Proof.
  intros Hm Hf st r st' Hst H. unfold bind in H.
  destruct (m st) as [[a|msg| |] st1] eqn:E; destruct (Hm _ _ _ Hst E) as [Hne Hlt].
  - specialize (Hlt I).
    destruct (Hf a (unread st1) ltac:(lia) st1 r st' ltac:(lia) H) as [Hne' Hle'].
    split; [exact Hne'|]. intros Hok. specialize (Hle' Hok). lia.
  - injection H as <- <-. split; [discriminate | intros []].
  - congruence.
  - injection H as <- <-. split; [discriminate | intros []].
Qed.

Lemma total_then_consuming {A B} N (m : M A) (f : A -> M B) :
  total N m -> (forall a, consuming N (f a)) -> consuming N (bind m f).
Proof.
  intros Hm Hf st r st' Hst H. unfold bind in H.
  destruct (m st) as [[a|msg| |] st1] eqn:E; destruct (Hm _ _ _ Hst E) as [Hne Hle].
  - specialize (Hle I).
    destruct (Hf a st1 r st' ltac:(lia) H) as [Hne' Hlt'].
    split; [exact Hne'|]. intros Hok. specialize (Hlt' Hok). lia.
  - injection H as <- <-. split; [discriminate | intros []].
  - congruence.
  - injection H as <- <-. split; [discriminate | intros []].
Qed.

(** The bound of a loop is taken from the number of unread bytes. *)
Lemma total_input_length {B} N (k : nat -> M B) :
  (forall n, (n <= N)%nat -> total n (k n)) -> total N (bind input_length k).
Proof.
  intros Hk st r st' Hst H. unfold bind, input_length in H.
  exact (Hk (unread st) Hst st r st' ltac:(lia) H).
Qed.

Lemma total_on_input {A} N (f : cursor -> A * cursor) : forward f -> total N (on_input f).
Proof.
  intros Hf st r st' _ H. unfold on_input in H. specialize (Hf (in_buf st)).
  destruct (f (in_buf st)) as [a b]. injection H as <- <-.
  split; [discriminate|]. intros _. exact Hf.
Qed.

Lemma consume_character_cons x b c :
  consume_character (x :: b) c = if x =? c then (true, b) else (false, x :: b).
Proof. unfold consume_character. simpl. destruct (x =? c); reflexivity. Qed.

Lemma forward_consume_character c : forward (fun b => consume_character b c).
Proof.
  intros b. destruct b as [|x b]; [simpl; lia|].
  rewrite consume_character_cons. destruct (x =? c); simpl; lia.
Qed.

Lemma consuming_expect N c msg : consuming N (expect c msg).
Proof.
  intros st r st' _ H. unfold expect, bind, on_input in H.
  unfold unread. destruct (in_buf st) as [|x b] eqn:E.
  - simpl in H. injection H as <- <-. split; [discriminate | intros []].
  - rewrite consume_character_cons in H.
    destruct (x =? c); simpl in H; injection H as <- <-.
    + split; [discriminate|]. intros _. simpl. lia.
    + split; [discriminate | intros []].
Qed.

Lemma forward_read_token n : forall b, (List.length (snd (read_token b n)) <= List.length b)%nat.
Proof.
  induction n as [|n IH]; intros b; destruct b as [|c b];
    cbn [read_token snd List.length]; try lia.
  destruct (is_alphanumeric c || (c =? chr "_")); cbn [snd List.length]; [|lia].
  specialize (IH b). destruct (read_token b n). cbn [snd] in *. lia.
Qed.

Lemma forward_parse_token : forward parse_token.
Proof.
  intros b. unfold parse_token.
  pose proof (forward_read_token MAX_TOKEN_LENGTH b) as H.
  destruct (read_token b MAX_TOKEN_LENGTH). exact H.
Qed.

Lemma forward_parse_unsigned_decimal_loop b :
  forall r k, (List.length (snd (parse_unsigned_decimal_loop b r k)) <= List.length b)%nat.
Proof.
  induction b as [|c b IH]; intros r k; cbn [parse_unsigned_decimal_loop snd List.length];
    [lia|].
  destruct (is_digit c); cbn [snd List.length]; [|lia]. cbv zeta.
  destruct ((k + 1 =? 2) && (r =? 0)); cbn [snd List.length]; [lia|].
  destruct (_ <? r); cbn [snd List.length]; [lia|].
  specialize (IH (size_t_of (10 * r + (c - chr "0"))) (k + 1)). lia.
Qed.

Lemma forward_parse_unsigned_decimal : forward parse_unsigned_decimal.
Proof.
  intros b. unfold parse_unsigned_decimal.
  pose proof (forward_parse_unsigned_decimal_loop b 0 0) as H.
  destruct (parse_unsigned_decimal_loop b 0 0) as [[[r k]|] b']; simpl in *; [|exact H].
  destruct (k =? 0); exact H.
Qed.

Lemma forward_parse_key_index : forward parse_key_index.
Proof.
  intros b. unfold parse_key_index, buffer_read_u8.
  destruct b as [|c b]; cbn [snd List.length]; [lia|].
  destruct (negb (c =? chr "@")); cbn [snd List.length]; [lia|].
  pose proof (forward_parse_unsigned_decimal b) as H.
  destruct (parse_unsigned_decimal b) as [[k|] b']; cbn [snd List.length] in *; lia.
Qed.

Lemma forward_read_hex_pairs n :
  forall b, (List.length (snd (read_hex_pairs b n)) <= List.length b)%nat.
Proof.
  induction n as [|n IH]; intros b; destruct b as [|c1 [|c2 b]];
    cbn [read_hex_pairs snd List.length]; try lia.
  destruct (negb (is_lowercase_hex c1) || negb (is_lowercase_hex c2));
    cbn [snd List.length]; [lia|].
  specialize (IH b). destruct (read_hex_pairs b n) as [[h|] b']; cbn [snd] in *; lia.
Qed.

Lemma forward_buffer_read_hex_hash n : forward (fun b => buffer_read_hex_hash b n).
Proof.
  intros b. unfold buffer_read_hex_hash.
  destruct (negb (buffer_can_read b (2 * n))); [simpl; lia|].
  apply forward_read_hex_pairs.
Qed.

Lemma forward_buffer_read_u8 : forward buffer_read_u8.
Proof. intros b. destruct b; simpl; lia. Qed.

Lemma forward_same {A} (g : cursor -> A) : forward (fun b => (g b, b)).
Proof. intros b. simpl. lia. Qed.

Lemma forward_seek {A} (a : A) n : forward (fun b => (a, buffer_seek_cur b n)).
Proof.
  intros b. simpl. unfold buffer_seek_cur.
  destruct (buffer_can_read b n); [rewrite List.length_skipn|]; lia.
Qed.

Lemma total_read_key_index N msg : total N (read_key_index msg).
Proof.
  unfold read_key_index. apply total_bind.
  - apply total_on_input, forward_parse_key_index.
  - intros k. apply total_quiet. quiet_tac.
Qed.

Lemma total_expect N c msg : total N (expect c msg).
Proof. apply consuming_total, consuming_expect. Qed.

Ltac total_leaf :=
  first
    [ apply total_expect
    | apply total_read_key_index
    | apply total_on_input;
      first [ apply forward_parse_token | apply forward_parse_unsigned_decimal
            | apply forward_parse_key_index | apply forward_buffer_read_hex_hash
            | apply forward_buffer_read_u8 | apply forward_consume_character
            | apply (forward_same (fun b => b)) | apply forward_same | apply forward_seek ]
    | apply total_quiet; solve [ quiet_tac ] ].

Ltac total_hook := fail.

Ltac total_tac :=
  repeat first
    [ progress cbv zeta
    | total_hook
    | total_leaf
    | apply total_input_length; intros ? ?
    | apply total_bind; [| intros ? ]
    | match goal with
      | |- total _ (match ?x with _ => _ end) => destruct x
      end ].

Section Totality.

Variable L : layout_t.
Variable rec : Z -> Z -> M unit.
Variable N : nat.
Hypothesis Hrec : forall depth ctx, consuming N (rec depth ctx).

Lemma total_rec n depth ctx : (n <= N)%nat -> total n (rec depth ctx).
Proof. intros Hn. eapply total_mono; [apply consuming_total, Hrec | exact Hn]. Qed.

Lemma total_parse_child_scripts_from depth node n_children todo :
  forall child_index n,
    (n <= N)%nat ->
    total n (parse_child_scripts_from rec depth node n_children todo child_index).
Proof.
  induction todo as [|todo IH]; intros child_index n Hn; simpl.
  - apply total_quiet. quiet_tac.
  - apply total_bind; [total_leaf | intros child].
    apply total_bind; [total_leaf | intros _].
    apply total_bind; [apply total_rec; exact Hn | intros _].
    apply total_bind; [total_tac | intros _].
    apply IH. exact Hn.
Qed.

Lemma total_thresh_loop depth node fuel :
  forall cur_elem count_z count_o n,
    (n <= N)%nat -> (n < fuel)%nat ->
    total n (thresh_loop L rec fuel depth node cur_elem count_z count_o).
Proof.
  induction fuel as [|fuel IH]; intros cur_elem count_z count_o n Hn Hf; [lia|].
  simpl.
  apply total_bind; [total_leaf | intros n0].
  apply total_bind; [total_leaf | intros _].
  apply total_bind; [total_leaf | intros child].
  apply total_bind; [total_leaf | intros _].
  apply consuming_total, consuming_bind.
  - eapply consuming_mono; [apply Hrec | exact Hn].
  - intros _ n' Hn'.
    apply total_bind; [total_leaf | intros script].
    apply total_bind; [total_leaf | intros X].
    apply total_bind; [total_leaf | intros n1].
    apply total_bind; [total_tac | intros _].
    apply total_bind; [total_tac | intros _]. cbv zeta.
    apply total_bind; [total_leaf | intros more].
    destruct more; [|total_leaf].
    apply total_bind; [total_leaf | intros next].
    apply total_bind; [total_leaf | intros _].
    apply total_bind; [total_leaf | intros _].
    apply IH; lia.
Qed.

Lemma total_multisig_loop node fuel :
  forall n, (n < fuel)%nat -> total n (multisig_loop L fuel node).
Proof.
  induction fuel as [|fuel IH]; intros n Hf; [lia|].
  simpl.
  apply total_bind; [total_leaf | intros c].
  match goal with
  | |- total _ (if ?b then _ else _) => destruct b; [total_leaf|]
  end.
  apply consuming_total, consuming_bind; [apply consuming_expect|].
  intros _ n' Hn'.
  apply total_bind; [total_leaf | intros key_index].
  apply total_bind; [total_leaf | intros key_index_out].
  apply total_bind; [total_leaf | intros n0].
  apply total_bind; [total_leaf | intros _].
  apply IH. lia.
Qed.

Ltac total_hook ::=
  first
    [ apply total_rec; lia
    | apply total_parse_child_scripts_from; lia
    | apply total_thresh_loop; lia
    | apply total_multisig_loop; lia ].

Lemma total_parse_node token depth ctx n :
  (n <= N)%nat -> total n (parse_node L rec token depth ctx).
Proof.
  intros Hn. unfold parse_node.
  destruct token;
    unfold parse_constant, parse_sh_wsh, parse_hash, parse_andor, parse_with_script2,
      parse_thresh, parse_key, parse_tr, parse_older_after, parse_multisig,
      parse_child_scripts;
    total_tac.
Qed.

End Totality.

Lemma read_token_length n :
  forall b, (List.length (fst (read_token b n)) + List.length (snd (read_token b n))
             = List.length b)%nat.
Proof.
  induction n as [|n IH]; intros b; destruct b as [|c b];
    cbn [read_token fst snd List.length]; try lia.
  destruct (is_alphanumeric c || (c =? chr "_")); cbn [fst snd List.length]; [|lia].
  specialize (IH b). destruct (read_token b n). cbn [fst snd List.length] in *. lia.
Qed.

(** A token of the table is not empty. *)
Lemma parse_token_consumes (b b' : cursor) (token : PolicyNodeType) :
  parse_token b = (token, b') ->
  token <> TOKEN_INVALID ->
  (List.length b' < List.length b)%nat.
Proof.
  unfold parse_token. pose proof (read_token_length MAX_TOKEN_LENGTH b) as Hlen.
  destruct (read_token b MAX_TOKEN_LENGTH) as [word b1]. cbn [fst snd] in Hlen.
  intros H Hne. injection H as <- <-.
  destruct word as [|c word]; [exfalso; apply Hne; reflexivity|].
  cbn [List.length] in Hlen. lia.
Qed.

Lemma quiet_walk_wrappers i : forall node, quiet (walk_wrappers node i).
Proof.
  induction i as [|i IH]; intros node; simpl; [apply quiet_ret|].
  apply quiet_bind; [quiet_tac | intros next; apply IH].
Qed.

Lemma quiet_wrapper_flags_loop n outermost : quiet (wrapper_flags_loop n outermost).
Proof.
  induction n as [|i IH]; simpl; [apply quiet_ret|].
  apply quiet_bind; [apply quiet_walk_wrappers | intros node].
  apply quiet_bind; [quiet_tac | intros X].
  apply quiet_bind; [quiet_tac | intros fX].
  apply quiet_bind; [quiet_tac | intros t].
  apply quiet_bind; [quiet_tac | intros _].
  exact IH.
Qed.

Lemma total_parse_wrappers L N n : forall inner, total N (parse_wrappers L n inner).
Proof.
  induction n as [|n IH]; intros inner; simpl; [total_leaf|].
  apply total_bind; [total_leaf | intros node].
  apply total_bind; [total_leaf | intros c].
  destruct c as [c|]; [|total_leaf].
  destruct (wrapper_token c) as [t|]; [|total_leaf].
  apply total_bind; [total_leaf | intros _].
  apply total_bind; [destruct inner; total_leaf | intros _].
  apply IH.
Qed.

Section TotalBody.

Variable L : layout_t.
Variable rec : Z -> Z -> M unit.
Variable N : nat.
Hypothesis Hrec : forall n, (n < N)%nat -> forall depth ctx, consuming n (rec depth ctx).

Lemma consuming_parse_fragment depth ctx : consuming N (parse_fragment L rec depth ctx).
Proof.
  intros st r st' Hst H. unfold parse_fragment in H.
  unfold bind at 1, on_input at 1 in H.
  pose proof (forward_parse_token (in_buf st)) as Hfwd.
  destruct (parse_token (in_buf st)) as [token b1] eqn:Etok. cbn [snd] in Hfwd.
  cbv zeta in H.
  set (st1 := mk_pstate b1 (out_buf st) (mem st)) in *.
  assert (Hst1 : (unread st1 <= unread st)%nat) by exact Hfwd.
  assert (Htail : forall n (has_parentheses : bool),
             (forall d c, consuming n (rec d c)) ->
             total n (parsed_node <- parse_node L rec token depth ctx ;;
                      (if has_parentheses then expect (chr ")") "Expected ')'" else ret tt) ;;
                      ret parsed_node)).
  { intros n hp Hn. apply total_bind.
    - apply (total_parse_node L rec n Hn). lia.
    - intros p. apply total_bind; [destruct hp; total_leaf | intros _; total_leaf]. }
  destruct (negb (PolicyNodeType_eqb token TOKEN_0) && negb (PolicyNodeType_eqb token TOKEN_1))
    eqn:Hp.
  - assert (Hc : consuming (unread st1)
             ((expect (chr "(") "Expected '('") ;;
              parsed_node <- parse_node L rec token depth ctx ;;
              (if true then expect (chr ")") "Expected ')'" else ret tt) ;;
              ret parsed_node)).
    { apply consuming_bind; [apply consuming_expect|].
      intros _ n' Hn'. apply (Htail n' true). apply Hrec. lia. }
    destruct (Hc st1 r st' ltac:(lia) H) as [Hne Hlt].
    split; [exact Hne|]. intros Hok. specialize (Hlt Hok). lia.
  - assert (Htok : token <> TOKEN_INVALID).
    { intros ->. discriminate Hp. }
    pose proof (parse_token_consumes _ _ _ Etok Htok) as Hlt.
    assert (Hq : quiet
             ((ret tt) ;;
              parsed_node <- parse_node L rec token depth ctx ;;
              (if false then expect (chr ")") "Expected ')'" else ret tt) ;;
              ret parsed_node)).
    { apply quiet_bind; [apply quiet_ret | intros _].
      apply quiet_bind.
      - unfold parse_node.
        destruct token; try discriminate Hp; unfold parse_constant; quiet_tac.
      - intros p. quiet_tac. }
    destruct (Hq st1 r st' H) as [Hne Hin].
    split; [exact Hne|]. intros _. unfold unread in *. rewrite Hin.
    change (in_buf st1) with b1. exact Hlt.
Qed.

Lemma consuming_parse_script_body depth ctx : consuming N (parse_script_body L rec depth ctx).
Proof.
  unfold parse_script_body.
  apply total_then_consuming; [total_leaf | intros b].
  apply total_then_consuming; [total_leaf | intros outermost].
  apply total_then_consuming.
  - destruct (has_wrapper_prefix b); [|total_leaf].
    apply total_bind; [apply total_parse_wrappers | intros inner].
    apply total_bind; [total_leaf | intros _]. total_leaf.
  - intros wrappers. cbv zeta.
    apply consuming_bind; [apply consuming_parse_fragment|].
    intros p n' Hn'.
    apply total_bind; [total_leaf | intros rest].
    apply total_bind; [total_tac | intros _].
    apply total_bind; [destruct (snd wrappers); total_leaf | intros _].
    apply total_quiet, quiet_wrapper_flags_loop.
Qed.

End TotalBody.

Lemma consuming_parse_script_fuel (L : layout_t) (fuel : nat) :
  forall N, (N < fuel)%nat ->
  forall depth ctx, consuming N (parse_script_fuel L fuel depth ctx).
Proof.
  induction fuel as [|fuel IH]; intros N HN depth ctx; [lia|].
  simpl. apply consuming_parse_script_body.
  intros n Hn d c. apply IH. lia.
Qed.

(** [parse_script] never exhausts the recursion bound of the model: it
    returns 0 or [-1] on every input (unless it reads through a pointer to
    storage that holds no node), and an accepted script is not empty. *)
Theorem parse_script_total (L : layout_t) (depth context_flags : Z) (st : pstate) :
  fst (parse_script L depth context_flags st) <> OutOfFuel.
Proof.
  unfold parse_script, bind, input_length.
  destruct (parse_script_fuel L (S (List.length (in_buf st))) depth context_flags st)
    as [r st'] eqn:E.
  destruct (consuming_parse_script_fuel L (S (List.length (in_buf st)))
              (List.length (in_buf st)) ltac:(lia) depth context_flags st r st'
              ltac:(unfold unread; lia) E) as [Hne _].
  destruct r; simpl; congruence.
Qed.

(** X13.  [parse_policy_map] returns on every input: the nesting of the
    calls of [parse_script] is bounded by the length of the input, so the
    recursion bound of the model, one more than the number of unread
    bytes, is never exhausted. *)
Theorem parse_policy_map_total (L : layout_t) (out out_len : Z) (st : pstate) :
  fst (parse_policy_map L out out_len st) <> OutOfFuel.
Proof.
  unfold parse_policy_map. destruct (negb (out mod 4 =? 0)); [discriminate|].
  unfold bind at 1. apply parse_script_total.
Qed.

(** ** What [parse_unsigned_decimal] accepts *)

Lemma decimal_value_mod (ds : list Z) :
  forall r, decimal_value ds (r mod SIZE_MODULUS) mod SIZE_MODULUS
            = decimal_value ds r mod SIZE_MODULUS.
Proof.
  induction ds as [|d ds IH]; intros r.
  - unfold decimal_value. simpl. apply Z.mod_mod. unfold SIZE_MODULUS, SIZE_BITS. lia.
  - change (decimal_value (d :: ds) (r mod SIZE_MODULUS))
      with (decimal_value ds (10 * (r mod SIZE_MODULUS) + (d - chr "0"))).
    change (decimal_value (d :: ds) r) with (decimal_value ds (10 * r + (d - chr "0"))).
    rewrite <- (IH (10 * (r mod SIZE_MODULUS) + (d - chr "0"))).
    rewrite <- (IH (10 * r + (d - chr "0"))).
    f_equal. f_equal.
    rewrite Z.add_mod by (unfold SIZE_MODULUS, SIZE_BITS; lia).
    rewrite Z.mul_mod_idemp_r by (unfold SIZE_MODULUS, SIZE_BITS; lia).
    rewrite <- Z.add_mod by (unfold SIZE_MODULUS, SIZE_BITS; lia). reflexivity.
Qed.

Lemma parse_unsigned_decimal_loop_inv (b : cursor) :
  forall r k v k' b',
    parse_unsigned_decimal_loop b r k = (Some (v, k'), b') ->
    exists ds,
      b = ds ++ b'
      /\ Forall (fun d => is_digit d = true) ds
      /\ no_digit_ahead b'
      /\ k' = k + Z.of_nat (List.length ds)
      /\ v mod SIZE_MODULUS = decimal_value ds r mod SIZE_MODULUS
      /\ (ds = [] -> v = r)
      /\ (ds <> [] -> 0 <= v < SIZE_MODULUS)
      /\ (k = 1 -> r = 0 -> ds = []).
Proof.
  induction b as [|c b IH]; intros r k v k' b' H; cbn [parse_unsigned_decimal_loop] in H.
  - injection H as <- <- <-. exists []. simpl.
    repeat split; try constructor; try lia; congruence.
  - destruct (is_digit c) eqn:Hc.
    + cbv zeta in H.
      destruct ((k + 1 =? 2) && (r =? 0)) eqn:E1; [discriminate|].
      destruct (size_t_of (10 * r + (c - chr "0")) <? r) eqn:E2; [discriminate|].
      apply IH in H as (ds & Hb & Hds & Hrest & Hk & Hv & Hnil & Hrange & H1).
      assert (Hbound : 0 <= v < SIZE_MODULUS).
      { destruct ds as [|d ds].
        - rewrite (Hnil eq_refl). unfold size_t_of. apply Z.mod_pos_bound.
          unfold SIZE_MODULUS, SIZE_BITS. lia.
        - apply Hrange. discriminate. }
      exists (c :: ds). subst b. repeat apply conj.
      * reflexivity.
      * constructor; assumption.
      * exact Hrest.
      * cbn [List.length]. lia.
      * change (decimal_value (c :: ds) r) with (decimal_value ds (10 * r + (c - chr "0"))).
        rewrite Hv. unfold size_t_of. apply decimal_value_mod.
      * discriminate.
      * intros _. exact Hbound.
      * intros -> ->. simpl in E1. discriminate.
    + injection H as <- <- <-. exists []. simpl.
      repeat split; try constructor; try lia; congruence.
Qed.

Lemma parse_unsigned_decimal_inv (b b' : cursor) (v : Z) :
  parse_unsigned_decimal b = (Some v, b') ->
  exists ds,
    b = ds ++ b'
    /\ well_formed_decimal ds
    /\ no_digit_ahead b'
    /\ 0 <= v <= SIZE_MAX
    /\ v = decimal_value ds 0 mod SIZE_MODULUS.
Proof.
  unfold parse_unsigned_decimal. intros H.
  destruct (parse_unsigned_decimal_loop b 0 0) as [[[v' k']|] b''] eqn:E; [|discriminate].
  destruct (k' =? 0) eqn:Ek; [discriminate|]. injection H as <- <-.
  apply Z.eqb_neq in Ek.
  pose proof E as E'.
  apply parse_unsigned_decimal_loop_inv in E
    as (ds & Hb & Hds & Hrest & Hk & Hv & Hnil & Hrange & _).
  assert (Hne : ds <> []) by (intros ->; simpl in Hk; lia).
  specialize (Hrange Hne).
  exists ds. repeat split; try assumption; try (unfold SIZE_MAX; lia).
  - destruct ds as [|d [|d2 ds]]; [exact I | exact I |].
    intros ->. subst b. cbn [app parse_unsigned_decimal_loop] in E'.
    apply List.Forall_cons_iff in Hds as [Hd Hds'].
    apply List.Forall_cons_iff in Hds' as [Hd2 _].
    change (is_digit (chr "0")) with true in E'. cbv iota zeta in E'.
    change ((0 + 1 =? 2) && (0 =? 0)) with false in E'. cbv iota in E'.
    change (size_t_of (10 * 0 + (chr "0" - chr "0"))) with 0 in E'.
    change (0 <? 0) with false in E'. cbv iota in E'.
    rewrite Hd2 in E'. discriminate.
  - rewrite <- Hv. symmetry. apply Z.mod_small. lia.
Qed.

(** X1.  Whatever [parse_unsigned_decimal] accepts is a canonical decimal:
    the characters it has consumed are a run of digits, not empty and
    without a zero in front of another digit, the character that follows
    is not a digit, and the value returned is the value of the run modulo
    [2^32]. *)
Theorem parse_unsigned_decimal_sound (b b' : cursor) (v : Z) :
  parse_unsigned_decimal b = (Some v, b') ->
  exists ds,
    b = ds ++ b'
    /\ well_formed_decimal ds
    /\ no_digit_ahead b'
    /\ 0 <= v <= SIZE_MAX
    /\ v = decimal_value ds 0 mod SIZE_MODULUS.
Proof. exact (parse_unsigned_decimal_inv b b' v). Qed.

Lemma parse_unsigned_decimal_sound_witness :
  exists ds,
    bytes_of_string "144)" = ds ++ [chr ")"]
    /\ well_formed_decimal ds
    /\ no_digit_ahead [chr ")"]
    /\ 0 <= 144 <= SIZE_MAX
    /\ 144 = decimal_value ds 0 mod SIZE_MODULUS.
Proof.
  apply (parse_unsigned_decimal_sound (bytes_of_string "144)") [chr ")"] 144).
  vm_compute. reflexivity.
Defined.

(** X2.  A run of digits whose value fits in a [size_t], followed by the
    end of the input or by a character that is not a digit, is accepted by
    [parse_unsigned_decimal], with its value and nothing more consumed, if
    and only if it is not empty and has no zero in front of another
    digit. *)
Theorem parse_unsigned_decimal_canonical (ds : list Z) (rest : cursor) :
  Forall (fun d => is_digit d = true) ds ->
  no_digit_ahead rest ->
  decimal_value ds 0 <= SIZE_MAX ->
  parse_unsigned_decimal (ds ++ rest) = (Some (decimal_value ds 0), rest)
  <-> well_formed_decimal ds.
Proof.
  intros Hds Hrest Hmax. split.
  - intros H. apply parse_unsigned_decimal_inv in H as (ds' & Hb & Hwf & _).
    apply app_inv_tail in Hb. subst ds'. exact Hwf.
  - intros Hwf. apply parse_unsigned_decimal_exact; assumption.
Qed.

Lemma parse_unsigned_decimal_canonical_witness :
  parse_unsigned_decimal (bytes_of_string "2016" ++ [chr ","]) = (Some 2016, [chr ","])
  <-> well_formed_decimal (bytes_of_string "2016").
Proof.
  apply (parse_unsigned_decimal_canonical (bytes_of_string "2016") [chr ","]).
  - repeat constructor.
  - reflexivity.
  - vm_compute. discriminate.
Defined.

(** ** Tokens *)

Lemma read_token_exact (word : list Z) (rest : cursor) :
  forall n,
    Forall (fun c => is_token_char c = true) word ->
    (List.length word <= n)%nat ->
    ((List.length word < n)%nat -> no_token_char_ahead rest) ->
    read_token (word ++ rest) n = (word, rest).
Proof.
  induction word as [|c word IH]; intros n Hw Hlen Hrest.
  - cbn [app]. destruct rest as [|c rest]; destruct n as [|n]; try reflexivity.
    cbn [read_token].
    specialize (Hrest ltac:(simpl; lia)). simpl in Hrest. unfold is_token_char in Hrest.
    rewrite Hrest. reflexivity.
  - destruct n as [|n]; [simpl in Hlen; lia|].
    apply List.Forall_cons_iff in Hw as [Hc Hw']. unfold is_token_char in Hc.
    cbn [app read_token]. rewrite Hc.
    rewrite (IH n Hw'); [reflexivity | simpl in Hlen; lia |].
    intros H. apply Hrest. simpl. lia.
Qed.

Lemma read_token_inv (b : cursor) :
  forall n word b',
    read_token b n = (word, b') ->
    b = word ++ b'
    /\ Forall (fun c => is_token_char c = true) word
    /\ (List.length word <= n)%nat
    /\ ((List.length word < n)%nat -> no_token_char_ahead b').
Proof.
  induction b as [|c b IH]; intros n word b' H.
  - destruct n; simpl in H; injection H as <- <-; repeat apply conj;
      try reflexivity; try constructor; simpl; try lia; intros; exact I.
  - destruct n as [|n]; cbn [read_token] in H.
    + injection H as <- <-. repeat apply conj; try reflexivity; try constructor; simpl; lia.
    + destruct (is_alphanumeric c || (c =? chr "_")) eqn:Hc.
      * destruct (read_token b n) as [w b''] eqn:E. injection H as <- <-.
        apply IH in E as (Hb & Hw & Hlen & Hrest). subst b. repeat apply conj.
        -- reflexivity.
        -- constructor; assumption.
        -- simpl. lia.
        -- intros H. apply Hrest. simpl in H. lia.
      * injection H as <- <-. repeat apply conj; try reflexivity; try constructor; simpl; try lia.
        intros _. exact Hc.
Qed.

(** X3.  Every name of the table [KNOWN_TOKENS], followed by the end of the
    input or by a character that cannot be part of a token, is read by
    [parse_token] as its token, and nothing more is consumed. *)
Theorem parse_token_known (t : PolicyNodeType) (name : string) (rest : cursor) :
  In (t, name) KNOWN_TOKENS ->
  no_token_char_ahead rest ->
  parse_token (bytes_of_string name ++ rest) = (t, rest).
Proof.
  intros Hin Hrest. unfold parse_token.
  assert (Hread : read_token (bytes_of_string name ++ rest) MAX_TOKEN_LENGTH
                  = (bytes_of_string name, rest)).
  { apply read_token_exact; [| |intros _; exact Hrest];
      unfold KNOWN_TOKENS in Hin; simpl in Hin;
      repeat (destruct Hin as [Hin | Hin]; [injection Hin as <- <-|]); try contradiction;
      vm_compute; try (intros; discriminate); repeat constructor. }
  rewrite Hread.
  unfold KNOWN_TOKENS in Hin; simpl in Hin;
    repeat (destruct Hin as [Hin | Hin]; [injection Hin as <- <-; vm_compute; reflexivity|]).
  contradiction.
Qed.

Lemma parse_token_known_witness :
  parse_token (bytes_of_string "pk_k" ++ bytes_of_string "(@0)")
  = (TOKEN_PK_K, bytes_of_string "(@0)").
Proof.
  apply (parse_token_known TOKEN_PK_K "pk_k" (bytes_of_string "(@0)")).
  - simpl. tauto.
  - reflexivity.
Defined.

Lemma bytes_eqb_eq (a : list Z) : forall b, bytes_eqb a b = true -> a = b.
Proof.
  induction a as [|x a IH]; intros [|y b] H; simpl in H; try discriminate; [reflexivity|].
  apply andb_true_iff in H as [Hx Hr]. apply Z.eqb_eq in Hx. subst y.
  f_equal. apply IH. exact Hr.
Qed.

(** [strncmp] finds two strings without a NUL byte equal only if they are
    the same, when both fit in the length compared. *)
Lemma strncmp_eq_inv (s1 : list Z) :
  forall s2 n,
    Forall (fun c => c <> 0) s1 ->
    Forall (fun c => c <> 0) s2 ->
    (List.length s1 <= n)%nat ->
    (List.length s2 <= n)%nat ->
    strncmp_eq s1 s2 n = true ->
    s1 = s2.
Proof.
  unfold strncmp_eq.
  induction s1 as [|x s1 IH]; intros s2 n H1 H2 L1 L2 H.
  - destruct s2 as [|y s2]; [reflexivity|].
    destruct n as [|n]; [simpl in L2; lia|].
    cbn [List.firstn app bytes_eqb] in H. apply List.Forall_cons_iff in H2 as [Hy _].
    apply andb_true_iff in H as [H _]. apply Z.eqb_eq in H. congruence.
  - destruct n as [|n]; [simpl in L1; lia|].
    apply List.Forall_cons_iff in H1 as [Hx H1'].
    destruct s2 as [|y s2].
    + cbn [List.firstn app bytes_eqb] in H.
      apply andb_true_iff in H as [H _]. apply Z.eqb_eq in H. congruence.
    + apply List.Forall_cons_iff in H2 as [Hy H2'].
      cbn [List.firstn app bytes_eqb] in H.
      apply andb_true_iff in H as [Hxy H]. apply Z.eqb_eq in Hxy. subst y.
      f_equal. apply (IH s2 n); try assumption; simpl in *; lia.
Qed.

Lemma lookup_token_found (table : list (PolicyNodeType * string)) (word : list Z) :
  lookup_token table word <> TOKEN_INVALID ->
  exists name,
    In (lookup_token table word, name) table
    /\ strncmp_eq (bytes_of_string name) word MAX_TOKEN_LENGTH = true.
Proof.
  induction table as [|[t name] table IH]; intros H; cbn [lookup_token] in *.
  - congruence.
  - destruct (strncmp_eq (bytes_of_string name) word MAX_TOKEN_LENGTH) eqn:E.
    + exists name. split; [left; reflexivity | exact E].
    + destruct (IH H) as (name' & Hin & Heq).
      exists name'. split; [right; exact Hin | exact Heq].
Qed.

Lemma token_char_nonzero (c : Z) : is_token_char c = true -> c <> 0.
Proof. intros H ->. vm_compute in H. discriminate. Qed.

Lemma known_token_names (t : PolicyNodeType) (name : string) :
  In (t, name) KNOWN_TOKENS ->
  Forall (fun c => c <> 0) (bytes_of_string name)
  /\ (List.length (bytes_of_string name) <= MAX_TOKEN_LENGTH)%nat.
Proof.
  intros Hin.
  assert (Hall : forallb (fun e : PolicyNodeType * string =>
                            forallb (fun c => negb (c =? 0)) (bytes_of_string (snd e))
                            && (List.length (bytes_of_string (snd e)) <=? MAX_TOKEN_LENGTH)%nat)
                   KNOWN_TOKENS = true) by (vm_compute; reflexivity).
  rewrite forallb_forall in Hall. specialize (Hall _ Hin). cbn [snd] in Hall.
  apply andb_true_iff in Hall as [Hnz Hlen]. split.
  - rewrite forallb_forall in Hnz. apply List.Forall_forall. intros c Hc.
    specialize (Hnz c Hc). apply negb_true_iff, Z.eqb_neq in Hnz. exact Hnz.
  - apply Nat.leb_le. exact Hlen.
Qed.

Lemma parse_token_inv (b b' : cursor) (t : PolicyNodeType) :
  parse_token b = (t, b') ->
  t <> TOKEN_INVALID ->
  exists name, In (t, name) KNOWN_TOKENS /\ b = bytes_of_string name ++ b'.
Proof.
  unfold parse_token. intros H Ht.
  destruct (read_token b MAX_TOKEN_LENGTH) as [word b''] eqn:E. injection H as <- <-.
  apply read_token_inv in E as (Hb & Hw & Hlen & _).
  destruct (lookup_token_found KNOWN_TOKENS word Ht) as (name & Hin & Heq).
  destruct (known_token_names _ _ Hin) as [Hnz Hnlen].
  exists name. split; [exact Hin|].
  assert (Hwz : Forall (fun c => c <> 0) word).
  { eapply List.Forall_impl; [|exact Hw]. apply token_char_nonzero. }
  rewrite (strncmp_eq_inv _ _ _ Hnz Hwz Hnlen Hlen Heq).
  exact Hb.
Qed.

(** X4.  Whatever [parse_token] recognises is a name of the table
    [KNOWN_TOKENS]: the characters it has consumed spell the name of the
    token it returns.  Every other word, a wrapper letter included, gives
    [TOKEN_INVALID]. *)
Theorem parse_token_sound (b b' : cursor) (t : PolicyNodeType) :
  parse_token b = (t, b') ->
  t <> TOKEN_INVALID ->
  exists name, In (t, name) KNOWN_TOKENS /\ b = bytes_of_string name ++ b'.
Proof. exact (parse_token_inv b b' t). Qed.

Lemma parse_token_sound_witness :
  exists name,
    In (TOKEN_WSH, name) KNOWN_TOKENS
    /\ bytes_of_string "wsh(multi(1,@0))" = bytes_of_string name ++ bytes_of_string "(multi(1,@0))".
Proof.
  apply (parse_token_sound (bytes_of_string "wsh(multi(1,@0))")
           (bytes_of_string "(multi(1,@0))") TOKEN_WSH).
  - vm_compute. reflexivity.
  - discriminate.
Defined.

(** ** Hexadecimal hash images *)

Lemma hex_char_decode (v : Z) :
  0 <= v < 16 -> is_lowercase_hex (hex_char v) = true /\ lowercase_hex_to_int (hex_char v) = v.
Proof.
  intros H.
  assert (E : v = 0 \/ v = 1 \/ v = 2 \/ v = 3 \/ v = 4 \/ v = 5 \/ v = 6 \/ v = 7 \/ v = 8
              \/ v = 9 \/ v = 10 \/ v = 11 \/ v = 12 \/ v = 13 \/ v = 14 \/ v = 15) by lia.
  repeat (destruct E as [-> | E]; [split; vm_compute; reflexivity|]).
  subst v. split; vm_compute; reflexivity.
Qed.

Lemma hex_char_encode (c : Z) :
  is_lowercase_hex c = true ->
  0 <= lowercase_hex_to_int c < 16 /\ hex_char (lowercase_hex_to_int c) = c.
Proof.
  intros H.
  assert (E : c = 48 \/ c = 49 \/ c = 50 \/ c = 51 \/ c = 52 \/ c = 53 \/ c = 54 \/ c = 55
              \/ c = 56 \/ c = 57 \/ c = 97 \/ c = 98 \/ c = 99 \/ c = 100 \/ c = 101
              \/ c = 102).
  { unfold is_lowercase_hex, is_digit in H.
    change (chr "0") with 48 in H. change (chr "9") with 57 in H.
    change (chr "a") with 97 in H. change (chr "f") with 102 in H.
    rewrite orb_true_iff, !andb_true_iff, !Z.leb_le in H. lia. }
  repeat (destruct E as [-> | E];
          [split; [split; vm_compute; [discriminate | reflexivity] | vm_compute; reflexivity]|]).
  subst c. split; [split; vm_compute; [discriminate | reflexivity] | vm_compute; reflexivity].
Qed.

Lemma hex_pair_decode (x : Z) :
  is_byte x ->
  (16 * lowercase_hex_to_int (hex_char (x / 16)) + lowercase_hex_to_int (hex_char (x mod 16)))
    mod 256 = x.
Proof.
  intros Hx. unfold is_byte in Hx.
  assert (H1 : 0 <= x / 16 < 16)
    by (split; [apply Z.div_pos; lia | apply Z.div_lt_upper_bound; lia]).
  assert (H2 : 0 <= x mod 16 < 16) by (apply Z.mod_pos_bound; lia).
  rewrite (proj2 (hex_char_decode _ H1)), (proj2 (hex_char_decode _ H2)).
  rewrite <- Z.div_mod by lia. apply Z.mod_small. lia.
Qed.

Lemma hex_pair_encode (c1 c2 : Z) :
  is_lowercase_hex c1 = true ->
  is_lowercase_hex c2 = true ->
  let x := (16 * lowercase_hex_to_int c1 + lowercase_hex_to_int c2) mod 256 in
  is_byte x /\ hex_char (x / 16) = c1 /\ hex_char (x mod 16) = c2.
Proof.
  intros H1 H2 x.
  destruct (hex_char_encode c1 H1) as [R1 E1].
  destruct (hex_char_encode c2 H2) as [R2 E2].
  assert (Hx : x = 16 * lowercase_hex_to_int c1 + lowercase_hex_to_int c2).
  { unfold x. apply Z.mod_small. lia. }
  assert (Hd : x / 16 = lowercase_hex_to_int c1).
  { rewrite Hx. rewrite Z.mul_comm, Z.div_add_l by lia.
    rewrite (Z.div_small (lowercase_hex_to_int c2)) by lia. lia. }
  assert (Hm : x mod 16 = lowercase_hex_to_int c2).
  { rewrite Hx. rewrite Z.add_comm, Z.mul_comm, Z.mod_add by lia. apply Z.mod_small. lia. }
  unfold is_byte. rewrite Hd, Hm. repeat apply conj; try assumption; lia.
Qed.

Lemma hex_of_bytes_length (bs : list Z) :
  List.length (hex_of_bytes bs) = (2 * List.length bs)%nat.
Proof. induction bs as [|x bs IH]; simpl; [reflexivity | rewrite IH; lia]. Qed.

Lemma read_hex_pairs_encode (out : list Z) (rest : cursor) :
  Forall is_byte out ->
  read_hex_pairs (hex_of_bytes out ++ rest) (List.length out) = (Some out, rest).
Proof.
  induction out as [|x out IH]; intros H.
  - simpl. destruct rest; reflexivity.
  - apply List.Forall_cons_iff in H as [Hx H'].
    cbn [hex_of_bytes app List.length read_hex_pairs].
    unfold is_byte in Hx.
    assert (H1 : 0 <= x / 16 < 16)
      by (split; [apply Z.div_pos; lia | apply Z.div_lt_upper_bound; lia]).
    assert (H2 : 0 <= x mod 16 < 16) by (apply Z.mod_pos_bound; lia).
    rewrite (proj1 (hex_char_decode _ H1)), (proj1 (hex_char_decode _ H2)).
    cbn [negb orb]. rewrite (IH H'). rewrite (hex_pair_decode x Hx). reflexivity.
Qed.

Lemma read_hex_pairs_decode (n : nat) :
  forall b out b',
    read_hex_pairs b n = (Some out, b') ->
    List.length out = n /\ Forall is_byte out /\ b = hex_of_bytes out ++ b'.
Proof.
  induction n as [|n IH]; intros b out b' H.
  - destruct b; simpl in H; injection H as <- <-; repeat apply conj; try reflexivity; constructor.
  - destruct b as [|c1 [|c2 b]]; cbn [read_hex_pairs] in H; try discriminate.
    destruct (negb (is_lowercase_hex c1) || negb (is_lowercase_hex c2)) eqn:E; [discriminate|].
    apply orb_false_iff in E as [E1 E2]. apply negb_false_iff in E1, E2.
    destruct (read_hex_pairs b n) as [[o|] b''] eqn:Er; [|discriminate].
    injection H as <- <-.
    apply IH in Er as (Hlen & Hbytes & Hb).
    destruct (hex_pair_encode c1 c2 E1 E2) as (Hx & Hc1 & Hc2).
    repeat apply conj.
    + simpl. lia.
    + constructor; assumption.
    + cbn [hex_of_bytes app]. rewrite Hc1, Hc2, Hb. reflexivity.
Qed.

(** X5.  [buffer_read_hex_hash] is the inverse of the lowercase hexadecimal
    notation: it returns the [n] bytes [out] and leaves [b'] unread
    exactly when the input is the hexadecimal text of [out], two lowercase
    digits for each byte, followed by [b'].  Uppercase digits, other
    characters and a shorter input make it fail. *)
Theorem buffer_read_hex_hash_iff (b b' : cursor) (n : nat) (out : list Z) :
  buffer_read_hex_hash b n = (Some out, b')
  <-> List.length out = n /\ Forall is_byte out /\ b = hex_of_bytes out ++ b'.
Proof.
  unfold buffer_read_hex_hash. split.
  - intros H. destruct (negb (buffer_can_read b (2 * n))); [discriminate|].
    apply read_hex_pairs_decode. exact H.
  - intros (Hlen & Hbytes & ->). subst n.
    assert (Hcan : buffer_can_read (hex_of_bytes out ++ b') (2 * List.length out) = true).
    { unfold buffer_can_read. apply Nat.leb_le.
      rewrite List.length_app, hex_of_bytes_length. lia. }
    rewrite Hcan. cbn [negb]. apply read_hex_pairs_encode. exact Hbytes.
Qed.

(** ** Derivation steps *)

Lemma lor_hardened (v : Z) :
  0 <= v < 2 ^ 31 -> Z.lor v BIP32_FIRST_HARDENED_CHILD = v + 2 ^ 31.
Proof.
  intros Hv. unfold BIP32_FIRST_HARDENED_CHILD.
  assert (Hland : Z.land v (2 ^ 31) = 0).
  { apply Z.bits_inj'. intros n Hn. rewrite Z.land_spec, Z.bits_0.
    rewrite Z.pow2_bits_eqb by lia.
    destruct (Z.eqb_spec 31 n) as [<-|Hne]; [|apply andb_false_r].
    rewrite andb_true_r. apply Z.testbit_false; [lia|].
    rewrite Z.div_small by lia. reflexivity. }
  rewrite <- Z.lxor_lor by exact Hland. symmetry. apply Z.add_nocarry_lxor. exact Hland.
Qed.

Lemma buffer_read_derivation_step_exact (ds : list Z) (rest : cursor) :
  well_formed_decimal ds ->
  no_digit_ahead rest ->
  decimal_value ds 0 <= SIZE_MAX ->
  buffer_read_derivation_step (ds ++ rest)
  = if 2 ^ 31 <=? decimal_value ds 0 then (None, rest)
    else match rest with
         | c :: rest' =>
             if c =? chr "'" then (Some (decimal_value ds 0 + 2 ^ 31), rest')
             else (Some (decimal_value ds 0), rest)
         | [] => (Some (decimal_value ds 0), [])
         end.
Proof.
  intros Hwf Hrest Hmax. unfold buffer_read_derivation_step.
  rewrite (parse_unsigned_decimal_exact ds rest Hwf Hrest Hmax).
  change BIP32_FIRST_HARDENED_CHILD with (2 ^ 31) at 1.
  destruct (2 ^ 31 <=? decimal_value ds 0) eqn:E; [reflexivity|].
  apply Z.leb_gt in E.
  assert (H0 : 0 <= decimal_value ds 0).
  { apply (decimal_value_ge ds 0); [apply Hwf | lia]. }
  destruct rest as [|c rest']; [reflexivity|].
  rewrite consume_character_cons.
  destruct (c =? chr "'"); [|reflexivity].
  rewrite lor_hardened by lia. reflexivity.
Qed.

(** X6.  [buffer_read_derivation_step] on a canonical decimal [n] that fits
    in a [size_t]: a step of [2^31] or more is refused; otherwise the step
    is [n], or [n + 2^31] when an apostrophe follows, which is consumed. *)
Theorem buffer_read_derivation_step_spec (ds : list Z) (rest : cursor) :
  well_formed_decimal ds ->
  no_digit_ahead rest ->
  decimal_value ds 0 <= SIZE_MAX ->
  buffer_read_derivation_step (ds ++ rest)
  = if 2 ^ 31 <=? decimal_value ds 0 then (None, rest)
    else match rest with
         | c :: rest' =>
             if c =? chr "'" then (Some (decimal_value ds 0 + 2 ^ 31), rest')
             else (Some (decimal_value ds 0), rest)
         | [] => (Some (decimal_value ds 0), [])
         end.
Proof. exact (buffer_read_derivation_step_exact ds rest). Qed.

Lemma buffer_read_derivation_step_spec_witness :
  buffer_read_derivation_step (bytes_of_string "44'/0'")
  = (Some (44 + 2 ^ 31), bytes_of_string "/0'").
Proof.
  apply (buffer_read_derivation_step_spec (bytes_of_string "44") (bytes_of_string "'/0'")).
  - repeat split; [repeat constructor | discriminate | discriminate].
  - reflexivity.
  - vm_compute. discriminate.
Defined.

(** ** The header decoder: bounds and wallet identifier *)

Lemma read_le_nonneg (bs : list Z) : Forall is_byte bs -> 0 <= read_le bs.
Proof.
  induction 1 as [|x bs Hx _ IH]; simpl; [lia|]. unfold is_byte in Hx. lia.
Qed.

Lemma buffer_read_u8_inv (b b' : cursor) (c : Z) :
  buffer_read_u8 b = (Some c, b') -> b = c :: b'.
Proof. destruct b; simpl; intros H; [discriminate|]. injection H as <- <-. reflexivity. Qed.

Lemma buffer_read_bytes_inv (b b' : cursor) (n : nat) (bs : list Z) :
  buffer_read_bytes b n = (Some bs, b') -> b = bs ++ b' /\ List.length bs = n.
Proof.
  unfold buffer_read_bytes, buffer_can_read.
  destruct (n <=? List.length b)%nat eqn:E; [|discriminate].
  intros H. injection H as <- <-. apply Nat.leb_le in E. split.
  - symmetry. apply List.firstn_skipn.
  - apply List.firstn_length_le. exact E.
Qed.

Lemma buffer_read_bytes_exact (a b : list Z) :
  buffer_read_bytes (a ++ b) (List.length a) = (Some a, b).
Proof.
  unfold buffer_read_bytes, buffer_can_read. rewrite List.length_app.
  destruct (List.length a <=? List.length a + List.length b)%nat eqn:E;
    [|apply Nat.leb_gt in E; lia].
  rewrite List.firstn_app, Nat.sub_diag, List.firstn_all. cbn [List.firstn].
  rewrite List.app_nil_r. rewrite List.skipn_app, Nat.sub_diag, List.skipn_all.
  reflexivity.
Qed.

Lemma buffer_read_varint_inv (b b' : cursor) (v : Z) :
  Forall is_byte b ->
  buffer_read_varint b = (Some v, b') ->
  0 <= v /\ exists enc, b = enc ++ b' /\ enc <> [].
Proof.
  intros Hb. unfold buffer_read_varint. destruct b as [|c rest]; [discriminate|].
  apply List.Forall_cons_iff in Hb as [Hc Hrest].
  assert (Hwide : forall n,
             (if buffer_can_read rest n
              then (Some (read_le (List.firstn n rest)), List.skipn n rest)
              else (None, c :: rest)) = (Some v, b') ->
             0 <= v /\ exists enc, c :: rest = enc ++ b' /\ enc <> []).
  { intros n H. destruct (buffer_can_read rest n); [|discriminate].
    injection H as <- <-. split.
    - apply read_le_nonneg. apply Forall_take. exact Hrest.
    - exists (c :: List.firstn n rest). split; [|discriminate].
      simpl. rewrite List.firstn_skipn. reflexivity. }
  cbv zeta.
  destruct (c =? 253); [apply Hwide|].
  destruct (c =? 254); [apply Hwide|].
  destruct (c =? 255); [apply Hwide|].
  intros H. injection H as <- <-. split; [unfold is_byte in Hc; lia|].
  exists [c]. split; [reflexivity | discriminate].
Qed.

Lemma buffer_read_varint_small (v : Z) (b : cursor) :
  0 <= v < 253 -> buffer_read_varint (v :: b) = (Some v, b).
Proof.
  intros Hv. unfold buffer_read_varint.
  destruct (Z.eqb_spec v 253); [lia|]. destruct (Z.eqb_spec v 254); [lia|].
  destruct (Z.eqb_spec v 255); [lia|]. reflexivity.
Qed.

(** X7.  A header that [read_policy_map_wallet] accepts is within the
    bounds, and the input is its serialisation followed by the bytes left:
    the kind, which is the policy-map discriminant, the length of the name,
    of at most 64, the name, of that length, a variable-length integer, the
    policy body, a variable-length integer, which is the number of keys, of
    at most 252, and the 32 bytes of the Merkle root.  The first integer
    announces the length of the body, but the source stores its cast to
    [uint16_t] before it tests it: [policy_map_len] is the integer
    announced modulo 2^16, and it is this value that is at most 74 and that
    gives the number of bytes of the body.  The integer announced is not
    bounded: 65543 is accepted, with a body of 7 bytes. *)
Theorem read_policy_map_wallet_valid :
  (forall (buffer rest : cursor) (header h : policy_map_wallet_header_t),
      Forall is_byte buffer ->
      read_policy_map_wallet buffer header = (0, h, rest) ->
      valid_header h
      /\ exists len_enc keys_enc announced,
           let tail := keys_enc ++ hdr_keys_info_merkle_root h ++ rest in
           buffer = hdr_type h :: hdr_name_len h :: hdr_name h
                      ++ len_enc ++ hdr_policy_map h ++ tail
           /\ buffer_read_varint (len_enc ++ hdr_policy_map h ++ tail)
              = (Some announced, hdr_policy_map h ++ tail)
           /\ hdr_policy_map_len h = uint16_of announced
           /\ buffer_read_varint tail
              = (Some (hdr_n_keys h), hdr_keys_info_merkle_root h ++ rest))
  /\ buffer_read_varint [254; 7; 0; 1; 0] = (Some 65543, [])
  /\ read_policy_map_wallet
       ([2; 0] ++ [254; 7; 0; 1; 0] ++ bytes_of_string "pkh(@0)" ++ [1] ++ List.repeat 0 32)
       (mk_header 0 0 [] 0 [] 0 [])
     = (0, mk_header 2 0 [] 7 (bytes_of_string "pkh(@0)") 1 (List.repeat 0 32), []).
Proof.
  split; [| split; vm_compute; reflexivity].
  intros buffer rest header h Hbytes H. unfold read_policy_map_wallet in H.
  destruct (buffer_read_u8 buffer) as [[ty|] b1] eqn:E1; [|discriminate].
  cbv zeta in H. cbn [hdr_type set_hdr_type] in H.
  destruct (negb (ty =? WALLET_TYPE_POLICY_MAP)) eqn:Ety; [discriminate|].
  apply negb_false_iff, Z.eqb_eq in Ety.
  destruct (buffer_read_u8 b1) as [[nl|] b2] eqn:E2; [|discriminate].
  cbn [hdr_name_len set_hdr_name_len] in H.
  destruct (MAX_WALLET_NAME_LENGTH <? nl) eqn:Enl; [discriminate|]. apply Z.ltb_ge in Enl.
  destruct (buffer_read_bytes b2 (Z.to_nat nl)) as [[name|] b3] eqn:E3; [|discriminate].
  destruct (buffer_read_varint b3) as [[pl|] b4] eqn:E4; [|discriminate].
  cbn [hdr_policy_map_len set_hdr_policy_map_len set_hdr_name] in H.
  destruct (MAX_POLICY_MAP_STR_LENGTH <? uint16_of pl) eqn:Epl; [discriminate|].
  apply Z.ltb_ge in Epl.
  destruct (buffer_read_bytes b4 (Z.to_nat (uint16_of pl))) as [[pm|] b5] eqn:E5; [|discriminate].
  destruct (buffer_read_varint b5) as [[nk|] b6] eqn:E6; [|discriminate].
  destruct (252 <? nk) eqn:Enk; [discriminate|]. apply Z.ltb_ge in Enk.
  destruct (buffer_read_bytes b6 32) as [[root|] b7] eqn:E7; [|discriminate].
  injection H as <- <-.
  apply buffer_read_u8_inv in E1. apply buffer_read_u8_inv in E2.
  apply buffer_read_bytes_inv in E3 as [E3 L3].
  apply buffer_read_bytes_inv in E5 as [E5 L5].
  apply buffer_read_bytes_inv in E7 as [E7 L7].
  subst buffer b1 b2 b4 b6.
  apply List.Forall_cons_iff in Hbytes as [Hty Hb1].
  apply List.Forall_cons_iff in Hb1 as [Hnl Hb2].
  assert (Hb3 : Forall is_byte b3) by (apply List.Forall_app in Hb2; tauto).
  destruct (buffer_read_varint_inv _ _ _ Hb3 E4) as (Hpl & e4 & E3 & He4).
  assert (Hb5 : Forall is_byte b5).
  { rewrite E3 in Hb3. apply List.Forall_app in Hb3 as [_ Hb3].
    apply List.Forall_app in Hb3. tauto. }
  destruct (buffer_read_varint_inv _ _ _ Hb5 E6) as (Hnk & e6 & E5 & He6).
  subst b3 b5.
  assert (Hu16 : 0 <= uint16_of pl < 2 ^ 16) by (apply Z.mod_pos_bound; lia).
  assert (Hnk16 : uint16_of nk = nk) by (apply Z.mod_small; lia).
  split.
  - unfold valid_header. cbn. rewrite Hnk16.
    repeat apply conj; try assumption; try lia; try (unfold is_byte in Hnl; lia).
  - exists e4, e6, pl. cbv zeta.
    cbn [hdr_type hdr_name_len hdr_name hdr_policy_map_len hdr_policy_map hdr_n_keys
         hdr_keys_info_merkle_root set_hdr_n_keys set_hdr_keys_info_merkle_root
         set_hdr_policy_map].
    rewrite Hnk16.
    split; [| split; [exact E4 | split; [reflexivity | exact E6]]].
    cbn [app]. rewrite <- ?List.app_assoc. reflexivity.
Qed.

Lemma read_policy_map_wallet_valid_witness :
  let buffer := [2; 3] ++ bytes_of_string "wal" ++ [253; 7; 0] ++ bytes_of_string "pkh(@0)"
                ++ [1] ++ List.repeat 0 32 ++ [255] in
  let r := read_policy_map_wallet buffer (mk_header 0 0 [] 0 [] 0 []) in
  let h := snd (fst r) in
  valid_header h
  /\ exists len_enc keys_enc announced,
       let tail := keys_enc ++ hdr_keys_info_merkle_root h ++ snd r in
       buffer = hdr_type h :: hdr_name_len h :: hdr_name h
                  ++ len_enc ++ hdr_policy_map h ++ tail
       /\ buffer_read_varint (len_enc ++ hdr_policy_map h ++ tail)
          = (Some announced, hdr_policy_map h ++ tail)
       /\ hdr_policy_map_len h = uint16_of announced
       /\ buffer_read_varint tail
          = (Some (hdr_n_keys h), hdr_keys_info_merkle_root h ++ snd r).
Proof.
  intros buffer r h.
  apply (proj1 read_policy_map_wallet_valid buffer (snd r) (mk_header 0 0 [] 0 [] 0 []) h).
  - unfold buffer, is_byte. vm_compute. repeat constructor; discriminate.
  - vm_compute. reflexivity.
Defined.

Lemma read_policy_map_wallet_exact (h header : policy_map_wallet_header_t) (extra : cursor) :
  valid_header h ->
  read_policy_map_wallet (wallet_hash_context h ++ extra) header = (0, h, extra).
Proof.
  destruct h as [ty nl name pl pm nk root].
  unfold valid_header, WALLET_TYPE_POLICY_MAP, MAX_WALLET_NAME_LENGTH,
    MAX_POLICY_MAP_STR_LENGTH. cbn [hdr_type hdr_name_len hdr_name hdr_policy_map_len
    hdr_policy_map hdr_n_keys hdr_keys_info_merkle_root].
  intros (-> & Hnl & Lname & Hpl & Lpm & Hnk & Lroot).
  unfold wallet_hash_context, crypto_hash_update_u8, crypto_hash_update,
    crypto_hash_update_varint.
  cbn [hdr_type hdr_name_len hdr_name hdr_policy_map_len
    hdr_policy_map hdr_n_keys hdr_keys_info_merkle_root].
  assert (E1 : (pl <? 253) = true) by (apply Z.ltb_lt; lia).
  assert (E2 : (nk <? 253) = true) by (apply Z.ltb_lt; lia).
  rewrite E1, E2.
  rewrite <- Lname, <- Lpm, List.firstn_all, List.firstn_all.
  change (Z.to_nat 32) with 32%nat. rewrite <- Lroot, List.firstn_all.
  rewrite <- !List.app_assoc. cbn [app].
  unfold read_policy_map_wallet. cbn [buffer_read_u8]. cbv zeta.
  cbn [hdr_type set_hdr_type hdr_name_len set_hdr_name_len].
  unfold WALLET_TYPE_POLICY_MAP, MAX_WALLET_NAME_LENGTH, MAX_POLICY_MAP_STR_LENGTH.
  cbn [Z.eqb negb Pos.eqb].
  assert (E3 : (64 <? nl) = false) by (apply Z.ltb_ge; lia). rewrite E3.
  rewrite <- Lname, buffer_read_bytes_exact.
  rewrite buffer_read_varint_small by lia.
  cbn [hdr_policy_map_len set_hdr_policy_map_len set_hdr_name].
  assert (U1 : uint16_of pl = pl) by (apply Z.mod_small; lia). rewrite U1.
  assert (E4 : (74 <? pl) = false) by (apply Z.ltb_ge; lia). rewrite E4.
  rewrite <- Lpm, buffer_read_bytes_exact. rewrite buffer_read_varint_small by lia.
  assert (E5 : (252 <? nk) = false) by (apply Z.ltb_ge; lia). rewrite E5.
  assert (U2 : uint16_of nk = nk) by (apply Z.mod_small; lia). rewrite U2.
  rewrite <- Lroot, buffer_read_bytes_exact.
  reflexivity.
Qed.

(** X8.  The wallet identifier is the digest of bytes that
    [read_policy_map_wallet] reads back: for a header within the bounds,
    [get_policy_wallet_id] hashes a byte string from which, whatever
    follows it, the decoder returns 0 with the same header and leaves what
    follows unread.  The bytes hashed are the kind, the length of the name,
    the name, the one-byte length of the policy body, the body, the
    one-byte number of keys and the Merkle root. *)
Theorem get_policy_wallet_id_hashes_the_encoding
    (crypto_hash_digest : hash_context -> list Z)
    (h header : policy_map_wallet_header_t) (extra : cursor) :
  valid_header h ->
  exists bytes,
    get_policy_wallet_id crypto_hash_digest h = crypto_hash_digest bytes
    /\ bytes = hdr_type h :: hdr_name_len h :: hdr_name h
                 ++ hdr_policy_map_len h :: hdr_policy_map h
                 ++ hdr_n_keys h :: hdr_keys_info_merkle_root h
    /\ read_policy_map_wallet (bytes ++ extra) header = (0, h, extra).
Proof.
  intros Hv. exists (wallet_hash_context h). split; [reflexivity|]. split.
  - destruct h as [ty nl name pl pm nk root].
    unfold valid_header, WALLET_TYPE_POLICY_MAP, MAX_WALLET_NAME_LENGTH,
      MAX_POLICY_MAP_STR_LENGTH in Hv.
    cbn [hdr_type hdr_name_len hdr_name hdr_policy_map_len
      hdr_policy_map hdr_n_keys hdr_keys_info_merkle_root] in *.
    destruct Hv as (-> & Hnl & Lname & Hpl & Lpm & Hnk & Lroot).
    unfold wallet_hash_context, crypto_hash_update_u8, crypto_hash_update,
      crypto_hash_update_varint.
    cbn [hdr_type hdr_name_len hdr_name hdr_policy_map_len
      hdr_policy_map hdr_n_keys hdr_keys_info_merkle_root].
    assert (E1 : (pl <? 253) = true) by (apply Z.ltb_lt; lia).
    assert (E2 : (nk <? 253) = true) by (apply Z.ltb_lt; lia).
    rewrite E1, E2.
    rewrite <- Lname, <- Lpm, List.firstn_all, List.firstn_all.
    change (Z.to_nat 32) with 32%nat. rewrite <- Lroot, List.firstn_all.
    rewrite <- !List.app_assoc. reflexivity.
  - apply read_policy_map_wallet_exact. exact Hv.
Qed.

Lemma get_policy_wallet_id_hashes_the_encoding_witness :
  let h := mk_header 2 3 (bytes_of_string "wal") 7 (bytes_of_string "pkh(@0)") 1
             (List.repeat 0 32) in
  exists bytes,
    get_policy_wallet_id (fun ctx => ctx) h = bytes
    /\ bytes = hdr_type h :: hdr_name_len h :: hdr_name h
                 ++ hdr_policy_map_len h :: hdr_policy_map h
                 ++ hdr_n_keys h :: hdr_keys_info_merkle_root h
    /\ read_policy_map_wallet (bytes ++ [9]) (mk_header 0 0 [] 0 [] 0 []) = (0, h, [9]).
Proof.
  intros h.
  apply (get_policy_wallet_id_hashes_the_encoding (fun ctx => ctx) h
           (mk_header 0 0 [] 0 [] 0 []) [9]).
  unfold valid_header, h. vm_compute. repeat split; discriminate.
Defined.

(** ** Key information *)








Lemma read_fingerprint_encode (fp : list Z) (rest : cursor) :
  Forall is_byte fp ->
  read_fingerprint (hex_of_bytes fp ++ rest) (List.length fp) = (Some fp, rest).
Proof.
  induction fp as [|x fp IH]; intros H; [reflexivity|].
  apply List.Forall_cons_iff in H as [Hx H].
  cbn [hex_of_bytes app List.length read_fingerprint].
  unfold buffer_read_bytes, buffer_can_read. cbn [List.length Nat.leb].
  cbv [List.firstn List.skipn].
  unfold is_byte in Hx.
  assert (H1 : 0 <= x / 16 < 16)
    by (split; [apply Z.div_pos; lia | apply Z.div_lt_upper_bound; lia]).
  assert (H2 : 0 <= x mod 16 < 16) by (apply Z.mod_pos_bound; lia).
  rewrite (proj1 (hex_char_decode _ H1)), (proj1 (hex_char_decode _ H2)).
  cbn [negb orb]. rewrite (IH H). rewrite (hex_pair_decode x Hx). reflexivity.
Qed.

Lemma buffer_read_derivation_step_text (s : list Z * bool) (next : cursor) :
  step_ok s ->
  (exists rest, next = chr "/" :: rest \/ next = chr "]" :: rest) ->
  buffer_read_derivation_step (step_text s ++ next) = (Some (step_value s), next).
Proof.
  destruct s as [ds h]. unfold step_ok, step_text, step_value. cbn [fst snd].
  intros [Hwf Hlt] (rest & Hnext).
  assert (H0 : 0 <= decimal_value ds 0).
  { apply (decimal_value_ge ds 0); [apply Hwf | lia]. }
  rewrite <- List.app_assoc.
  rewrite buffer_read_derivation_step_exact; try assumption.
  - destruct (2 ^ 31 <=? decimal_value ds 0) eqn:E; [apply Z.leb_le in E; lia|].
    destruct h; cbn [app].
    + change (chr "'" =? chr "'") with true. reflexivity.
    + destruct Hnext as [-> | ->].
      * change (chr "/" =? chr "'") with false. cbv iota. rewrite Z.add_0_r. reflexivity.
      * change (chr "]" =? chr "'") with false. cbv iota. rewrite Z.add_0_r. reflexivity.
  - destruct h; cbn [app]; [reflexivity|]. destruct Hnext as [-> | ->]; reflexivity.
  - unfold SIZE_MAX, SIZE_MODULUS, SIZE_BITS. lia.
Qed.

Lemma path_text_length (steps : list (list Z * bool)) :
  (List.length steps <= List.length (path_text steps))%nat.
Proof.
  induction steps as [|s steps IH]; simpl; [lia | rewrite List.length_app; lia].
Qed.

Lemma read_derivation_steps_text (steps : list (list Z * bool)) (rest : cursor) :
  forall fuel acc,
    Forall step_ok steps ->
    (List.length acc + List.length steps <= 9)%nat ->
    (List.length steps < fuel)%nat ->
    read_derivation_steps fuel (path_text steps ++ chr "]" :: rest) acc
    = (Some (acc ++ List.map step_value steps), chr "]" :: rest).
Proof.
  induction steps as [|s steps IH]; intros fuel acc Hok Hlen Hfuel.
  - destruct fuel as [|fuel]; [simpl in Hfuel; lia|].
    cbn [path_text app List.map read_derivation_steps].
    rewrite consume_character_cons. change (chr "]" =? chr "/") with false. cbv iota.
    rewrite List.app_nil_r. reflexivity.
  - destruct fuel as [|fuel]; [simpl in Hfuel; lia|].
    apply List.Forall_cons_iff in Hok as [Hs Hok].
    cbn [path_text app List.map read_derivation_steps].
    rewrite consume_character_cons. rewrite Z.eqb_refl. cbv iota.
    assert (Eg : (MAX_BIP32_PATH_STEPS <? Z.of_nat (List.length acc)) = false).
    { apply Z.ltb_ge. unfold MAX_BIP32_PATH_STEPS. cbn [List.length] in Hlen. lia. }
    rewrite Eg. rewrite <- List.app_assoc.
    rewrite buffer_read_derivation_step_text; [|exact Hs|].
    + rewrite IH; [| exact Hok | rewrite List.length_app; simpl in *; lia | simpl in *; lia].
      rewrite <- List.app_assoc. reflexivity.
    + destruct steps as [|s' steps']; cbn [path_text app]; eexists; [right | left]; reflexivity.
Qed.

Lemma read_ext_pubkey_text (key : list Z) (rest : cursor) :
  forall room,
    Forall (fun c => is_alphanumeric c = true) key ->
    (List.length key <= room)%nat ->
    match rest with [] => True | c :: _ => is_alphanumeric c = false end ->
    read_ext_pubkey (key ++ rest) room = (key, rest).
Proof.
  induction key as [|c key IH]; intros room Hkey Hroom Hrest.
  - cbn [app]. destruct rest as [|c rest]; destruct room; try reflexivity.
    cbn [read_ext_pubkey]. rewrite Hrest. reflexivity.
  - destruct room as [|room]; [simpl in Hroom; lia|].
    apply List.Forall_cons_iff in Hkey as [Hc Hkey].
    cbn [app read_ext_pubkey]. rewrite Hc.
    rewrite IH; [reflexivity | exact Hkey | simpl in Hroom; lia | exact Hrest].
Qed.

(** X10.  The key information in its textual form is read back by
    [parse_policy_map_key_info]: a key origin made of a fingerprint of four
    bytes in lowercase hexadecimal and of at most [MAX_BIP32_PATH_STEPS]
    canonical derivation steps below [2^31], hardened or not, then an
    extended public key of 111 or 112 alphanumeric characters, then the
    wildcard suffix or nothing.  The steps are stored with their hardened
    bit, and the whole buffer is consumed. *)
Theorem parse_policy_map_key_info_text
    (MAX_SERIALIZED_PUBKEY_LENGTH : nat) (fp : list Z) (steps : list (list Z * bool))
    (key : list Z) (wildcard : bool) :
  (112 <= MAX_SERIALIZED_PUBKEY_LENGTH)%nat ->
  Forall is_byte fp ->
  List.length fp = 4%nat ->
  Forall step_ok steps ->
  Z.of_nat (List.length steps) <= MAX_BIP32_PATH_STEPS ->
  Forall (fun c => is_alphanumeric c = true) key ->
  (111 <= List.length key <= 112)%nat ->
  parse_policy_map_key_info MAX_SERIALIZED_PUBKEY_LENGTH
    (origin_text fp steps ++ key ++ (if wildcard then wildcard_suffix else []))
  = (Some (mk_key_info (List.map step_value steps) fp (Z.of_nat (List.length steps)) 1
             (if wildcard then 1 else 0) key),
     []).
Proof.
  intros HN Hfp Lfp Hsteps Lsteps Hkey Lkey.
  unfold parse_policy_map_key_info, origin_text. cbv zeta.
  cbn [app]. rewrite consume_character_cons. rewrite Z.eqb_refl. cbv iota.
  assert (Ecan : buffer_can_read
                   ((hex_of_bytes fp ++ path_text steps ++ [chr "]"]) ++ key
                      ++ (if wildcard then wildcard_suffix else [])) 9 = true).
  { unfold buffer_can_read. apply Nat.leb_le.
    rewrite !List.length_app, hex_of_bytes_length, Lfp. simpl. lia. }
  rewrite Ecan. cbn [negb].
  rewrite <- !List.app_assoc. rewrite <- Lfp at 1.
  rewrite read_fingerprint_encode by exact Hfp.
  cbn [app]. unfold MAX_BIP32_PATH_STEPS in Lsteps.
  pose proof (path_text_length steps) as Hpl.
  rewrite read_derivation_steps_text;
    [| exact Hsteps | simpl; lia
     | rewrite List.length_app; simpl; lia ].
  rewrite consume_character_cons. rewrite Z.eqb_refl. cbv iota. cbn [app].
  rewrite read_ext_pubkey_text; [| exact Hkey | lia | destruct wildcard; reflexivity].
  assert (El : (List.length key <? 111)%nat || (112 <? List.length key)%nat = false).
  { apply orb_false_iff. split; apply Nat.ltb_ge; lia. }
  cbn [master_key_derivation master_key_fingerprint master_key_derivation_len has_key_origin].
  rewrite El. rewrite List.length_map.
  destruct wildcard; reflexivity.
Qed.


Lemma parse_policy_map_key_info_text_witness :
  let xpub := List.repeat (chr "x") 111 in
  parse_policy_map_key_info 113
    (origin_text [222; 173; 190; 239]
       [(bytes_of_string "44", true); (bytes_of_string "0", false)]
     ++ xpub ++ wildcard_suffix)
  = (Some (mk_key_info [44 + 2 ^ 31; 0] [222; 173; 190; 239] 2 1 1 xpub), []).
Proof.
  intros xpub.
  apply (parse_policy_map_key_info_text 113 [222; 173; 190; 239]
           [(bytes_of_string "44", true); (bytes_of_string "0", false)] xpub true).
  - lia.
  - repeat constructor; discriminate.
  - reflexivity.
  - repeat constructor; try discriminate; reflexivity.
  - vm_compute. discriminate.
  - unfold xpub. apply List.Forall_forall. intros c Hc.
    apply List.repeat_spec in Hc. subst c. reflexivity.
  - unfold xpub. rewrite List.repeat_length. lia.
Defined.

(** ** An accepted policy is read to its end *)

Lemma parse_script_body_reads_all (L : layout_t) (rec : Z -> Z -> M unit)
    (context_flags : Z) (st st' : pstate) :
  parse_script_body L rec 0 context_flags st = (Ok tt, st') -> in_buf st' = [].
Proof.
  intros H. unfold parse_script_body in H.
  apply bind_Ok in H as (b & s1 & _ & H).
  apply bind_Ok in H as (outermost & s2 & _ & H).
  apply bind_Ok in H as (wrappers & s3 & _ & H). cbv zeta in H.
  apply bind_Ok in H as (parsed & s4 & _ & H).
  apply bind_Ok in H as (rest & s5 & H5 & H).
  unfold on_input in H5. injection H5 as <- <-.
  apply bind_Ok in H as ([] & s6 & H6 & H).
  change (0 =? 0) with true in H6. cbn [andb] in H6.
  destruct (buffer_can_read (in_buf s4) 1) eqn:Ecan; [discriminate|].
  injection H6 as <-.
  apply bind_Ok in H as ([] & s7 & H7 & H).
  assert (Hq7 : in_buf s7 = in_buf s4).
  { destruct (snd wrappers) as [w|].
    - assert (Hq : quiet (set_script w parsed)) by quiet_tac.
      exact (proj2 (Hq _ _ _ H7)).
    - injection H7 as <-. reflexivity. }
  pose proof (proj2 (quiet_wrapper_flags_loop _ _ _ _ _ H)) as Hq8.
  rewrite Hq8, Hq7. cbn [in_buf].
  unfold buffer_can_read in Ecan. apply Nat.leb_gt in Ecan.
  destruct (in_buf s4); [reflexivity | simpl in Ecan; lia].
Qed.

(** X11.  [parse_policy_map] accepts a policy only if it has read all of
    it: on return 0 the input buffer is exhausted, and it was not empty.
    In particular the empty policy is rejected, and so is a policy
    followed by anything. *)
Theorem parse_policy_map_reads_whole_input
    (L : layout_t) (out out_len : Z) (st st' : pstate) :
  parse_policy_map L out out_len st = (Ok tt, st') ->
  in_buf st <> [] /\ in_buf st' = [].
Proof.
  intros H. unfold parse_policy_map in H.
  destruct (negb (out mod 4 =? 0)); [discriminate|].
  unfold bind at 1 in H. unfold parse_script, bind, input_length in H. cbn [in_buf] in H.
  set (st0 := mk_pstate (in_buf st) (buffer_create out out_len) (mem st)) in *.
  split.
  - destruct (consuming_parse_script_fuel L (S (List.length (in_buf st)))
                (List.length (in_buf st)) ltac:(lia) 0 0 st0 (Ok tt) st'
                ltac:(unfold unread; simpl; lia) H) as [_ Hlt].
    specialize (Hlt I). unfold unread, st0 in Hlt. cbn [in_buf] in Hlt.
    intros E. rewrite E in Hlt. simpl in Hlt. lia.
  - cbn [parse_script_fuel] in H. eapply parse_script_body_reads_all. exact H.
Qed.

Lemma parse_policy_map_reads_whole_input_witness :
  let st := initial_state "wsh(multi(1,@0,@1))" in
  in_buf st <> [] /\ in_buf (snd (parse_policy_map layout32 4096 512 st)) = [].
Proof.
  intros st.
  apply (parse_policy_map_reads_whole_input layout32 4096 512 st
           (snd (parse_policy_map layout32 4096 512 st))).
  vm_compute. reflexivity.
Defined.

(** ** Where [sh] and [wsh] may stand *)

(** X12.  [sh] is refused below the top level, and [wsh] is refused below
    the top level unless it is directly inside [sh]: a script that starts
    with [sh(] at a depth other than 0 fails with "sh can only be a
    top-level function", and one that starts with [wsh(] at a depth other
    than 0 with the flag [CONTEXT_WITHIN_SH] unset fails with "wsh can only
    be top-level or inside sh".  Both fail before anything is allocated:
    the arena and the memory are left as they were. *)
Theorem sh_wsh_only_at_top_level
    (L : layout_t) (fuel : nat) (depth context_flags : Z) (st : pstate) (rest : cursor)
    (wsh : bool) :
  depth <> 0 ->
  (wsh = true -> Z.land context_flags CONTEXT_WITHIN_SH = 0) ->
  in_buf st = bytes_of_string (if wsh then "wsh(" else "sh(") ++ rest ->
  parse_script_fuel L (S fuel) depth context_flags st
  = (Error (if wsh then "wsh can only be top-level or inside sh"
            else "sh can only be a top-level function"),
     mk_pstate rest (out_buf st) (mem st)).
Proof.
  intros Hdepth Hctx Hin.
  assert (Ed : negb (depth =? 0) = true) by (apply negb_true_iff, Z.eqb_neq; exact Hdepth).
  destruct st as [ib ob m]. simpl in Hin. subst ib.
  simpl parse_script_fuel. unfold parse_script_body.
  erewrite run_on_input by reflexivity. cbv beta.
  rewrite run_get_cur. cbv beta.
  destruct wsh.
  - match goal with
    | |- context [has_wrapper_prefix ?b] =>
        let v := eval vm_compute in (has_wrapper_prefix b) in
        change (has_wrapper_prefix b) with v
    end.
    cbv iota. rewrite run_ret. cbv beta zeta.
    apply run_Error. unfold parse_fragment.
    erewrite run_on_input by (simpl in_buf; vm_compute; reflexivity). cbv beta zeta.
    simpl PolicyNodeType_eqb. simpl negb. simpl andb. cbv iota.
    erewrite run_expect by reflexivity. cbv beta.
    apply run_Error. unfold parse_node, parse_sh_wsh.
    simpl PolicyNodeType_eqb. cbv iota. rewrite Ed, (Hctx eq_refl). reflexivity.
  - match goal with
    | |- context [has_wrapper_prefix ?b] =>
        let v := eval vm_compute in (has_wrapper_prefix b) in
        change (has_wrapper_prefix b) with v
    end.
    cbv iota. rewrite run_ret. cbv beta zeta.
    apply run_Error. unfold parse_fragment.
    erewrite run_on_input by (simpl in_buf; vm_compute; reflexivity). cbv beta zeta.
    simpl PolicyNodeType_eqb. simpl negb. simpl andb. cbv iota.
    erewrite run_expect by reflexivity. cbv beta.
    apply run_Error. unfold parse_node, parse_sh_wsh.
    simpl PolicyNodeType_eqb. cbv iota. rewrite Ed. reflexivity.
Qed.

Lemma sh_wsh_only_at_top_level_witness :
  let st := mk_pstate (bytes_of_string "wsh(pkh(@0)))") (buffer_create 4096 512) ∅ in
  parse_script_fuel layout32 14 1 CONTEXT_WITHIN_WSH st
  = (Error "wsh can only be top-level or inside sh",
     mk_pstate (bytes_of_string "pkh(@0)))") (out_buf st) (mem st)).
Proof.
  intros st.
  apply (sh_wsh_only_at_top_level layout32 13 1 CONTEXT_WITHIN_WSH st
           (bytes_of_string "pkh(@0)))") true).
  - discriminate.
  - reflexivity.
  - reflexivity.
Defined.

(** * Safety of the script parser *)

(** ** The arena, the outcome of a call and the trees of nodes *)

Lemma wf_lt m hi t p : wf m hi t p -> p < hi.
Proof. induction 1; lia. Qed.

Lemma wf_frame m hi t p :
  wf m hi t p ->
  forall m', (forall x, p <= x < hi -> m' !! x = m !! x) -> wf m' hi t p.
Proof.
  induction 1 as [p b Hc Hb Hp | p b i Hc Hb Hp | p b h Hc Hb Hp | p b n Hc Hb Hp
                 | p b k n ki Hc Hb Hp
                 | p b s Hc Hb Hps Hs IHs | p b qs Hc Hb Hp Hlt Hqs IHqs
                 | p b k n sl Hc Hb Hps Hs IHs | e sc Hc Hes Hs IHs
                 | e sc nx Hc Hes Hs IHs Hsn Hn IHn];
    intros m' Hm.
  - apply (wf_constant _ _ p b); [rewrite Hm by lia; exact Hc | exact Hb | exact Hp].
  - apply (wf_with_key _ _ p b i); [rewrite Hm by lia; exact Hc | exact Hb | exact Hp].
  - apply (wf_with_hash _ _ p b h); [rewrite Hm by lia; exact Hc | exact Hb | exact Hp].
  - apply (wf_with_uint32 _ _ p b n); [rewrite Hm by lia; exact Hc | exact Hb | exact Hp].
  - apply (wf_multisig _ _ p b k n ki); [rewrite Hm by lia; exact Hc | exact Hb | exact Hp].
  - pose proof (wf_lt _ _ _ _ Hs).
    apply (wf_with_script _ _ p b s); [rewrite Hm by lia; exact Hc | exact Hb | exact Hps |].
    apply IHs. intros x Hx. apply Hm. lia.
  - apply (wf_with_scripts _ _ p b qs);
      [rewrite Hm by lia; exact Hc | exact Hb | exact Hp | exact Hlt |].
    intros q Hq. apply IHqs; [exact Hq|]. intros x Hx. apply Hm. specialize (Hlt q Hq). lia.
  - pose proof (wf_lt _ _ _ _ Hs).
    apply (wf_thresh _ _ p b k n sl); [rewrite Hm by lia; exact Hc | exact Hb | exact Hps |].
    apply IHs. intros x Hx. apply Hm. lia.
  - pose proof (wf_lt _ _ _ _ Hs).
    apply (wf_last _ _ e sc); [rewrite Hm by lia; exact Hc | exact Hes |].
    apply IHs. intros x Hx. apply Hm. lia.
  - pose proof (wf_lt _ _ _ _ Hs). pose proof (wf_lt _ _ _ _ Hn).
    apply (wf_next _ _ e sc nx); [rewrite Hm by lia; exact Hc | exact Hes | | exact Hsn |].
    + apply IHs. intros x Hx. apply Hm. lia.
    + apply IHn. intros x Hx. apply Hm. lia.
Qed.

Lemma wf_mono m hi t p : wf m hi t p -> forall hi', hi <= hi' -> wf m hi' t p.
Proof.
  induction 1; intros hi' Hhi;
    eauto using wf_constant, wf_with_key, wf_with_hash, wf_with_uint32, wf_multisig,
      wf_with_script, wf_thresh, wf_last, wf_next with lia.
  eapply wf_with_scripts; eauto with lia.
Qed.

Lemma item_chain_le m n : forall e last, item_chain m n e last -> e <= last.
Proof.
  induction n as [|n IH]; intros e last; simpl.
  - intros ->. lia.
  - intros (sc & nx & _ & Hlt & Hs & Hc). apply IH in Hc. apply wf_lt in Hs. lia.
Qed.

Lemma item_chain_frame m m' n :
  forall e last,
    item_chain m n e last ->
    (forall x, e <= x < last -> m' !! x = m !! x) ->
    item_chain m' n e last.
Proof.
  induction n as [|n IH]; intros e last; simpl; [auto|].
  intros (sc & nx & Hm & Hlt & Hs & Hc) Hf.
  pose proof (item_chain_le _ _ _ _ Hc) as Hle. pose proof (wf_lt _ _ _ _ Hs) as Hsn.
  exists sc, nx. split; [rewrite Hf by lia; exact Hm|]. split; [exact Hlt|]. split.
  - eapply wf_frame; [exact Hs|]. intros x Hx. apply Hf. lia.
  - apply IH; [exact Hc|]. intros x Hx. apply Hf. lia.
Qed.

Lemma item_chain_snoc m n :
  forall e last sc nx,
    item_chain m n e last ->
    m !! last = Some (policy_node_scriptlist_t sc nx) ->
    last < sc ->
    wf m nx to_node sc ->
    item_chain m (S n) e nx.
Proof.
  induction n as [|n IH]; intros e last sc nx; simpl.
  - intros -> Hm Hlt Hs. exists sc, nx. auto.
  - intros (sc0 & nx0 & Hm0 & Hlt0 & Hs0 & Hc) Hm Hlt Hs.
    exists sc0, nx0. split; [exact Hm0|]. split; [exact Hlt0|]. split; [exact Hs0|].
    eapply (IH nx0 last sc nx); eauto.
Qed.

Lemma item_chain_list m n :
  forall e last sc,
    item_chain m n e last ->
    m !! last = Some (policy_node_scriptlist_t sc NULL) ->
    exists es, item_list m es e /\ List.length es = S n.
Proof.
  induction n as [|n IH]; intros e last sc; simpl.
  - intros -> Hl. exists [last]. split; [|reflexivity].
    split; [reflexivity|]. exists sc, NULL. split; [exact Hl | reflexivity].
  - intros (sc0 & nx & Hm & _ & _ & Hc) Hl.
    destruct (IH _ _ _ Hc Hl) as (es & Hes & Hlen).
    exists (e :: es). split; [|simpl; congruence].
    split; [reflexivity|]. exists sc0, nx. split; [exact Hm | exact Hes].
Qed.

Lemma item_chain_close m hi n :
  forall e last, item_chain m n e last -> wf m hi to_item last -> wf m hi to_item e.
Proof.
  induction n as [|n IH]; intros e last; simpl.
  - intros ->. auto.
  - intros (sc & nx & Hm & Hlt & Hs & Hc) Hl.
    pose proof (IH _ _ Hc Hl) as Hn. pose proof (wf_lt _ _ _ _ Hn).
    pose proof (wf_lt _ _ _ _ Hs).
    eapply wf_next; [exact Hm | exact Hlt | | lia | exact Hn].
    eapply wf_mono; [exact Hs | lia].
Qed.

Lemma buffer_le_refl b : buffer_le b b.
Proof. unfold buffer_le. repeat split; lia. Qed.

Lemma buffer_le_trans b1 b2 b3 : buffer_le b1 b2 -> buffer_le b2 b3 -> buffer_le b1 b3.
Proof. unfold buffer_le. intros (A1 & A2 & A3 & A4) (B1 & B2 & B3 & B4). repeat split; lia. Qed.

Lemma buffer_le_cur b b' : buffer_le b b' -> buffer_get_cur b <= buffer_get_cur b'.
Proof. unfold buffer_le, buffer_get_cur. intros (A1 & A2 & A3 & A4). lia. Qed.

Lemma advance_refl st : advance st st.
Proof. split; [apply buffer_le_refl | reflexivity]. Qed.

Lemma advance_cur st0 st : advance st0 st -> cur st0 <= cur st.
Proof. intros [H _]. apply buffer_le_cur. exact H. Qed.

Lemma advance_trans st0 st1 st2 : advance st0 st1 -> advance st1 st2 -> advance st0 st2.
Proof.
  intros H1 H2. pose proof (advance_cur _ _ H1) as C1. pose proof (advance_cur _ _ H2) as C2.
  destruct H1 as [L1 M1], H2 as [L2 M2]. split.
  - eapply buffer_le_trans; eauto.
  - intros x Hx. rewrite M2 by lia. apply M1. lia.
Qed.

Lemma buffer_alloc_le b sz aligned r b' :
  buffer_alloc b sz aligned = (r, b') -> 0 <= sz -> buffer_le b b'.
Proof.
  unfold buffer_alloc, buffer_le.
  pose proof (alloc_padding_range b aligned) as Hpad.
  destruct (_ <=? _) eqn:E; intros H Hsz; injection H as <- <-; cbn [ptr size offset].
  - apply Z.leb_le in E. repeat split; lia.
  - repeat split; lia.
Qed.

Lemma outcome_bind {A B} E (Q : B -> pstate -> Prop) (m : M A) (f : A -> M B) st :
  outcome E (fun a s => outcome E Q (f a s)) (m st) -> outcome E Q (bind m f st).
Proof. unfold bind. destruct (m st) as [[a| | |] s]; simpl; auto. Qed.

Lemma outcome_mono {A} (E E' : pstate -> Prop) (Q Q' : A -> pstate -> Prop) r :
  outcome E Q r ->
  (forall s, E s -> E' s) ->
  (forall a s, Q a s -> Q' a s) ->
  outcome E' Q' r.
Proof. destruct r as [[a| | |] s]; simpl; auto. Qed.

Lemma outcome_ret {A} E (Q : A -> pstate -> Prop) a st : Q a st -> outcome E Q (ret a st).
Proof. exact (fun H => H). Qed.

Lemma outcome_error {A} E (Q : A -> pstate -> Prop) msg st :
  E st -> outcome E Q (WITH_ERROR msg st).
Proof. exact (fun H => H). Qed.

Lemma outcome_out_of_fuel {A} E (Q : A -> pstate -> Prop) st :
  E st -> outcome E Q (out_of_fuel st).
Proof. exact (fun H => H). Qed.

Lemma outcome_on_input {A} E (Q : A -> pstate -> Prop) (f : cursor -> A * cursor) st :
  (forall a b, f (in_buf st) = (a, b) -> Q a (mk_pstate b (out_buf st) (mem st))) ->
  outcome E Q (on_input f st).
Proof. unfold on_input. intros H. destruct (f (in_buf st)) as [a b]. apply H. reflexivity. Qed.

Lemma outcome_input_length E (Q : nat -> pstate -> Prop) st :
  Q (List.length (in_buf st)) st -> outcome E Q (input_length st).
Proof. exact (fun H => H). Qed.

Lemma outcome_get_cur E (Q : Z -> pstate -> Prop) st :
  Q (buffer_get_cur (out_buf st)) st -> outcome E Q (get_cur st).
Proof. exact (fun H => H). Qed.

Lemma outcome_alloc E (Q : option Z -> pstate -> Prop) sz aligned st :
  (forall r b', buffer_alloc (out_buf st) sz aligned = (r, b') ->
                Q r (mk_pstate (in_buf st) b' (mem st))) ->
  outcome E Q (alloc sz aligned st).
Proof.
  unfold alloc. intros H. destruct (buffer_alloc _ _ _) as [r b'] eqn:Ea. apply H. reflexivity.
Qed.

Lemma outcome_alloc_node E (Q : Z -> pstate -> Prop) blank sz st :
  (forall p b', buffer_alloc (out_buf st) sz true = (Some p, b') ->
                Q p (mk_pstate (in_buf st) b' (<[p := blank]> (mem st)))) ->
  E (mk_pstate (in_buf st) (out_buf st) (mem st)) ->
  outcome E Q (alloc_node blank sz st).
Proof.
  intros HQ HE. unfold alloc_node, alloc, bind, store.
  destruct (buffer_alloc _ _ _) as [[p|] b'] eqn:Ea; simpl.
  - apply HQ. reflexivity.
  - apply buffer_alloc_none in Ea. subst b'. exact HE.
Qed.

Lemma outcome_modify E (Q : unit -> pstate -> Prop) p f c st :
  mem st !! p = Some c ->
  Q tt (mk_pstate (in_buf st) (out_buf st) (<[p := f c]> (mem st))) ->
  outcome E Q (modify p f st).
Proof. intros Hc HQ. unfold modify, bind, load, store. rewrite Hc. exact HQ. Qed.

Lemma outcome_load E (Q : cell -> pstate -> Prop) p c st :
  mem st !! p = Some c -> Q c st -> outcome E Q (load p st).
Proof. intros Hc HQ. unfold load. rewrite Hc. exact HQ. Qed.
(** ** The type calculus keeps its types and properties consistent *)

Ltac flags_open :=
  repeat match goal with
         | X : flags_t |- _ => destruct X as [? [] ? ? ? ? ?]
         end;
  unfold flags_consistent, is_B, is_V, is_K, is_W in *;
  cbn [is_miniscript miniscript_type miniscript_mod_z miniscript_mod_o miniscript_mod_n
       miniscript_mod_d miniscript_mod_u miniscript_type_eqb negb orb andb] in *.

Ltac bool_step :=
  cbn [negb orb andb] in *;
  match goal with
  | H : _ /\ _ |- _ => destruct H
  | H : ?a = ?a -> _ |- _ => specialize (H eq_refl)
  | H : true = false |- _ => discriminate H
  | H : false = true |- _ => discriminate H
  | H : ?b = _ |- _ => is_var b; subst b
  | H : _ = ?b |- _ => is_var b; subst b
  | H : ?e = _ |- _ =>
      lazymatch e with
      | andb _ _ => idtac
      | orb _ _ => idtac
      | negb _ => idtac
      end;
      match e with
      | context [?b] => is_var b; destruct b
      end
  | |- context [andb ?b _] => is_var b; destruct b
  | |- context [orb ?b _] => is_var b; destruct b
  | |- context [negb ?b] => is_var b; destruct b
  end.

Ltac rule_solve :=
  intros;
  repeat match goal with
         | H : (if ?c then _ else _) = inr _ |- _ =>
             let E := fresh "E" in destruct c eqn:E; [discriminate H|]
         | H : inl _ = inr _ |- _ => discriminate H
         | H : inr _ = inr _ |- _ => injection H as <-
         end;
  flags_open;
  try discriminate;
  repeat apply conj; try reflexivity; try (intros; discriminate);
  intros; repeat bool_step;
  repeat apply conj; try reflexivity; try discriminate; try congruence.

Lemma consistent_andor X Y Z f :
  flags_consistent X -> flags_consistent Y -> flags_consistent Z ->
  andor_flags X Y Z = inr f -> flags_consistent f.
Proof. unfold andor_flags. rule_solve. Qed.

Lemma consistent_and_v X Y f :
  flags_consistent X -> flags_consistent Y -> and_v_flags X Y = inr f -> flags_consistent f.
Proof. unfold and_v_flags. rule_solve. Qed.

Lemma consistent_and_b X Y f :
  flags_consistent X -> flags_consistent Y -> and_b_flags X Y = inr f -> flags_consistent f.
Proof. unfold and_b_flags. rule_solve. Qed.

Lemma consistent_and_n X Y f :
  flags_consistent X -> flags_consistent Y -> and_n_flags X Y = inr f -> flags_consistent f.
Proof. unfold and_n_flags. rule_solve. Qed.

Lemma consistent_or_b X Y f :
  flags_consistent X -> flags_consistent Y -> or_b_flags X Y = inr f -> flags_consistent f.
Proof. unfold or_b_flags. rule_solve. Qed.

Lemma consistent_or_c X Y f :
  flags_consistent X -> flags_consistent Y -> or_c_flags X Y = inr f -> flags_consistent f.
Proof. unfold or_c_flags. rule_solve. Qed.

Lemma consistent_or_d X Y f :
  flags_consistent X -> flags_consistent Y -> or_d_flags X Y = inr f -> flags_consistent f.
Proof. unfold or_d_flags. rule_solve. Qed.

Lemma consistent_or_i X Y f :
  flags_consistent X -> flags_consistent Y -> or_i_flags X Y = inr f -> flags_consistent f.
Proof. unfold or_i_flags. rule_solve. Qed.

Lemma consistent_wrapper t X f :
  flags_consistent X -> wrapper_flags t X = inr f -> flags_consistent f.
Proof. unfold wrapper_flags. destruct t; rule_solve. Qed.

Lemma consistent_thresh count_z count_o n : flags_consistent (thresh_flags count_z count_o n).
Proof.
  unfold thresh_flags, flags_consistent. cbn.
  repeat apply conj; intros; try discriminate; reflexivity.
Qed.

Lemma consistent_leaves :
  Forall flags_consistent
    [flags_0; flags_1; flags_hash; flags_pk; flags_pkh; flags_pk_k; flags_pk_h; flags_older;
     flags_multi].
Proof. repeat constructor; cbn; intros; try discriminate; try reflexivity. Qed.

(** ** The steps of a parser *)

Lemma alloc_facts b sz p b' :
  buffer_alloc b sz true = (Some p, b') ->
  0 < sz ->
  buffer_le b b'
  /\ buffer_get_cur b <= p
  /\ buffer_get_cur b' = p + sz
  /\ (entry_ok b -> p = buffer_get_cur b)
  /\ (sz mod 4 = 0 -> entry_ok b -> entry_ok b').
Proof.
  intros H Hsz. pose proof (buffer_alloc_le _ _ _ _ _ H ltac:(lia)) as Hle.
  pose proof H as H0.
  apply buffer_alloc_spec in H as (H1 & H2 & H3).
  split; [exact Hle|]. split; [exact H1|]. split; [exact H2|].
  split; [intros He; apply H3; auto; lia|].
  intros Hmod He. unfold buffer_alloc in H0.
  destruct (_ <=? _) eqn:E in H0; [|discriminate]. apply Z.leb_le in E.
  injection H0 as <- <-. unfold entry_ok in *. cbn [ptr size offset].
  destruct He as [Hal | Hfull]; [|lia].
  left. unfold alloc_padding. rewrite Hal. change ((4 - 0) mod 4) with 0.
  replace (ptr b + (offset b + 0 + sz)) with ((ptr b + offset b) + sz) by lia.
  rewrite Z.add_mod by lia. rewrite Hal, Hmod. reflexivity.
Qed.

Lemma advance_below st0 st x : advance st0 st -> x < cur st0 -> mem st !! x = mem st0 !! x.
Proof. intros [_ H] Hx. apply H. left. exact Hx. Qed.

Lemma advance_intro st0 ib ob m :
  buffer_le (out_buf st0) ob ->
  (forall x, x < cur st0 \/ buffer_get_cur ob <= x -> m !! x = mem st0 !! x) ->
  advance st0 (mk_pstate ib ob m).
Proof. intros H1 H2. split; assumption. Qed.

Ltac norm := unfold cur in *; cbn [in_buf out_buf mem] in *.

Ltac side :=
  repeat match goal with
         | H : advance _ _ |- _ => generalize (advance_cur _ _ H); clear H; intro
         end;
  repeat match goal with
         | H : buffer_le _ _ |- _ => generalize (buffer_le_cur _ _ H); clear H; intro
         end;
  unfold cur in *; cbn [in_buf out_buf mem] in *; lia.

Ltac frame_rw :=
  match goal with
  | H : advance ?s ?s' |- context [mem ?s' !! ?x] =>
      rewrite (advance_below s s' x H) by side
  end.

Ltac lookup :=
  cbn [in_buf out_buf mem];
  repeat first
    [ rewrite lookup_insert_eq
    | rewrite lookup_insert_ne by side
    | frame_rw; cbn [in_buf out_buf mem] ];
  first [ reflexivity | eassumption ].

(** The buffer facts: every [buffer_le] hypothesis chains to the goal. *)
Ltac le_tac :=
  cbn [in_buf out_buf mem];
  repeat match goal with
         | H : advance _ _ |- _ => pose proof (proj1 H); clear H
         end;
  cbn [in_buf out_buf mem] in *;
  first [ assumption | apply buffer_le_refl
        | eauto 12 using buffer_le_trans, buffer_le_refl ].

Ltac mem_tac :=
  let x := fresh "x" in
  let Hx := fresh "Hx" in
  intros x Hx; cbn [in_buf out_buf mem];
  repeat first
    [ rewrite lookup_insert_ne by side
    | match goal with
      | H : advance ?s ?s' |- context [mem ?s' !! ?y] =>
          rewrite (proj2 H y) by side; cbn [in_buf out_buf mem]
      end ];
  reflexivity.

Ltac adv_tac :=
  first [ assumption
        | apply advance_refl
        | apply advance_intro; [ le_tac | mem_tac ]
        | match goal with
          | H : advance ?s1 ?s |- advance _ ?s =>
              eapply advance_trans; [| exact H ]; adv_tac
          end ].

Ltac csplit := repeat match goal with |- _ /\ _ => split end.

Ltac layout_fact HL :=
  let H := fresh "HL" in
  pose proof HL as H; unfold layout_ok in H;
  repeat match goal with H : _ /\ _ |- _ => destruct H end.

Ltac alloc_node_step :=
  apply outcome_bind; apply outcome_alloc_node; cbn [in_buf out_buf mem];
  [ let p := fresh "p" in
    let b' := fresh "b" in
    let Ha := fresh "Ha" in
    intros p b' Ha;
    let F1 := fresh "Hle" in
    let F2 := fresh "Hge" in
    let F3 := fresh "Hcur" in
    let F4 := fresh "Hal" in
    let F5 := fresh "Hnext" in
    destruct (alloc_facts _ _ _ _ Ha ltac:(lia)) as (F1 & F2 & F3 & F4 & F5);
    clear Ha; cbv beta
  | try solve [ adv_tac ] ].

Ltac modify_step :=
  apply outcome_bind; eapply outcome_modify; [ solve [ lookup ] | cbn [in_buf out_buf mem]; cbv beta ];
  try rewrite insert_insert_eq.

Lemma outcome_get_base E (Q : policy_node_t -> pstate -> Prop) p c b st :
  mem st !! p = Some c -> cell_base c = Some b -> Q b st -> outcome E Q (get_base p st).
Proof. intros Hc Hb HQ. unfold get_base, bind, load. rewrite Hc, Hb. exact HQ. Qed.

Lemma outcome_get_flags E (Q : flags_t -> pstate -> Prop) p c b st :
  mem st !! p = Some c -> cell_base c = Some b -> Q (flags b) st ->
  outcome E Q (get_flags p st).
Proof. intros Hc Hb HQ. unfold get_flags, get_base, bind, load. rewrite Hc, Hb. exact HQ. Qed.

Lemma outcome_get_type E (Q : PolicyNodeType -> pstate -> Prop) p c b st :
  mem st !! p = Some c -> cell_base c = Some b -> Q (type b) st ->
  outcome E Q (get_type p st).
Proof. intros Hc Hb HQ. unfold get_type, get_base, bind, load. rewrite Hc, Hb. exact HQ. Qed.

Lemma outcome_get_scripts E (Q : Z -> pstate -> Prop) p b qs i q st :
  mem st !! p = Some (policy_node_with_scripts_t b qs) ->
  qs !! i = Some q ->
  Q q st ->
  outcome E Q (get_scripts p i st).
Proof.
  intros Hc Hq HQ. unfold get_scripts, bind, load. rewrite Hc. rewrite Hq. exact HQ.
Qed.

Lemma consistent_leaf f :
  In f [flags_0; flags_1; flags_hash; flags_pk; flags_pkh; flags_pk_k; flags_pk_h; flags_older;
        flags_multi] ->
  flags_consistent f.
Proof. intros H. exact (proj1 (List.Forall_forall _ _) consistent_leaves f H). Qed.

Ltac consistent_tac :=
  first [ intros Hm; discriminate Hm
        | intros _; apply consistent_leaf; simpl; tauto
        | intros _; apply consistent_thresh
        | intros _; match goal with
                    | |- context [if ?c then _ else _] => destruct c
                    end; apply consistent_leaf; simpl; tauto ].

Ltac cell_norm :=
  cbn [map_base cell_base type flags blank_node blank_flags is_miniscript miniscript_type miniscript_mod_z
       miniscript_mod_o miniscript_mod_n miniscript_mod_d miniscript_mod_u in_buf out_buf mem].

Ltac alloc_facts_tac Ha :=
  let F1 := fresh "Hle" in
  let F2 := fresh "Hge" in
  let F3 := fresh "Hcur" in
  let F4 := fresh "Hal" in
  let F5 := fresh "Hnext" in
  destruct (alloc_facts _ _ _ _ Ha ltac:(lia)) as (F1 & F2 & F3 & F4 & F5);
  clear Ha.

Ltac unfold_ops :=
  unfold set_type, set_flags, set_not_miniscript, set_script, set_scripts, set_k, set_n,
    set_scriptlist, set_next, set_key_index, set_key_indexes, set_h, expect, read_key_index,
    aligned_cur, miniscript_flags, apply_rule, get_script, get_k, get_n.

Ltac step :=
  cbv beta zeta iota;
  lazymatch goal with
  | |- outcome _ _ (bind _ _ _) => apply outcome_bind
  | |- outcome _ _ (ret _ _) => apply outcome_ret
  | |- outcome _ _ (WITH_ERROR _ _) => apply outcome_error; solve [ adv_tac ]
  | |- outcome _ _ (out_of_fuel _) => apply outcome_out_of_fuel; solve [ adv_tac ]
  | |- outcome _ _ (alloc_node _ _ _) =>
      apply outcome_alloc_node; cbn [in_buf out_buf mem];
      [ let p := fresh "p" in
        let b' := fresh "b" in
        let Ha := fresh "Ha" in
        intros p b' Ha; alloc_facts_tac Ha
      | solve [ adv_tac ] ]
  | |- outcome _ _ (modify _ _ _) =>
      eapply outcome_modify; [ solve [ lookup ] | cell_norm; try rewrite insert_insert_eq ]
  | |- outcome _ _ (on_input _ _) =>
      apply outcome_on_input; cbn [in_buf out_buf mem];
      let a := fresh "a" in
      let b := fresh "ib" in
      let Hf := fresh "Hin" in
      intros a b Hf
  | |- outcome _ _ (input_length _) => apply outcome_input_length
  | |- outcome _ _ (get_cur _) => apply outcome_get_cur; cbn [in_buf out_buf mem]
  | |- outcome _ _ (alloc _ _ _) =>
      apply outcome_alloc; cbn [in_buf out_buf mem];
      let r := fresh "r" in
      let b' := fresh "b" in
      let Ha := fresh "Ha" in
      intros r b' Ha;
      let F1 := fresh "Hle" in
      let F2 := fresh "Hent" in
      pose proof (buffer_alloc_le _ _ _ _ _ Ha ltac:(lia)) as F1;
      pose proof (entry_ok_after_align _ _ _ Ha) as F2;
      clear Ha
  | |- outcome _ _ (get_flags _ _) =>
      eapply outcome_get_flags;
      [ solve [ lookup ] | first [ reflexivity | eassumption ] | cell_norm ]
  | |- outcome _ _ (get_type _ _) =>
      eapply outcome_get_type;
      [ solve [ lookup ] | first [ reflexivity | eassumption ] | cell_norm ]
  | |- outcome _ _ (get_scripts _ _ _) =>
      eapply outcome_get_scripts; [ solve [ lookup ] | eassumption | cbv beta ]
  | |- outcome _ _ (load _ _) => eapply outcome_load; [ solve [ lookup ] | cell_norm ]
  | |- outcome _ _ ((if ?c then _ else _) _) =>
      let E := fresh "E" in destruct c eqn:E
  | |- outcome _ _ ((match ?x with _ => _ end) _) =>
      let E := fresh "E" in destruct x eqn:E
  | |- outcome _ _ _ => progress unfold_ops
  end.

Ltac base_tac := unfold base_ok; cell_norm; consistent_tac.

Ltac wf_leaf :=
  first [ eapply wf_constant; [ solve [ lookup ] | base_tac | side ]
        | eapply wf_with_key; [ solve [ lookup ] | base_tac | side ]
        | eapply wf_with_hash; [ solve [ lookup ] | base_tac | side ]
        | eapply wf_with_uint32; [ solve [ lookup ] | base_tac | side ]
        | eapply wf_multisig; [ solve [ lookup ] | base_tac | side ] ].

Ltac finish HalX :=
  split; [ solve [ adv_tac ] |];
  split; [ side |];
  split; [ first [ exact HalX | intros; side ] |];
  split;
  [ unfold node_ok; eexists _, _; split; [ lookup |]; split; [ reflexivity |];
    cell_norm; consistent_tac
  | wf_leaf ].

Section Leaves.

Variable L : layout_t.
Hypothesis HL : layout_ok L.

Lemma parse_constant_safe token : node_safe token (parse_constant L token).
Proof.
  intros st. unfold parse_constant. layout_fact HL.
  repeat step. all: finish Hal.
Qed.

Lemma parse_hash_safe token n sz msg :
  0 < sz -> node_safe token (parse_hash token n sz msg).
Proof.
  intros Hsz st. unfold parse_hash.
  repeat step. all: finish Hal.
Qed.

Lemma parse_key_safe token depth ctx : node_safe token (parse_key L token depth ctx).
Proof.
  intros st. unfold parse_key. layout_fact HL.
  repeat step. all: finish Hal.
Qed.

Lemma parse_tr_safe token depth : node_safe token (parse_tr L token depth).
Proof.
  intros st. unfold parse_tr. layout_fact HL.
  repeat step. all: finish Hal.
Qed.

Lemma parse_older_after_safe token : node_safe token (parse_older_after L token).
Proof.
  intros st. unfold parse_older_after. layout_fact HL.
  repeat step. all: finish Hal.
Qed.

Lemma multisig_loop_safe st0 node b k ki fuel :
  forall s n,
    advance st0 s ->
    cur st0 <= node < cur s ->
    mem s !! node = Some (policy_node_multisig_t b k n ki) ->
    outcome (advance st0)
      (fun _ s' => advance st0 s' /\ cur s <= cur s'
                   /\ exists n', mem s' !! node = Some (policy_node_multisig_t b k n' ki))
      (multisig_loop L fuel node s).
Proof.
  layout_fact HL.
  induction fuel as [|fuel IH]; intros s n Hadv Hnode Hcell; cbn [multisig_loop].
  - apply outcome_out_of_fuel. exact Hadv.
  - repeat step.
    + split; [adv_tac|]. split; [side|]. eexists. lookup.
    + eapply outcome_mono; [eapply IH | auto |].
      * adv_tac.
      * side.
      * lookup.
      * cbv beta. intros _ s' (A1 & A2 & A3). split; [exact A1|]. split; [side | exact A3].
Qed.

(** The node of [multi] and [sortedmulti]: on success its threshold and
    its number of keys are within the bounds. *)
Lemma parse_multisig_strong token ctx st :
  outcome (advance st)
    (fun p s =>
       advance st s /\ cur st <= p < cur s
       /\ (entry_ok (out_buf st) -> p = cur st)
       /\ exists fl k n ki,
            mem s !! p = Some (policy_node_multisig_t (mk_node token fl) k n ki)
            /\ 1 <= k <= n /\ n <= MAX_POLICY_MAP_COSIGNERS
            /\ (is_miniscript fl = true -> flags_consistent fl))
    (parse_multisig L token ctx st).
Proof.
  unfold parse_multisig. layout_fact HL.
  repeat step.
  eapply outcome_mono; [eapply (multisig_loop_safe st) | auto |].
  - adv_tac.
  - side.
  - lookup.
  - cbv beta. intros _ s' (A1 & A2 & n' & A3).
    repeat step.
    all: apply negb_false_iff in E1; rewrite !andb_true_iff, !Z.leb_le in E1.
    all: split; [ solve [ adv_tac ] |]; split; [ side |]; split; [ exact Hal |].
    all: eexists _, _, _, _; split; [ lookup |].
    all: split; [ lia |]; split; [ lia |]; consistent_tac.
Qed.

Lemma parse_multisig_safe token ctx : node_safe token (parse_multisig L token ctx).
Proof.
  intros st. eapply outcome_mono; [apply parse_multisig_strong | auto |].
  cbv beta. intros p s (A1 & A2 & A3 & fl & k & n & ki & Hc & _ & _ & Hf).
  split; [exact A1|]. split; [exact A2|]. split; [exact A3|].
  split; [| eapply wf_multisig; [exact Hc | exact Hf | lia]].
  eexists _, _. split; [exact Hc|]. split; [reflexivity | exact Hf].
Qed.

End Leaves.

(** ** Nodes with children *)

Lemma node_ok_eq m m' p t : node_ok m p t -> m' !! p = m !! p -> node_ok m' p t.
Proof. intros (c & fl & H1 & H2 & H3) E. exists c, fl. rewrite E. auto. Qed.

Section Rec.

Variable L : layout_t.
Hypothesis HL : layout_ok L.
Variable rec : Z -> Z -> M unit.
Hypothesis Hrec : forall depth ctx, script_safe (rec depth ctx).

Ltac same := unfold cur in *; cbn [in_buf out_buf mem] in *; eassumption.

Ltac rec_step :=
  lazymatch goal with
  | |- outcome _ _ (rec _ _ _) =>
      eapply outcome_mono;
      [ apply Hrec; cbn [in_buf out_buf mem]; assumption
      | let s1 := fresh "s" in
        let H := fresh "Hadv" in
        intros s1 H; eapply advance_trans; [| exact H ]; solve [ adv_tac ]
      | let s1 := fresh "s" in
        let H1 := fresh "Hadv" in
        let H2 := fresh "Hlt" in
        let H3 := fresh "Hroot" in
        let H4 := fresh "Htree" in
        intros [] s1 (H1 & H2 & H3 & H4); cbv beta;
        let c := fresh "c" in
        let fl := fresh "fl" in
        let Hc := fresh "Hc" in
        let Hb := fresh "Hb" in
        let Hf := fresh "Hf" in
        pose proof H3 as (c & fl & Hc & Hb & Hf);
        unfold cur in Hc; cbn [in_buf out_buf mem] in Hc ]
  end.

Ltac steps := repeat first [ step | rec_step ].

(** The tree of a child, parsed earlier, in the current memory. *)
Ltac wf_child :=
  eapply wf_mono;
  [ eapply wf_frame; [ eassumption | intros ? ?; solve [ lookup ] ] | side ].

Ltac finish_with HalX tac :=
  split; [ solve [ adv_tac ] |];
  split; [ side |];
  split; [ first [ exact HalX | intros; side ] |];
  split;
  [ unfold node_ok; eexists _, _; split; [ lookup |]; split; [ reflexivity |];
    cell_norm; consistent_tac
  | tac ].

Lemma parse_sh_wsh_safe token depth ctx : node_safe token (parse_sh_wsh L rec token depth ctx).
Proof.
  intros st. unfold parse_sh_wsh. layout_fact HL.
  steps.
  all: finish_with Hal
         ltac:(eapply wf_with_script; [ solve [ lookup ] | base_tac | side | wf_child ]).
Qed.


Lemma children_ok_step m m' node hi hi' qs idx child t :
  children_ok m node hi qs idx ->
  (idx < List.length qs)%nat ->
  hi <= hi' ->
  node < child < hi' ->
  node_ok m' child t ->
  wf m' hi' to_node child ->
  (forall q, node < q < hi -> m' !! q = m !! q) ->
  children_ok m' node hi' (<[idx := child]> qs) (S idx).
Proof.
  intros Hch Hidx Hhi Hchild Hok Hwf Hm j Hj.
  destruct (Nat.eq_dec j idx) as [->|Hne].
  - exists child, t. split; [apply list_lookup_insert_eq; exact Hidx|]. split; [lia|].
    split; [exact Hok | exact Hwf].
  - destruct (Hch j ltac:(lia)) as (q & tq & Hq & Hrange & Hnq & Hwq).
    exists q, tq. split; [rewrite list_lookup_insert_ne by congruence; exact Hq|].
    split; [lia|]. split; [eapply node_ok_eq; [exact Hnq | apply Hm; lia]|].
    eapply wf_mono; [| exact Hhi].
    eapply wf_frame; [exact Hwq|]. intros x Hx. apply Hm. lia.
Qed.

Lemma parse_child_scripts_from_safe st0 node b depth n_children todo :
  forall idx s qs,
    advance st0 s ->
    cur st0 <= node < cur s ->
    mem s !! node = Some (policy_node_with_scripts_t b qs) ->
    (idx + todo <= List.length qs)%nat ->
    children_ok (mem s) node (cur s) qs idx ->
    outcome (advance st0)
      (fun _ s' =>
         advance st0 s' /\ cur s <= cur s'
         /\ exists qs',
              mem s' !! node = Some (policy_node_with_scripts_t b qs')
              /\ List.length qs' = List.length qs
              /\ children_ok (mem s') node (cur s') qs' (idx + todo))
      (parse_child_scripts_from rec depth node n_children todo (Z.of_nat idx) s).
Proof.
  induction todo as [|todo IH]; intros idx s qs Hadv Hnode Hcell Hlen Hch;
    cbn [parse_child_scripts_from].
  - apply outcome_ret. split; [exact Hadv|]. split; [lia|].
    exists qs. split; [exact Hcell|]. split; [reflexivity|]. rewrite Nat.add_0_r. exact Hch.
  - rewrite Nat2Z.id. steps.
    all: replace (Z.of_nat idx + 1) with (Z.of_nat (S idx)) by lia.
    all: (eapply outcome_mono; [eapply (IH (S idx)) | auto |]);
      [ solve [ adv_tac ] | side | lookup | rewrite length_insert; lia | |].
    all: cbn [in_buf out_buf mem].
    all: try (intros _ s1 (A1 & A2 & qs' & A3 & A5 & A4);
              split; [exact A1|]; split; [side|]; exists qs'; split; [exact A3|];
              split; [rewrite A5; apply length_insert|];
              replace (idx + S todo)%nat with (S idx + todo)%nat by lia; exact A4).
    all: eapply children_ok_step;
      [ exact Hch | lia | side | side | exact Hroot | same | intros q Hq; lookup ].
Qed.

Lemma parse_child_scripts_safe st0 node b depth n_children s qs :
  advance st0 s ->
  cur st0 <= node < cur s ->
  mem s !! node = Some (policy_node_with_scripts_t b qs) ->
  (Z.to_nat n_children <= List.length qs)%nat ->
  outcome (advance st0)
    (fun _ s' =>
       advance st0 s' /\ cur s <= cur s'
       /\ exists qs',
            mem s' !! node = Some (policy_node_with_scripts_t b qs')
            /\ List.length qs' = List.length qs
            /\ children_ok (mem s') node (cur s') qs' (Z.to_nat n_children))
    (parse_child_scripts rec depth node n_children s).
Proof.
  intros Hadv Hnode Hcell Hlen. unfold parse_child_scripts.
  apply (parse_child_scripts_from_safe st0 node b depth n_children (Z.to_nat n_children)
           O s qs Hadv Hnode Hcell Hlen).
  intros j Hj. lia.
Qed.

Ltac child_facts Hch j q :=
  let t := fresh "t" in
  let c := fresh "c" in
  let fl := fresh "fl" in
  let Hq := fresh "Hq" in
  let Hr := fresh "Hr" in
  let Hc := fresh "Hc" in
  let Hb := fresh "Hb" in
  let Hf := fresh "Hf" in
  let Hw := fresh "Hw" in
  destruct (Hch j ltac:(simpl; lia)) as (q & t & Hq & Hr & (c & fl & Hc & Hb & Hf) & Hw).

Lemma parse_with_script2_safe token depth rule :
  (forall X Y f, flags_consistent X -> flags_consistent Y -> rule X Y = inr f ->
                 flags_consistent f) ->
  node_safe token (parse_with_script2 L rec token depth rule).
Proof.
  intros Hrule st. unfold parse_with_script2. layout_fact HL.
  steps.
  eapply outcome_mono; [eapply (parse_child_scripts_safe st) | auto |].
  - adv_tac.
  - side.
  - lookup.
  - simpl. lia.
  - cbv beta. intros _ s' (A1 & A2 & qs' & A3 & A5 & A4).
    child_facts A4 0%nat q0. child_facts A4 1%nat q1.
    destruct qs' as [|x0 [|x1 [|x2 qs']]]; try discriminate A5.
    assert (x0 = q0) by (simpl in Hq; congruence).
    assert (x1 = q1) by (simpl in Hq0; congruence). subst x0 x1.
    steps.
    split; [ solve [ adv_tac ] |]. split; [ side |]. split; [ exact Hal |].
    split.
    + unfold node_ok. eexists _, _. split; [ lookup |]. split; [ reflexivity |].
      intros _. eapply Hrule; [| | eassumption]; auto.
    + eapply wf_with_scripts; [ solve [ lookup ] | | side | |].
      * intros _. cbn [flags]. eapply Hrule; [| | eassumption]; auto.
      * intros q [<- | [<- | []]]; side.
      * intros q [<- | [<- | []]]; wf_child.
Qed.

Lemma parse_andor_safe token depth : node_safe token (parse_andor L rec token depth).
Proof.
  intros st. unfold parse_andor. layout_fact HL.
  steps.
  eapply outcome_mono; [eapply (parse_child_scripts_safe st) | auto |].
  - adv_tac.
  - side.
  - lookup.
  - simpl. lia.
  - cbv beta. intros _ s' (A1 & A2 & qs' & A3 & A5 & A4).
    child_facts A4 0%nat q0. child_facts A4 1%nat q1. child_facts A4 2%nat q2.
    destruct qs' as [|x0 [|x1 [|x2 [|x3 qs']]]]; try discriminate A5.
    assert (x0 = q0) by (simpl in Hq; congruence).
    assert (x1 = q1) by (simpl in Hq0; congruence).
    assert (x2 = q2) by (simpl in Hq1; congruence). subst x0 x1 x2.
    steps.
    split; [ solve [ adv_tac ] |]. split; [ side |]. split; [ exact Hal |].
    split.
    + unfold node_ok. eexists _, _. split; [ lookup |]. split; [ reflexivity |].
      intros _. eapply consistent_andor; [| | | eassumption]; auto.
    + eapply wf_with_scripts; [ solve [ lookup ] | | side | |].
      * intros _. cbn [flags]. eapply consistent_andor; [| | | eassumption]; auto.
      * intros q [<- | [<- | [<- | []]]]; side.
      * intros q [<- | [<- | [<- | []]]]; wf_child.
Qed.

Lemma thresh_loop_safe st0 node b k sl depth fuel :
  forall s curp sc cz co cnt,
    advance st0 s ->
    cur st0 <= node < cur s ->
    node < sl ->
    item_chain (mem s) cnt sl curp ->
    sl + Z.of_nat cnt <= curp < cur s ->
    mem s !! node = Some (policy_node_thresh_t b k (size_t_of (Z.of_nat cnt)) sl) ->
    mem s !! curp = Some (policy_node_scriptlist_t sc NULL) ->
    outcome (advance st0)
      (fun _ s' =>
         advance st0 s' /\ cur s <= cur s'
         /\ (exists cnt' last sc',
               mem s' !! node
               = Some (policy_node_thresh_t b k (size_t_of (Z.of_nat (S cnt'))) sl)
               /\ item_chain (mem s') cnt' sl last
               /\ mem s' !! last = Some (policy_node_scriptlist_t sc' NULL)
               /\ sl + Z.of_nat cnt' <= last < cur s')
         /\ wf (mem s') (cur s') to_item sl)
      (thresh_loop L rec fuel depth node curp cz co s).
Proof.
  layout_fact HL.
  assert (Hsucc : forall c : nat,
            size_t_of (size_t_of (Z.of_nat c) + 1) = size_t_of (Z.of_nat (S c))).
  { intros c. unfold size_t_of. rewrite Nat2Z.inj_succ. unfold Z.succ.
    apply Zplus_mod_idemp_l. }
  induction fuel as [|fuel IH];
    intros s curp sc cz co cnt Hadv Hnode Hsl Hchain Hcurp Hcell Hlist;
    cbn [thresh_loop].
  - apply outcome_out_of_fuel. exact Hadv.
  - pose proof (item_chain_le _ _ _ _ Hchain) as Hle.
    steps.
    all: rewrite ?Hsucc in *.
    all: try (split; [ solve [ adv_tac ] |]; split; [ side |];
              split;
              [ exists cnt; eexists _, _; split; [ solve [ lookup ] |];
                split; [ eapply item_chain_frame; [exact Hchain|];
                         intros ? ?; solve [ lookup ] |];
                split; [ solve [ lookup ] | side ]
              | eapply item_chain_close;
                [ eapply item_chain_frame; [exact Hchain|]; intros ? ?; solve [ lookup ]
                | eapply wf_last; [ solve [ lookup ] | side | wf_child ] ] ]).
    all: (eapply outcome_mono; [eapply (IH _ _ _ _ _ (S cnt)) | auto |]);
      [ solve [ adv_tac ] | side | exact Hsl
      | cbn [mem]; eapply item_chain_snoc;
        [ eapply item_chain_frame; [exact Hchain|]; intros ? ?; solve [ lookup ]
        | solve [ lookup ] | side | wf_child ]
      | rewrite Nat2Z.inj_succ; side | lookup | lookup |].
    all: cbv beta; intros _ s' (A1 & A2 & A3 & A4); split; [exact A1|]; split; [side|];
      split; [exact A3 | exact A4].
Qed.

(** The node of [thresh]: on success its threshold is at least 1, and its
    list has one element for each child counted in [n]. *)
Lemma parse_thresh_strong token depth st :
  outcome (advance st)
    (fun p s =>
       advance st s /\ cur st <= p < cur s
       /\ (entry_ok (out_buf st) -> p = cur st)
       /\ (exists fl k n sl,
             mem s !! p = Some (policy_node_thresh_t (mk_node token fl) k n sl)
             /\ 1 <= k
             /\ (is_miniscript fl = true -> flags_consistent fl)
             /\ exists cnt last sc,
                  n = size_t_of (Z.of_nat (S cnt))
                  /\ item_chain (mem s) cnt sl last
                  /\ mem s !! last = Some (policy_node_scriptlist_t sc NULL)
                  /\ p < sl /\ sl + Z.of_nat cnt <= last < cur s)
       /\ wf (mem s) (cur s) to_node p)
    (parse_thresh L rec token depth st).
Proof.
  unfold parse_thresh. layout_fact HL.
  steps.
  eapply outcome_mono; [eapply (thresh_loop_safe st _ _ _ _ _ _ _ _ _ _ _ O) | auto |].
  - adv_tac.
  - side.
  - instantiate (1 := p0). side.
  - reflexivity.
  - simpl. side.
  - lookup.
  - lookup.
  - cbv beta. intros counts s' (A1 & A2 & (cnt' & last & sc' & A3 & A5 & A6 & A7) & A4).
    pose proof (item_chain_le _ _ _ _ A5) as Hle'.
    steps.
    split; [ solve [ adv_tac ] |]. split; [ side |]. split; [ exact Hal |].
    split.
    + eexists _, _, _, _. split; [ lookup |]. split; [ apply Z.ltb_ge in E1; lia |].
      split; [ consistent_tac |].
      exists cnt', last, sc'. split; [reflexivity|].
      split; [ eapply item_chain_frame; [exact A5|]; intros ? ?; solve [ lookup ] |].
      split; [ cbn [mem]; rewrite lookup_insert_ne by side; exact A6 |].
      split; side.
    + eapply wf_thresh; [ solve [ lookup ] | base_tac | | wf_child ]. side.
Qed.

Lemma parse_thresh_safe token depth : node_safe token (parse_thresh L rec token depth).
Proof.
  intros st. eapply outcome_mono; [apply parse_thresh_strong | auto |].
  cbv beta. intros p s (A1 & A2 & A3 & (fl & k & n & sl & Hc & _ & Hf & _) & A4).
  split; [exact A1|]. split; [exact A2|]. split; [exact A3|].
  split; [| exact A4].
  eexists _, _. split; [exact Hc|]. split; [reflexivity | exact Hf].
Qed.

End Rec.

(** ** The wrappers *)

Lemma wrapper_chain_le m ws : forall a x, wrapper_chain m a ws x -> a <= x.
Proof.
  induction ws as [|w ws IH]; intros a x; simpl.
  - intros ->. lia.
  - intros (t & fl & next & _ & _ & Hlt & Hc). apply IH in Hc. lia.
Qed.

Lemma wrapper_chain_frame m m' ws :
  forall a x,
    wrapper_chain m a ws x ->
    (forall z, a <= z < x -> m' !! z = m !! z) ->
    wrapper_chain m' a ws x.
Proof.
  induction ws as [|w ws IH]; intros a x; simpl; [auto|].
  intros (t & fl & next & Ht & Hm & Hlt & Hc) Hf.
  pose proof (wrapper_chain_le _ _ _ _ Hc) as Hle.
  exists t, fl, next. repeat split; auto.
  - rewrite Hf by lia. exact Hm.
  - apply IH; [exact Hc|]. intros z Hz. apply Hf. lia.
Qed.

Lemma wrapper_chain_snoc m ws :
  forall a y w t fl x,
    wrapper_chain m a ws y ->
    wrapper_token w = Some t ->
    m !! y = Some (policy_node_with_script_t (mk_node t fl) x) ->
    y < x ->
    wrapper_chain m a (ws ++ [w]) x.
Proof.
  induction ws as [|w0 ws IH]; intros a y w t fl x; simpl.
  - intros -> Ht Hm Hlt. exists t, fl, x. repeat split; auto.
  - intros (t0 & fl0 & next & Ht0 & Hm0 & Hlt0 & Hc) Ht Hm Hlt.
    exists t0, fl0, next. repeat split; auto. eapply IH; eauto.
Qed.

Lemma wrapper_chain_snoc_inv m ws :
  forall a w x,
    wrapper_chain m a (ws ++ [w]) x ->
    exists y t fl,
      wrapper_chain m a ws y
      /\ wrapper_token w = Some t
      /\ m !! y = Some (policy_node_with_script_t (mk_node t fl) x)
      /\ y < x.
Proof.
  induction ws as [|w0 ws IH]; intros a w x; simpl.
  - intros (t & fl & next & Ht & Hm & Hlt & ->). exists a, t, fl. repeat split; auto.
  - intros (t0 & fl0 & next & Ht0 & Hm0 & Hlt0 & Hc).
    apply IH in Hc as (y & t & fl & Hc & Ht & Hm & Hlt).
    exists y, t, fl. split; [|auto]. exists t0, fl0, next. repeat split; auto.
Qed.

Lemma outcome_walk_wrappers E (Q : Z -> pstate -> Prop) ws :
  forall a y s,
    wrapper_chain (mem s) a ws y ->
    Q y s ->
    outcome E Q (walk_wrappers a (List.length ws) s).
Proof.
  induction ws as [|w ws IH]; intros a y s; simpl.
  - intros -> HQ. exact HQ.
  - intros (t & fl & next & Ht & Hm & Hlt & Hc) HQ.
    apply outcome_bind. unfold get_script. apply outcome_bind.
    eapply outcome_load; [exact Hm|]. cbv beta iota. apply outcome_ret.
    eapply IH; eauto.
Qed.


Lemma wrapper_flags_loop_safe ws :
  forall a x tx s hi,
    wrapper_chain (mem s) a ws x ->
    node_ok (mem s) x tx ->
    wf (mem s) hi to_node x ->
    outcome (flags_only a x s)
      (fun _ s' =>
         flags_only a x s s'
         /\ wrapper_chain (mem s') a ws x
         /\ match ws with
            | [] => node_ok (mem s') a tx
            | w :: _ => exists t, wrapper_token w = Some t /\ node_ok (mem s') a t
            end
         /\ wf (mem s') hi to_node a)
      (wrapper_flags_loop (List.length ws) a s).
Proof.
  induction ws as [|w ws IH] using rev_ind; intros a x tx s hi Hc Hx Hwx.
  - simpl in *. subst x. split; [repeat split|]. split; [reflexivity|].
    split; [exact Hx | exact Hwx].
  - rewrite List.length_app. cbn [List.length]. rewrite Nat.add_1_r.
    cbn [wrapper_flags_loop].
    apply wrapper_chain_snoc_inv in Hc as (y & t & fl & Hcy & Ht & Hmy & Hlt).
    destruct Hx as (cx & flx & Hcx & Hbx & Hfx).
    assert (Hrefl : flags_only a x s s) by (repeat split).
    apply outcome_bind. eapply outcome_walk_wrappers; [exact Hcy|].
    apply outcome_bind. unfold get_script. apply outcome_bind.
    eapply outcome_load; [exact Hmy|]. cbv beta iota. apply outcome_ret.
    apply outcome_bind. unfold miniscript_flags. apply outcome_bind.
    eapply outcome_get_flags; [exact Hcx | exact Hbx |]. cbn [flags].
    destruct (is_miniscript flx) eqn:Emini; [|exact Hrefl].
    apply outcome_ret. apply outcome_bind.
    eapply outcome_get_type; [exact Hmy | reflexivity |]. cbn [type].
    apply outcome_bind. unfold apply_rule.
    destruct (wrapper_flags t flx) as [msg|f] eqn:Erule; [exact Hrefl|].
    unfold set_flags. eapply outcome_modify; [exact Hmy|]. cbn [map_base type flags].
    set (s1 := mk_pstate (in_buf s) (out_buf s)
                 (<[y := policy_node_with_script_t (mk_node t f) x]> (mem s))).
    pose proof (wrapper_chain_le _ _ _ _ Hcy) as Hay.
    assert (Hc1 : wrapper_chain (mem s1) a ws y).
    { eapply wrapper_chain_frame; [exact Hcy|]. intros z Hz. unfold s1. cbn [mem].
      apply lookup_insert_ne. lia. }
    assert (Hy1 : node_ok (mem s1) y t).
    { exists (policy_node_with_script_t (mk_node t f) x), f. unfold s1. cbn [mem].
      split; [apply lookup_insert_eq|]. split; [reflexivity|].
      intros _. eapply consistent_wrapper; [|exact Erule]. apply Hfx. reflexivity. }
    assert (Hstep : forall s', flags_only a y s1 s' -> flags_only a x s s').
    { intros s' (F1 & F2 & F3). split; [exact F1|]. split; [exact F2|].
      intros z Hz. rewrite F3 by lia. unfold s1. cbn [mem]. apply lookup_insert_ne. lia. }
    assert (Hw1 : wf (mem s1) hi to_node y).
    { eapply wf_with_script; [unfold s1; cbn [mem]; apply lookup_insert_eq | | exact Hlt |].
      - intros _. cbn [flags]. eapply consistent_wrapper; [|exact Erule].
        apply Hfx. reflexivity.
      - eapply wf_frame; [exact Hwx|]. intros z Hz. unfold s1. cbn [mem].
        apply lookup_insert_ne. lia. }
    eapply outcome_mono; [exact (IH a y t s1 hi Hc1 Hy1 Hw1) | exact Hstep |].
    cbv beta. intros _ s' (F & Hchain & Hroot & Hwa). split; [apply Hstep; exact F|].
    split.
    { eapply wrapper_chain_snoc; [exact Hchain | exact Ht | | exact Hlt].
      destruct F as (_ & _ & F3). rewrite F3 by lia. unfold s1. cbn [mem].
      apply lookup_insert_eq. }
    split; [| exact Hwa].
    destruct ws as [|w0 ws0]; cbn [app].
    + exists t. split; [exact Ht | exact Hroot].
    + exact Hroot.
Qed.

Section Wrap.

Variable L : layout_t.
Hypothesis HL : layout_ok L.

Lemma parse_wrappers_safe st0 a ws :
  forall s pre w wc t fl sc rest,
    in_buf s = ws ++ rest ->
    Forall (fun c => is_wrapper_char c = true) ws ->
    advance st0 s ->
    cur st0 <= a ->
    wrapper_chain (mem s) a pre w ->
    wrapper_token wc = Some t ->
    mem s !! w = Some (policy_node_with_script_t (mk_node t fl) sc) ->
    w < cur s ->
    outcome (advance st0)
      (fun r s' =>
         exists last pre' wl tl fll scl,
           r = Some last /\ in_buf s' = rest /\ advance st0 s' /\ cur s <= cur s'
           /\ pre ++ wc :: ws = pre' ++ [wl]
           /\ wrapper_chain (mem s') a pre' last
           /\ wrapper_token wl = Some tl
           /\ mem s' !! last = Some (policy_node_with_script_t (mk_node tl fll) scl)
           /\ w <= last < cur s')
      (parse_wrappers L (List.length ws) (Some w) s).
Proof.
  layout_fact HL.
  induction ws as [|c ws IH]; intros s pre w wc t fl sc rest Hin Hws Hadv Ha Hc Ht Hw Hlt.
  - cbn [List.length parse_wrappers]. apply outcome_ret. simpl in Hin.
    exists w, pre, wc, t, fl, sc. csplit; auto; lia.
  - cbn [List.length parse_wrappers].
    apply List.Forall_cons_iff in Hws as [Hcw Hws].
    destruct (wrapper_char_token c Hcw) as (t' & Ht').
    pose proof (wrapper_chain_le _ _ _ _ Hc) as Haw.
    step. step. step.
    apply outcome_on_input. cbn [in_buf out_buf mem]. rewrite Hin. cbn [app buffer_read_u8].
    intros o ib Hread. injection Hread as <- <-. cbv beta iota. rewrite Ht'.
    repeat step.
    eapply outcome_mono; [eapply (IH _ (pre ++ [wc]) p c t') | auto |].
    + reflexivity.
    + exact Hws.
    + adv_tac.
    + exact Ha.
    + cbn [mem]. eapply wrapper_chain_snoc; [| exact Ht | lookup | side].
      eapply wrapper_chain_frame; [exact Hc|]. intros z Hz. lookup.
    + exact Ht'.
    + lookup.
    + side.
    + cbv beta. intros r s' (last & pre' & wl & tl & fll & scl & F).
      destruct F as (F1 & F2 & F3 & F4 & F5 & F6 & F7 & F8 & F9).
      exists last, pre', wl, tl, fll, scl.
      rewrite <- List.app_assoc in F5. cbn [app] in F5.
      csplit; auto; side.
Qed.

End Wrap.

(** ** The fragments and the body of [parse_script] *)

Lemma advance_same_arena st0 st1 s :
  out_buf st1 = out_buf st0 -> mem st1 = mem st0 -> advance st1 s -> advance st0 s.
Proof.
  unfold advance, cur. intros -> ->. auto.
Qed.

Lemma node_safe_on {t m} (H : node_safe t m) st0 ib :
  outcome (advance st0)
    (fun p s => advance st0 s /\ cur st0 <= p < cur s
                /\ (entry_ok (out_buf st0) -> p = cur st0)
                /\ node_ok (mem s) p t
                /\ wf (mem s) (cur s) to_node p)
    (m (mk_pstate ib (out_buf st0) (mem st0))).
Proof.
  eapply outcome_mono; [apply H | |].
  - intros s. apply advance_same_arena; reflexivity.
  - cbv beta. intros p s (A1 & A2 & A3 & A4 & A5).
    split; [eapply advance_same_arena; [| | exact A1]; reflexivity|].
    split; [exact A2|]. split; [exact A3|]. split; [exact A4 | exact A5].
Qed.

Section Node.

Variable L : layout_t.
Hypothesis HL : layout_ok L.
Variable rec : Z -> Z -> M unit.
Hypothesis Hrec : forall depth ctx, script_safe (rec depth ctx).

Lemma parse_node_safe token depth ctx : node_safe token (parse_node L rec token depth ctx).
Proof.
  layout_fact HL.
  destruct token; cbn [parse_node];
    first
      [ apply parse_constant_safe; exact HL
      | apply parse_sh_wsh_safe; assumption
      | apply parse_hash_safe; lia
      | apply parse_andor_safe; assumption
      | apply parse_with_script2_safe;
        [ exact HL | exact Hrec
        | first [ exact consistent_and_v | exact consistent_and_b | exact consistent_and_n
                | exact consistent_or_b | exact consistent_or_c | exact consistent_or_d
                | exact consistent_or_i ] ]
      | apply parse_thresh_safe; assumption
      | apply parse_key_safe; exact HL
      | apply parse_tr_safe; exact HL
      | apply parse_older_after_safe; exact HL
      | apply parse_multisig_safe; exact HL
      | intros st; apply outcome_error; apply advance_refl ].
Qed.

Lemma parse_fragment_safe depth ctx st :
  outcome (advance st)
    (fun p s => advance st s /\ cur st <= p < cur s
                /\ (entry_ok (out_buf st) -> p = cur st)
                /\ node_ok (mem s) p (fst (parse_token (in_buf st)))
                /\ wf (mem s) (cur s) to_node p)
    (parse_fragment L rec depth ctx st).
Proof.
  unfold parse_fragment.
  step. step. cbv beta zeta.
  assert (Ht : a = fst (parse_token (in_buf st))) by (rewrite Hin; reflexivity).
  rewrite <- Ht. clear Ht Hin.
  step.
  assert (Hgo : forall ib1,
    outcome (advance st)
      (fun p s => advance st s /\ cur st <= p < cur s
                  /\ (entry_ok (out_buf st) -> p = cur st)
                  /\ node_ok (mem s) p a
                  /\ wf (mem s) (cur s) to_node p)
      ((parsed_node <- parse_node L rec a depth ctx ;;
        (if negb (PolicyNodeType_eqb a TOKEN_0) && negb (PolicyNodeType_eqb a TOKEN_1)
         then expect (chr ")") "Expected ')'" else ret tt) ;;
        ret parsed_node) (mk_pstate ib1 (out_buf st) (mem st)))).
  { intros ib1. apply outcome_bind.
    eapply outcome_mono; [apply (node_safe_on (parse_node_safe a depth ctx)) | auto |].
    cbv beta. intros p s (A1 & A2 & A3 & A4 & A5).
    repeat step.
    all: csplit; [ solve [ adv_tac ] | side | side | exact A3 | exact A4 | exact A5 ]. }
  repeat first [ apply Hgo | step ].
Qed.

End Node.

Lemma parse_fragment_on L (HL : layout_ok L) rec
    (Hrec : forall depth ctx, script_safe (rec depth ctx)) depth ctx st0 s ib :
  advance st0 s ->
  outcome (advance st0)
    (fun p s' => advance st0 s' /\ cur s <= p < cur s'
                 /\ (entry_ok (out_buf s) -> p = cur s)
                 /\ (forall x, x < cur s -> mem s' !! x = mem s !! x)
                 /\ node_ok (mem s') p (fst (parse_token ib))
                 /\ wf (mem s') (cur s') to_node p)
    (parse_fragment L rec depth ctx (mk_pstate ib (out_buf s) (mem s))).
Proof.
  intros Hadv.
  eapply outcome_mono; [apply (parse_fragment_safe L HL rec Hrec) | |].
  - intros s' H. eapply advance_trans; [exact Hadv|].
    eapply advance_same_arena; [| | exact H]; reflexivity.
  - cbv beta. intros p s' (A1 & A2 & A3 & A4 & A5).
    assert (A1' : advance s s') by (eapply advance_same_arena; [| | exact A1]; reflexivity).
    split; [eapply advance_trans; eassumption|].
    split; [exact A2|]. split; [exact A3|].
    split; [|split; [exact A4 | exact A5]].
    intros x Hx. apply (advance_below _ _ _ A1'). exact Hx.
Qed.

Lemma flags_only_advance st0 a x s s' :
  advance st0 s -> cur st0 <= a -> x <= cur s -> flags_only a x s s' -> advance st0 s'.
Proof.
  intros [H1 H2] Ha Hx (G1 & G2 & G3). unfold advance, cur in *. rewrite G2.
  split; [exact H1|]. intros z Hz. rewrite G3 by lia. apply H2. lia.
Qed.

Section Body2.

Variable L : layout_t.
Hypothesis HL : layout_ok L.
Variable rec : Z -> Z -> M unit.
Hypothesis Hrec : forall depth ctx, script_safe (rec depth ctx).

Lemma parse_script_body_safe depth ctx : script_safe (parse_script_body L rec depth ctx).
Proof.
  intros st Hent. unfold parse_script_body. layout_fact HL.
  apply outcome_bind. apply outcome_on_input. intros b ib Hb. injection Hb as <- <-.
  apply outcome_bind. apply outcome_get_cur. cbn [out_buf].
  apply outcome_bind.
  destruct (has_wrapper_prefix (in_buf st)) eqn:Hpre.
  - destruct (wrapper_prefix_decompose _ Hpre) as (ws & rest & Hb & Hws & Hlen).
    rewrite <- Hlen.
    destruct ws as [|c ws].
    + cbn [List.length parse_wrappers app] in *.
      assert (Hroot : root_type (in_buf st) = fst (parse_token rest))
        by (unfold root_type; rewrite Hpre, Hb; reflexivity).
      rewrite Hroot.
      step. step. step.
      apply outcome_on_input. cbn [in_buf]. rewrite Hb.
      change (buffer_seek_cur (chr ":" :: rest) 1) with rest.
      intros u ib Hu. injection Hu as <- <-.
      step. cbn [fst snd]. step.
      eapply outcome_mono;
        [ apply (parse_fragment_on L HL rec Hrec depth ctx st st rest (advance_refl st))
        | auto |].
      cbv beta. intros p s (A1 & A2 & A3 & A4 & A5 & A6).
      specialize (A3 Hent). subst p.
      repeat step.
      all: cbn [wrapper_flags_loop]; apply outcome_ret.
      all: csplit; [ solve [ adv_tac ] | side | exact A5 | exact A6 ].
    + cbn [List.length parse_wrappers app] in *.
      apply List.Forall_cons_iff in Hws as [Hcw Hws].
      destruct (wrapper_char_token c Hcw) as (t & Ht).
      assert (Hroot : root_type (in_buf st) = t)
        by (unfold root_type; rewrite Hpre, Hb, Ht; reflexivity).
      rewrite Hroot.
      step. step. step. specialize (Hal Hent). step.
      apply outcome_on_input. cbn [in_buf out_buf mem]. rewrite Hb. cbn [buffer_read_u8].
      intros o ib Hread. injection Hread as <- <-. cbv beta iota. rewrite Ht.
      repeat step.
      eapply outcome_mono;
        [ eapply (parse_wrappers_safe L HL st p ws _ [] p c t) | auto |].
      * reflexivity.
      * exact Hws.
      * adv_tac.
      * side.
      * reflexivity.
      * exact Ht.
      * lookup.
      * side.
      * cbv beta. intros r s' (last & pre' & wl & tl & fll & scl & F).
        destruct F as (F1 & F2 & F3 & F4 & F5 & F6 & F7 & F8 & F9).
        subst r. cbn [app] in F5.
        step.
        apply outcome_on_input. rewrite F2.
        change (buffer_seek_cur (chr ":" :: rest) 1) with rest.
        intros u ib Hu. injection Hu as <- <-.
        step. cbn [fst snd]. step.
        eapply outcome_mono;
          [ apply (parse_fragment_on L HL rec Hrec depth ctx st s' rest F3) | auto |].
        cbv beta. intros q s2 (A1 & A2 & A3 & A4 & A5 & A6).
        assert (Hlast : mem s2 !! last
                        = Some (policy_node_with_script_t (mk_node tl fll) scl))
          by (rewrite A4 by lia; exact F8).
        repeat step.
        all: replace (S (List.length ws)) with (List.length (pre' ++ [wl]))
          by (rewrite <- F5; reflexivity).
        all: rewrite <- Hal.
        all: (eapply outcome_mono;
              [ eapply (wrapper_flags_loop_safe (pre' ++ [wl]) p q (fst (parse_token rest))
                          _ (cur s2))
              | |]);
          [ cbn [mem]; eapply wrapper_chain_snoc;
            [ eapply wrapper_chain_frame; [exact F6|];
              intros z Hz; rewrite lookup_insert_ne by lia; apply A4; lia
            | exact F7 | apply lookup_insert_eq | lia ]
          | eapply node_ok_eq; [exact A5|]; cbn [mem]; apply lookup_insert_ne; lia
          | eapply wf_frame; [exact A6|]; intros z Hz; cbn [mem]; apply lookup_insert_ne; lia
          | intros s3 G; eapply flags_only_advance; [| | | exact G];
            [ solve [ adv_tac ] | side | side ]
          | cbv beta; intros _ s3 (G & Hch & Hr & Hwa); rewrite <- F5 in Hr;
            destruct Hr as (t0 & Ht0 & Hr);
            assert (t0 = t) by congruence; subst t0;
            split; [ eapply flags_only_advance; [| | | exact G];
                     [ solve [ adv_tac ] | side | side ] |];
            split; [ destruct G as (G1 & G2 & G3); unfold cur; rewrite G2; side |];
            split; [ unfold cur; rewrite <- Hal; exact Hr |];
            unfold cur at 2; rewrite <- Hal;
            destruct G as (G1 & G2 & G3);
            unfold cur; rewrite G2; exact Hwa ].
  - assert (Hroot : root_type (in_buf st) = fst (parse_token (in_buf st)))
      by (unfold root_type; rewrite Hpre; reflexivity).
    rewrite Hroot.
    step. cbn [fst snd]. step.
    eapply outcome_mono;
      [ apply (parse_fragment_on L HL rec Hrec depth ctx st st (in_buf st) (advance_refl st))
      | auto |].
    cbv beta. intros p s (A1 & A2 & A3 & A4 & A5 & A6).
    specialize (A3 Hent). subst p.
    repeat step.
    all: cbn [wrapper_flags_loop]; apply outcome_ret.
    all: csplit; [ solve [ adv_tac ] | side | exact A5 | exact A6 ].
Qed.

End Body2.

Lemma parse_script_fuel_safe (L : layout_t) (HL : layout_ok L) (fuel : nat) :
  forall depth ctx, script_safe (parse_script_fuel L fuel depth ctx).
Proof.
  induction fuel as [|fuel IH]; intros depth ctx; cbn [parse_script_fuel].
  - intros st _. apply outcome_out_of_fuel. apply advance_refl.
  - apply parse_script_body_safe; assumption.
Qed.

(** What [parse_policy_map] guarantees, whatever its result: the run is
    defined, it stays within the output region, and on success the root of
    the policy is at the start of the region. *)
Lemma parse_policy_map_safe (L : layout_t) (out out_len : Z) (st : pstate) :
  layout_ok L ->
  let st0 := mk_pstate (in_buf st) (buffer_create out out_len) (mem st) in
  outcome (fun s => s = st \/ advance st0 s)
    (fun _ s => advance st0 s /\ out < cur s
                /\ node_ok (mem s) out (root_type (in_buf st))
                /\ wf (mem s) (cur s) to_node out)
    (parse_policy_map L out out_len st).
Proof.
  intros HL st0. unfold parse_policy_map.
  destruct (out mod 4 =? 0) eqn:Hal; cbn [negb].
  - apply Z.eqb_eq in Hal.
    assert (Hcur : cur st0 = out) by (unfold st0, cur, buffer_get_cur, buffer_create; simpl; lia).
    unfold bind at 1. fold st0. unfold parse_script. apply outcome_bind.
    apply outcome_input_length.
    eapply outcome_mono; [apply (parse_script_fuel_safe L HL) | |].
    + apply aligned_entry_ok. fold (cur st0). rewrite Hcur. exact Hal.
    + intros s H. right. exact H.
    + cbv beta. intros _ s H. rewrite Hcur in H. exact H.
  - left. reflexivity.
Qed.

(** ** What [parse_policy_map] guarantees *)

(** X15.  [parse_policy_map] never reads or writes a field through a
    pointer to storage that holds no node: every node it goes through was
    allocated and given its kind earlier in the same call. *)
Theorem parse_policy_map_defined (L : layout_t) (out out_len : Z) (st : pstate) :
  layout_ok L ->
  fst (parse_policy_map L out out_len st) <> Undefined.
Proof.
  intros HL. pose proof (parse_policy_map_safe L out out_len st HL) as H. cbv zeta in H.
  destruct (parse_policy_map L out out_len st) as [[] s]; cbn [fst outcome] in *;
    try discriminate.
  destruct H.
Qed.

Lemma parse_policy_map_defined_witness :
  let st := mk_pstate (bytes_of_string "wsh(and_v(v:pk(@0),older(144)))")
              (buffer_create 4096 512) ∅ in
  fst (parse_policy_map layout32 4096 512 st) <> Undefined.
Proof.
  intros st. apply (parse_policy_map_defined layout32 4096 512 st). exact layout32_ok.
Defined.

(** X16.  Whatever its result, [parse_policy_map] leaves the memory outside
    the output region [out, out + out_len) as it was: nodes are stored at
    addresses of the region only. *)
Theorem parse_policy_map_confined (L : layout_t) (out out_len : Z) (st : pstate) (x : Z) :
  layout_ok L ->
  0 <= out_len ->
  x < out \/ out + out_len <= x ->
  mem (snd (parse_policy_map L out out_len st)) !! x = mem st !! x.
Proof.
  intros HL Hlen Hx.
  pose proof (parse_policy_map_safe L out out_len st HL) as H. cbv zeta in H.
  set (st0 := mk_pstate (in_buf st) (buffer_create out out_len) (mem st)) in *.
  assert (Hadv : forall s, advance st0 s -> mem s !! x = mem st !! x).
  { intros s [(Hp & Hs & Ho & Hb) Hm]. change (mem st) with (mem st0). apply Hm.
    unfold st0, cur, buffer_get_cur, buffer_create in *. cbn [out_buf ptr size offset] in *.
    lia. }
  destruct (parse_policy_map L out out_len st) as [[] s]; cbn [snd outcome] in *.
  - apply Hadv. apply H.
  - destruct H as [-> | H]; [reflexivity | exact (Hadv _ H)].
  - destruct H as [-> | H]; [reflexivity | exact (Hadv _ H)].
  - destruct H.
Qed.

Lemma parse_policy_map_confined_witness :
  let st := mk_pstate (bytes_of_string "wsh(and_v(v:pk(@0),older(144)))")
              (buffer_create 0 0) ∅ in
  mem (snd (parse_policy_map layout32 4096 64 st)) !! 4160 = mem st !! 4160.
Proof.
  intros st. apply (parse_policy_map_confined layout32 4096 64 st 4160).
  - exact layout32_ok.
  - lia.
  - right. lia.
Defined.

(** X17.  When [parse_policy_map] accepts, the node at the start of the
    output region is the root of the policy: its kind is the wrapper of
    the first letter of the prefix, or the token when there is no wrapper,
    and if it is miniscript its type and properties are consistent. *)
Theorem parse_policy_map_root (L : layout_t) (out out_len : Z) (st st' : pstate) :
  layout_ok L ->
  parse_policy_map L out out_len st = (Ok tt, st') ->
  exists c fl,
    mem st' !! out = Some c
    /\ cell_base c = Some (mk_node (root_type (in_buf st)) fl)
    /\ (is_miniscript fl = true -> flags_consistent fl).
Proof.
  intros HL E.
  pose proof (parse_policy_map_safe L out out_len st HL) as H. cbv zeta in H.
  rewrite E in H. cbn [outcome] in H. exact (proj1 (proj2 (proj2 H))).
Qed.

Lemma parse_policy_map_root_witness :
  let st := mk_pstate (bytes_of_string "wsh(and_v(v:pk(@0),older(144)))")
              (buffer_create 0 0) ∅ in
  exists c fl,
    mem (snd (parse_policy_map layout32 4096 512 st)) !! 4096 = Some c
    /\ cell_base c = Some (mk_node (root_type (in_buf st)) fl)
    /\ (is_miniscript fl = true -> flags_consistent fl).
Proof.
  intros st.
  apply (parse_policy_map_root layout32 4096 512 st
           (snd (parse_policy_map layout32 4096 512 st))).
  - exact layout32_ok.
  - vm_compute. reflexivity.
Defined.

(** X18.  The node of an accepted [multi] or [sortedmulti] holds a
    threshold [k] and a number of keys [n] with [1 <= k <= n <= 16]. *)
Theorem parse_multisig_bounds
    (L : layout_t) (token : PolicyNodeType) (context_flags : Z) (st st' : pstate) (p : Z) :
  layout_ok L ->
  parse_multisig L token context_flags st = (Ok p, st') ->
  exists fl k n key_indexes,
    mem st' !! p = Some (policy_node_multisig_t (mk_node token fl) k n key_indexes)
    /\ 1 <= k <= n
    /\ n <= MAX_POLICY_MAP_COSIGNERS.
Proof.
  intros HL E. pose proof (parse_multisig_strong L HL token context_flags st) as H.
  rewrite E in H. cbn [outcome] in H.
  destruct H as (_ & _ & _ & fl & k & n & ki & Hc & Hk & Hn & _).
  exists fl, k, n, ki. auto.
Qed.

Lemma parse_multisig_bounds_witness :
  let st := mk_pstate (bytes_of_string "2,@0,@1,@2)") (buffer_create 4096 512) ∅ in
  exists fl k n key_indexes,
    mem (snd (parse_multisig layout32 TOKEN_MULTI 0 st)) !! 4096
    = Some (policy_node_multisig_t (mk_node TOKEN_MULTI fl) k n key_indexes)
    /\ 1 <= k <= n
    /\ n <= MAX_POLICY_MAP_COSIGNERS.
Proof.
  intros st.
  apply (parse_multisig_bounds layout32 TOKEN_MULTI 0 st
           (snd (parse_multisig layout32 TOKEN_MULTI 0 st)) 4096).
  - exact layout32_ok.
  - vm_compute. reflexivity.
Defined.

(** X19.  The node of an accepted [thresh] holds a threshold of at least
    1, whatever its children wrote to the arena after the test. *)
Theorem parse_thresh_threshold
    (L : layout_t) (fuel : nat) (token : PolicyNodeType) (depth : Z)
    (st st' : pstate) (p : Z) :
  layout_ok L ->
  parse_thresh L (parse_script_fuel L fuel) token depth st = (Ok p, st') ->
  exists fl k n scriptlist,
    mem st' !! p = Some (policy_node_thresh_t (mk_node token fl) k n scriptlist)
    /\ 1 <= k.
Proof.
  intros HL E.
  pose proof (parse_thresh_strong L HL _ (parse_script_fuel_safe L HL fuel) token depth st) as H.
  rewrite E in H. cbn [outcome] in H.
  destruct H as (_ & _ & _ & (fl & k & n & sl & Hc & Hk & _) & _).
  exists fl, k, n, sl. auto.
Qed.

Lemma parse_thresh_threshold_witness :
  let st := mk_pstate (bytes_of_string "2,pk(@0),s:pk(@1),s:pk(@2))")
              (buffer_create 4096 512) ∅ in
  exists fl k n scriptlist,
    mem (snd (parse_thresh layout32 (parse_script_fuel layout32 8) TOKEN_THRESH 1 st)) !! 4096
    = Some (policy_node_thresh_t (mk_node TOKEN_THRESH fl) k n scriptlist)
    /\ 1 <= k.
Proof.
  intros st.
  apply (parse_thresh_threshold layout32 8 TOKEN_THRESH 1 st
           (snd (parse_thresh layout32 (parse_script_fuel layout32 8) TOKEN_THRESH 1 st)) 4096).
  - exact layout32_ok.
  - vm_compute. reflexivity.
Defined.

(** X20.  The type calculus keeps types and properties consistent: from
    consistent flags of the children, every rule of a fragment with
    children ([andor], [and_v], [and_b], [and_n], [or_b], [or_c], [or_d],
    [or_i]) and every wrapper gives, when it accepts, consistent flags. *)
Theorem type_calculus_consistent (X Y Z f : flags_t) (t : PolicyNodeType) :
  flags_consistent X ->
  flags_consistent Y ->
  flags_consistent Z ->
  In (inr f)
     [andor_flags X Y Z; and_v_flags X Y; and_b_flags X Y; and_n_flags X Y;
      or_b_flags X Y; or_c_flags X Y; or_d_flags X Y; or_i_flags X Y;
      wrapper_flags t X] ->
  flags_consistent f.
Proof.
  intros HX HY HZ Hin. cbn [In] in Hin.
  repeat match goal with H : _ \/ _ |- _ => destruct H as [H | H] end.
  - eapply consistent_andor; [exact HX | exact HY | exact HZ | exact Hin].
  - eapply consistent_and_v; [exact HX | exact HY | exact Hin].
  - eapply consistent_and_b; [exact HX | exact HY | exact Hin].
  - eapply consistent_and_n; [exact HX | exact HY | exact Hin].
  - eapply consistent_or_b; [exact HX | exact HY | exact Hin].
  - eapply consistent_or_c; [exact HX | exact HY | exact Hin].
  - eapply consistent_or_d; [exact HX | exact HY | exact Hin].
  - eapply consistent_or_i; [exact HX | exact HY | exact Hin].
  - eapply consistent_wrapper; [exact HX | exact Hin].
  - destruct Hin.
Qed.

Lemma type_calculus_consistent_witness :
  flags_consistent (mk_flags true MINISCRIPT_TYPE_B false true true true true).
Proof.
  apply (type_calculus_consistent flags_pk_k flags_older flags_older
           (mk_flags true MINISCRIPT_TYPE_B false true true true true) TOKEN_C).
  - apply consistent_leaf. simpl. tauto.
  - apply consistent_leaf. simpl. tauto.
  - apply consistent_leaf. simpl. tauto.
  - vm_compute. do 8 right. left. reflexivity.
Defined.

(** X24.  When [parse_policy_map] accepts, the nodes it leaves form a
    well-formed tree inside the output region: the root is at [out], and
    every pointer reachable from it (the [script] of a wrapper, of [sh] and
    of [wsh], the [scripts] of a node with two or three children, the
    [scriptlist] of a [thresh], the [script] and the [next] of an element
    of its list) points to a node or a list element stored at a higher
    address than the structure that holds the pointer, below
    [out + out_len]; the list of a [thresh] ends with [NULL]; and the
    flags of every node of the tree that is miniscript are consistent. *)
Theorem parse_policy_map_tree (L : layout_t) (out out_len : Z) (st st' : pstate) :
  layout_ok L ->
  0 <= out_len ->
  parse_policy_map L out out_len st = (Ok tt, st') ->
  wf (mem st') (out + out_len) to_node out.
Proof.
  intros HL Hlen E.
  pose proof (parse_policy_map_safe L out out_len st HL) as H. cbv zeta in H.
  rewrite E in H. cbn [outcome] in H.
  destruct H as ([(Hp & Hs & Ho & Hb) _] & _ & _ & Hwf).
  eapply wf_mono; [exact Hwf|].
  unfold cur, buffer_get_cur, buffer_create in *. cbn [out_buf ptr size offset] in *.
  lia.
Qed.

Lemma parse_policy_map_tree_witness :
  let st := mk_pstate (bytes_of_string "wsh(thresh(2,pk(@0),s:pk(@1),sln:older(12960)))")
              (buffer_create 0 0) ∅ in
  wf (mem (snd (parse_policy_map layout32 4096 512 st))) (4096 + 512) to_node 4096.
Proof.
  intros st.
  apply (parse_policy_map_tree layout32 4096 512 st
           (snd (parse_policy_map layout32 4096 512 st))).
  - exact layout32_ok.
  - lia.
  - vm_compute. reflexivity.
Defined.

(** X26.  On a 32-bit arena, the node of an accepted [thresh] points to a
    list that ends with [NULL] and has exactly [n] elements, one for each
    child, and [n] is at least 1. *)
Theorem parse_thresh_children
    (L : layout_t) (fuel : nat) (token : PolicyNodeType) (depth : Z)
    (st st' : pstate) (p : Z) :
  layout_ok L ->
  0 <= offset (out_buf st) <= size (out_buf st) ->
  size (out_buf st) < SIZE_MODULUS ->
  parse_thresh L (parse_script_fuel L fuel) token depth st = (Ok p, st') ->
  exists fl k n scriptlist es,
    mem st' !! p = Some (policy_node_thresh_t (mk_node token fl) k n scriptlist)
    /\ item_list (mem st') es scriptlist
    /\ n = Z.of_nat (List.length es)
    /\ 1 <= n.
Proof.
  intros HL Hoff Hsize E.
  pose proof (parse_thresh_strong L HL _ (parse_script_fuel_safe L HL fuel) token depth st) as H.
  rewrite E in H. cbn [outcome] in H.
  destruct H as ([(B1 & B2 & B3 & B4) _] & Hp & _ & (fl & k & n & sl & Hc & _ & _ & H) & _).
  destruct H as (cnt & last & sc & Hn & Hchain & Hlast & Hsl & Hrange).
  destruct (item_chain_list _ _ _ _ _ Hchain Hlast) as (es & Hes & Hlen).
  exists fl, k, n, sl, es. split; [exact Hc|]. split; [exact Hes|].
  assert (Hsmall : size_t_of (Z.of_nat (S cnt)) = Z.of_nat (S cnt)).
  { unfold size_t_of. apply Z.mod_small.
    unfold cur, buffer_get_cur in *. lia. }
  rewrite Hlen, Hn, Hsmall. split; [reflexivity | lia].
Qed.

Lemma parse_thresh_children_witness :
  let st := mk_pstate (bytes_of_string "2,pk(@0),s:pk(@1),s:pk(@2))")
              (buffer_create 4096 512) ∅ in
  let st' := snd (parse_thresh layout32 (parse_script_fuel layout32 8) TOKEN_THRESH 1 st) in
  exists fl k n scriptlist es,
    mem st' !! 4096 = Some (policy_node_thresh_t (mk_node TOKEN_THRESH fl) k n scriptlist)
    /\ item_list (mem st') es scriptlist
    /\ n = Z.of_nat (List.length es)
    /\ 1 <= n.
Proof.
  intros st st'.
  apply (parse_thresh_children layout32 8 TOKEN_THRESH 1 st st' 4096).
  - exact layout32_ok.
  - cbn. lia.
  - reflexivity.
  - vm_compute. reflexivity.
Defined.

(** X21.  A key placeholder [@] followed by a canonical decimal that fits
    in a [size_t] is read as the value of the decimal, with nothing more
    consumed, except for the largest [size_t]: its value is the [-1] by
    which [parse_key_index] reports a failure, and the placeholder is
    refused. *)
Theorem read_key_index_spec (ds : list Z) (rest : cursor) (msg : string) (st : pstate) :
  well_formed_decimal ds ->
  no_digit_ahead rest ->
  decimal_value ds 0 <= SIZE_MAX ->
  in_buf st = chr "@" :: ds ++ rest ->
  read_key_index msg st
  = (if decimal_value ds 0 =? SIZE_MAX then Error msg else Ok (decimal_value ds 0),
     mk_pstate rest (out_buf st) (mem st)).
Proof.
  intros Hwf Hrest Hmax Hin.
  assert (H0 : 0 <= decimal_value ds 0).
  { apply (decimal_value_ge ds 0); [apply Hwf | lia]. }
  unfold read_key_index, bind, on_input, parse_key_index. rewrite Hin.
  cbn [buffer_read_u8]. rewrite Z.eqb_refl. cbn [negb].
  rewrite (parse_unsigned_decimal_exact ds rest Hwf Hrest Hmax).
  unfold int_of_size_t, size_t_of, SIZE_MAX, SIZE_MODULUS, SIZE_BITS in *.
  destruct (decimal_value ds 0 <? 2 ^ 31) eqn:E31.
  - apply Z.ltb_lt in E31.
    destruct (decimal_value ds 0 =? -1) eqn:E1; [apply Z.eqb_eq in E1; lia|].
    destruct (decimal_value ds 0 =? 2 ^ 32 - 1) eqn:E2; [apply Z.eqb_eq in E2; lia|].
    unfold ret. rewrite Z.mod_small by lia. reflexivity.
  - apply Z.ltb_ge in E31.
    destruct (decimal_value ds 0 =? 2 ^ 32 - 1) eqn:E2.
    + apply Z.eqb_eq in E2. rewrite E2. reflexivity.
    + apply Z.eqb_neq in E2.
      destruct (decimal_value ds 0 - 2 ^ 32 =? -1) eqn:E1; [apply Z.eqb_eq in E1; lia|].
      unfold ret. f_equal. f_equal.
      replace (decimal_value ds 0 - 2 ^ 32) with (decimal_value ds 0 + (-1) * 2 ^ 32) by lia.
      rewrite Z.mod_add by lia. apply Z.mod_small. lia.
Qed.

Lemma read_key_index_spec_witness :
  let st := mk_pstate (bytes_of_string "@4294967295)") (buffer_create 4096 512) ∅ in
  read_key_index "Couldn't parse key index" st
  = (if decimal_value (bytes_of_string "4294967295") 0 =? SIZE_MAX
     then Error "Couldn't parse key index"
     else Ok (decimal_value (bytes_of_string "4294967295") 0),
     mk_pstate [chr ")"] (out_buf st) (mem st)).
Proof.
  intros st.
  apply (read_key_index_spec (bytes_of_string "4294967295") [chr ")"]
           "Couldn't parse key index" st).
  - split; [repeat constructor|]. split; discriminate.
  - reflexivity.
  - vm_compute. discriminate.
  - reflexivity.
Defined.

(** X22.  When [parse_policy_map] accepts, the arena is the output region
    with a position inside it: at least one byte and at most [out_len]
    bytes were allocated. *)
Theorem parse_policy_map_arena (L : layout_t) (out out_len : Z) (st st' : pstate) :
  layout_ok L ->
  0 <= out_len ->
  parse_policy_map L out out_len st = (Ok tt, st') ->
  ptr (out_buf st') = out
  /\ size (out_buf st') = out_len
  /\ 0 < offset (out_buf st') <= out_len.
Proof.
  intros HL Hlen E.
  pose proof (parse_policy_map_safe L out out_len st HL) as H. cbv zeta in H.
  rewrite E in H. cbn [outcome] in H. destruct H as ([(Hp & Hs & Ho & Hb) _] & Hlt & _).
  unfold cur, buffer_get_cur, buffer_create in *. cbn [out_buf ptr size offset] in *.
  repeat split; lia.
Qed.

Lemma parse_policy_map_arena_witness :
  let st := mk_pstate (bytes_of_string "wsh(and_v(v:pk(@0),older(144)))")
              (buffer_create 0 0) ∅ in
  let st' := snd (parse_policy_map layout32 4096 512 st) in
  ptr (out_buf st') = 4096
  /\ size (out_buf st') = 512
  /\ 0 < offset (out_buf st') <= 512.
Proof.
  intros st st'.
  apply (parse_policy_map_arena layout32 4096 512 st st').
  - exact layout32_ok.
  - lia.
  - vm_compute. reflexivity.
Defined.

(** ** The array of the key indexes *)

Section Keys.

Variable L : layout_t.
Hypothesis HL : layout_ok L.
Hypothesis Hsz : sizeof_size_t L mod 4 = 0.

(** The array of the key indexes while it is built: [cnt] values of type
    [size_t] from [ki], up to the current position. *)
Lemma multisig_loop_keys st0 node b k ki fuel :
  forall s (cnt : nat),
    advance st0 s ->
    cur st0 <= node < ki ->
    entry_ok (out_buf s) ->
    cur s = ki + Z.of_nat cnt * sizeof_size_t L ->
    (forall i, (i < cnt)%nat ->
       exists v, mem s !! (ki + Z.of_nat i * sizeof_size_t L) = Some (size_t_cell v)) ->
    mem s !! node = Some (policy_node_multisig_t b k (size_t_of (Z.of_nat cnt)) ki) ->
    outcome (advance st0)
      (fun _ s' =>
         advance st0 s'
         /\ exists cnt' : nat,
              cur s' = ki + Z.of_nat cnt' * sizeof_size_t L
              /\ (forall i, (i < cnt')%nat ->
                    exists v, mem s' !! (ki + Z.of_nat i * sizeof_size_t L)
                              = Some (size_t_cell v))
              /\ mem s' !! node
                 = Some (policy_node_multisig_t b k (size_t_of (Z.of_nat cnt')) ki))
      (multisig_loop L fuel node s).
Proof.
  layout_fact HL.
  induction fuel as [|fuel IH]; intros s cnt Hadv Hnode Hent Hpos Hcells Hcell;
    cbn [multisig_loop].
  - apply outcome_out_of_fuel. exact Hadv.
  - repeat step.
    + split; [adv_tac|]. exists cnt. split; [exact Hpos|]. split; [exact Hcells | exact Hcell].
    + specialize (Hal Hent). specialize (Hnext Hsz Hent).
      assert (Hp : p = ki + Z.of_nat cnt * sizeof_size_t L).
      { rewrite Hal. exact Hpos. }
      eapply outcome_mono; [eapply (IH _ (S cnt)) | auto |].
      * adv_tac.
      * exact Hnode.
      * exact Hnext.
      * unfold cur. cbn [out_buf]. rewrite Hcur, Hp. lia.
      * intros i Hi. cbn [mem].
        rewrite lookup_insert_ne by nia.
        destruct (Nat.eq_dec i cnt) as [-> | Hne].
        -- rewrite <- Hp. rewrite lookup_insert_eq. eexists. reflexivity.
        -- rewrite lookup_insert_ne by nia. apply Hcells. lia.
      * cbn [mem]. rewrite lookup_insert_eq. f_equal. f_equal.
        unfold size_t_of. rewrite Nat2Z.inj_succ. unfold Z.succ.
        apply Zplus_mod_idemp_l.
      * cbv beta. intros _ s' H'. exact H'.
Qed.

(** The node of [multi] and [sortedmulti] with its array. *)
Lemma parse_multisig_array token ctx st :
  0 <= offset (out_buf st) <= size (out_buf st) ->
  size (out_buf st) < SIZE_MODULUS ->
  outcome (advance st)
    (fun p s =>
       exists fl k n ki,
         mem s !! p = Some (policy_node_multisig_t (mk_node token fl) k n ki)
         /\ p < ki
         /\ ki + n * sizeof_size_t L = cur s
         /\ forall i, 0 <= i < n ->
              exists v, mem s !! (ki + i * sizeof_size_t L) = Some (size_t_cell v))
    (parse_multisig L token ctx st).
Proof.
  intros Hoff Hsize. unfold parse_multisig. layout_fact HL.
  repeat step.
  eapply outcome_mono; [eapply (multisig_loop_keys st _ _ _ _ _ _ O) | auto |].
  - adv_tac.
  - instantiate (1 := buffer_get_cur b0). side.
  - exact Hent.
  - unfold cur. cbn [out_buf]. lia.
  - intros i Hi. lia.
  - lookup.
  - cbv beta. intros _ s' (A1 & cnt' & A2 & A3 & A4).
    assert (Hcnt : Z.of_nat cnt' < SIZE_MODULUS).
    { destruct A1 as [(B1 & B2 & B3 & B4) _]. destruct Hle as (C1 & C2 & C3 & C4).
      destruct Hle0 as (D1 & D2 & D3 & D4).
      assert (Z.of_nat cnt' * 1 <= Z.of_nat cnt' * sizeof_size_t L)
        by (apply Z.mul_le_mono_nonneg_l; lia).
      unfold cur, buffer_get_cur in *. cbn [out_buf] in *.
      clear A3 A4. generalize dependent (Z.of_nat cnt' * sizeof_size_t L). intros. lia. }
    assert (Hn : size_t_of (Z.of_nat cnt') = Z.of_nat cnt').
    { unfold size_t_of. apply Z.mod_small. lia. }
    rewrite Hn in A4.
    repeat step.
    all: eexists _, _, _, _; split; [ lookup |]; split; [ side |]; split; [ side |].
    all: intros i Hi; cbn [mem];
      assert (0 <= i * sizeof_size_t L) by (apply Z.mul_nonneg_nonneg; lia);
      rewrite lookup_insert_ne by side;
      replace i with (Z.of_nat (Z.to_nat i)) by lia; apply A3; lia.
Qed.

End Keys.

(** X25.  On a 32-bit arena and with a [size_t] whose size is a multiple
    of 4, the node of an accepted [multi] or [sortedmulti] points to an
    array of [n] values of type [size_t], one for each key placeholder:
    the array starts above the node, its elements follow each other
    without padding, and it ends at the position the arena is left at,
    inside the region. *)
Theorem parse_multisig_key_indexes
    (L : layout_t) (token : PolicyNodeType) (context_flags : Z) (st st' : pstate) (p : Z) :
  layout_ok L ->
  sizeof_size_t L mod 4 = 0 ->
  0 <= offset (out_buf st) <= size (out_buf st) ->
  size (out_buf st) < SIZE_MODULUS ->
  parse_multisig L token context_flags st = (Ok p, st') ->
  exists fl k n key_indexes,
    mem st' !! p = Some (policy_node_multisig_t (mk_node token fl) k n key_indexes)
    /\ p < key_indexes
    /\ key_indexes + n * sizeof_size_t L = cur st'
    /\ cur st' <= ptr (out_buf st) + size (out_buf st)
    /\ forall i, 0 <= i < n ->
         exists v, mem st' !! (key_indexes + i * sizeof_size_t L) = Some (size_t_cell v).
Proof.
  intros HL Hsz Hoff Hsize E.
  pose proof (parse_multisig_array L HL Hsz token context_flags st Hoff Hsize) as H.
  pose proof (parse_multisig_strong L HL token context_flags st) as H'.
  rewrite E in H, H'. cbn [outcome] in H, H'.
  destruct H as (fl & k & n & ki & Hc & Hlt & Hend & Hcells).
  destruct H' as ([(B1 & B2 & B3 & B4) _] & _).
  exists fl, k, n, ki. split; [exact Hc|]. split; [exact Hlt|]. split; [exact Hend|].
  split; [| exact Hcells].
  unfold cur, buffer_get_cur. lia.
Qed.

Lemma parse_multisig_key_indexes_witness :
  let st := mk_pstate (bytes_of_string "2,@0,@1,@2)") (buffer_create 4096 512) ∅ in
  let st' := snd (parse_multisig layout32 TOKEN_SORTEDMULTI 0 st) in
  exists fl k n key_indexes,
    mem st' !! 4096
    = Some (policy_node_multisig_t (mk_node TOKEN_SORTEDMULTI fl) k n key_indexes)
    /\ 4096 < key_indexes
    /\ key_indexes + n * sizeof_size_t layout32 = cur st'
    /\ cur st' <= ptr (out_buf st) + size (out_buf st)
    /\ forall i, 0 <= i < n ->
         exists v, mem st' !! (key_indexes + i * sizeof_size_t layout32)
                   = Some (size_t_cell v).
Proof.
  intros st st'.
  apply (parse_multisig_key_indexes layout32 TOKEN_SORTEDMULTI 0 st st' 4096).
  - exact layout32_ok.
  - reflexivity.
  - cbn. lia.
  - reflexivity.
  - vm_compute. reflexivity.
Defined.

(** ** The recursion bound and the colon without wrappers *)


Lemma refines_refl {A} (m : M A) : refines m m.
Proof. intros st. right. reflexivity. Qed.

Lemma refines_bind {A B} (m m' : M A) (f f' : A -> M B) :
  refines m m' -> (forall a, refines (f a) (f' a)) -> refines (bind m f) (bind m' f').
Proof.
  intros Hm Hf st. unfold bind. destruct (Hm st) as [E | E].
  - left. destruct (m st) as [[] s]; cbn [fst] in *; try discriminate. reflexivity.
  - rewrite E. destruct (m st) as [[a | msg | |] s]; [apply Hf | right | right | right];
      reflexivity.
Qed.

Ltac refines_tac Hrec :=
  repeat first
    [ match goal with
      | |- refines (?r _ _) (?r' _ _) => is_var r; is_var r'; apply Hrec
      | |- refines ?a ?b => constr_eq a b; apply refines_refl
      end
    | apply refines_bind; [| intros ? ]
    | match goal with
      | |- refines (if ?c then _ else _) (if ?c then _ else _) => destruct c
      | |- refines (match ?x with _ => _ end) (match ?x with _ => _ end) => destruct x
      end
    | progress cbv zeta ].

Section Refines.

Variable L : layout_t.
Variables rec rec' : Z -> Z -> M unit.
Hypothesis Hrec : forall depth ctx, refines (rec depth ctx) (rec' depth ctx).

Lemma refines_parse_child_scripts_from depth node n_children todo :
  forall idx,
    refines (parse_child_scripts_from rec depth node n_children todo idx)
            (parse_child_scripts_from rec' depth node n_children todo idx).
Proof.
  induction todo as [|todo IH]; intros idx; cbn [parse_child_scripts_from].
  - apply refines_refl.
  - refines_tac Hrec; apply IH.
Qed.

Lemma refines_thresh_loop depth node fuel :
  forall curp cz co,
    refines (thresh_loop L rec fuel depth node curp cz co)
            (thresh_loop L rec' fuel depth node curp cz co).
Proof.
  induction fuel as [|fuel IH]; intros curp cz co; cbn [thresh_loop].
  - apply refines_refl.
  - refines_tac Hrec; apply IH.
Qed.

Lemma refines_parse_node token depth ctx :
  refines (parse_node L rec token depth ctx) (parse_node L rec' token depth ctx).
Proof.
  destruct token; cbn [parse_node];
    try (match goal with |- refines ?a ?b => constr_eq a b; apply refines_refl end);
    unfold parse_sh_wsh, parse_andor, parse_with_script2, parse_thresh, parse_child_scripts;
    refines_tac Hrec;
    first [ apply refines_parse_child_scripts_from | apply refines_thresh_loop ].
Qed.

Lemma refines_parse_script_body depth ctx :
  refines (parse_script_body L rec depth ctx) (parse_script_body L rec' depth ctx).
Proof.
  unfold parse_script_body, parse_fragment.
  refines_tac Hrec; apply refines_parse_node.
Qed.

End Refines.

Lemma refines_parse_script_fuel (L : layout_t) (fuel : nat) :
  forall depth ctx,
    refines (parse_script_fuel L fuel depth ctx) (parse_script_fuel L (S fuel) depth ctx).
Proof.
  induction fuel as [|fuel IH]; intros depth ctx.
  - intros st. left. reflexivity.
  - change (refines (parse_script_body L (parse_script_fuel L fuel) depth ctx)
              (parse_script_body L (parse_script_fuel L (S fuel)) depth ctx)).
    apply refines_parse_script_body. exact IH.
Qed.

(** Once the recursion bound exceeds the number of unread bytes, the result
    does not depend on it. *)
Lemma parse_script_fuel_enough (L : layout_t) (fuel : nat) depth ctx st :
  (unread st < fuel)%nat ->
  parse_script_fuel L (S fuel) depth ctx st = parse_script_fuel L fuel depth ctx st.
Proof.
  intros Hlt. destruct (refines_parse_script_fuel L fuel depth ctx st) as [E | E]; [|exact E].
  destruct (parse_script_fuel L fuel depth ctx st) as [r s] eqn:Er.
  destruct (consuming_parse_script_fuel L fuel (unread st) Hlt depth ctx st r s
              ltac:(lia) Er) as [Hne _].
  cbn [fst] in E. contradiction.
Qed.

Lemma has_wrapper_prefix_lone_colon (rest : cursor) :
  has_wrapper_prefix (chr ":" :: rest) = true /\ count_wrappers (chr ":" :: rest) = O.
Proof. split; reflexivity. Qed.

Lemma parse_script_body_lone_colon L rec depth ctx rest ob m :
  has_wrapper_prefix rest = false ->
  parse_script_body L rec depth ctx (mk_pstate (chr ":" :: rest) ob m)
  = parse_script_body L rec depth ctx (mk_pstate rest ob m).
Proof.
  intros Hno. unfold parse_script_body.
  unfold bind at 1. unfold on_input at 1. cbn [in_buf out_buf mem].
  unfold bind at 1. unfold get_cur at 1. cbn [in_buf out_buf mem].
  symmetry.
  unfold bind at 1. unfold on_input at 1. cbn [in_buf out_buf mem].
  unfold bind at 1. unfold get_cur at 1. cbn [in_buf out_buf mem].
  rewrite Hno.
  destruct (has_wrapper_prefix_lone_colon rest) as [-> ->].
  cbn [parse_wrappers].
  unfold bind at 1. unfold ret at 1.
  symmetry.
  unfold bind at 1. unfold bind at 1. unfold bind at 1. unfold ret at 1.
  unfold on_input at 1. cbn [in_buf out_buf mem].
  change (buffer_seek_cur (chr ":" :: rest) 1) with rest.
  unfold ret at 1. reflexivity.
Qed.

(** X23.  A colon at the start of a policy, with no wrapper letter before
    it, is skipped: the policy is parsed as if the colon were not there,
    with the same result, the same nodes and the same input left. *)
Theorem parse_policy_map_lone_colon
    (L : layout_t) (out out_len : Z) (rest : cursor) (ob : buffer_t) (m : gmap Z cell) :
  out mod 4 = 0 ->
  has_wrapper_prefix rest = false ->
  parse_policy_map L out out_len (mk_pstate (chr ":" :: rest) ob m)
  = parse_policy_map L out out_len (mk_pstate rest ob m).
Proof.
  intros Hal Hno. unfold parse_policy_map.
  apply Z.eqb_eq in Hal. rewrite Hal. cbn [negb].
  unfold bind at 1. symmetry. unfold bind at 1. symmetry. cbn [in_buf out_buf mem].
  unfold parse_script, bind, input_length. cbn [in_buf List.length].
  change (parse_script_fuel L (S (S (List.length rest))) 0 0
            (mk_pstate (chr ":" :: rest) (buffer_create out out_len) m))
    with (parse_script_body L (parse_script_fuel L (S (List.length rest))) 0 0
            (mk_pstate (chr ":" :: rest) (buffer_create out out_len) m)).
  rewrite (parse_script_body_lone_colon L _ 0 0 rest _ m Hno).
  change (parse_script_body L (parse_script_fuel L (S (List.length rest))) 0 0
            (mk_pstate rest (buffer_create out out_len) m))
    with (parse_script_fuel L (S (S (List.length rest))) 0 0
            (mk_pstate rest (buffer_create out out_len) m)).
  apply parse_script_fuel_enough. unfold unread. cbn [in_buf]. lia.
Qed.

Lemma parse_policy_map_lone_colon_witness :
  parse_policy_map layout32 4096 512
    (mk_pstate (chr ":" :: bytes_of_string "pkh(@0)") (buffer_create 0 0) ∅)
  = parse_policy_map layout32 4096 512
      (mk_pstate (bytes_of_string "pkh(@0)") (buffer_create 0 0) ∅).
Proof.
  apply (parse_policy_map_lone_colon layout32 4096 512 (bytes_of_string "pkh(@0)")
           (buffer_create 0 0) ∅).
  - reflexivity.
  - reflexivity.
Defined.
